(** * BattleTech combat simulator: a shallow embedding of the damage, heat,
      movement and fight-loop code, with the properties checked against it.

    The embedding follows the Python sources function by function:

    - [battletech/weapons.py]   : [Weapon], the weapon constants, [WEAPON_DB];
    - [battletech/tables.py]    : [roll_2d6], [CRIT_TABLE], [TRANSFER_MAP],
                                  [REAR_ARMOR_LOCATIONS], the hit location
                                  tables and [roll_hit_location],
                                  [CLUSTER_TABLE] and [roll_cluster_hits],
                                  [INTERNAL_STRUCTURE],
                                  [get_target_movement_modifier];
    - [battletech/mech.py]      : [Location], [MountedWeapon], [Mech],
                                  [is_dead], [apply_damage], [_apply_crits],
                                  [_ammo_explosion], [load_mech];
    - [battletech/combat.py]    : [get_range_modifier],
                                  [calculate_target_number] and its
                                  modifiers, [resolve_attack],
                                  [resolve_all_attacks];
    - [battletech/heat.py]      : [calculate_heat_generated],
                                  [calculate_heat_dissipation],
                                  [apply_heat_phase], [get_heat_mp_penalty];
    - [battletech/simulator.py] : [select_weapons_to_fire], [choose_movement],
                                  [heat_neutral_dpr], [optimal_movement],
                                  [fight];
    - [battletech/soak.py]      : [_prep_mech], [_apply_concentrated],
                                  [_apply_cluster], the hit loop of
                                  [soak_single].

    Conventions.
    - Python integers are unbounded: they are [Z].
    - Python floats computed from integers without bound (the hit-point
      fractions of [fight], the default running speed of [load_mech]) are
      IEEE 754 binary64 numbers ([SpecFloat], precision 53), with Python's
      [OverflowError] where a result is out of range.
    - Dictionaries keyed by strings are [gmap string _]; lists are lists.
    - Python objects are mutated in place and shared by reference.  The
      embedding passes the whole [Mech] value along and re-reads a location
      or a weapon from it wherever the source reads a field of a shared
      object after a call that may have mutated it.
    - The [random] module is an oracle: a sequence [rnd : nat -> nat] of raw
      draws and a cursor into it.  [random.randint a b] consumes one draw and
      reduces it into [a..b], so every in-range sequence of outcomes is
      produced by some oracle.
    - Exceptions are explicit ([Raise]); loops without a bound in the source
      take fuel ([OutOfFuel] is "still running", never a Python result).
      A Python call returns [r] when the model returns [r] with all fuel
      from some amount on ([settles]).
    - The textual event traces ([events], [log]) and [MechMetadata] carry no
      behaviour and are left out. *)

From Stdlib Require Import ZArith QArith Qminmax Lia Bool.
From Stdlib Require Import Floats.SpecFloat.
From stdpp Require Import base option list strings gmap.

Local Open Scope Z_scope.

(** ** Outcomes of effectful code *)

Inductive exn : Type :=
| TypeError
| KeyError
| IndexError
| OverflowError
| ValueError.

Inductive result (A : Type) : Type :=
| Ret (a : A)
| Raise (e : exn)
| OutOfFuel.

Arguments Ret {A} a.
Arguments Raise {A} e.
Arguments OutOfFuel {A}.

(** A computation reads the oracle through a cursor and returns the advanced
    cursor with its value. *)
Definition M (A : Type) : Type := nat -> result (A * nat).

Definition ret {A} (a : A) : M A := fun p => Ret (a, p).

Definition bind {A B} (c : M A) (k : A -> M B) : M B :=
  fun p =>
    match c p with
    | Ret (a, p') => k a p'
    | Raise e => Raise e
    | OutOfFuel => OutOfFuel
    end.

Definition raise {A} (e : exn) : M A := fun _ => Raise e.

Definition out_of_fuel {A} : M A := fun _ => OutOfFuel.

Notation "'let*' x ':=' c 'in' k" := (bind c (fun x => k))
  (at level 10, x name, c at level 100, k at level 200).

(** ** weapons.py *)

Record Weapon : Type := mkWeapon {
  wname : string;
  damage : Z;
  heat : Z;
  min_range : Z;
  short_range : Z;
  medium_range : Z;
  long_range : Z;
  ammo_per_ton : option Z;
  cluster_size : Z;
  damage_per_missile : Z;
  is_streak : bool;
  is_ultra : bool;
  is_lb_x : bool;
  target_heat : Z;
  crit_slots : Z
}.

(** The dataclass defaults: [cluster_size=0], [damage_per_missile=0], the
    three flags false, [target_heat=0], [crit_slots=1]. *)
Definition energy (n : string) (d h mn s m l : Z) (slots : Z) : Weapon :=
  mkWeapon n d h mn s m l None 0 0 false false false 0 slots.

Definition ballistic (n : string) (d h mn s m l : Z) (ammo : Z) (slots : Z)
  : Weapon :=
  mkWeapon n d h mn s m l (Some ammo) 0 0 false false false 0 slots.

Definition missile (n : string) (d h mn s m l : Z) (ammo : Z)
    (cluster per_missile : Z) (streak : bool) (slots : Z) : Weapon :=
  mkWeapon n d h mn s m l (Some ammo) cluster per_missile streak false false 0
    slots.

Definition SMALL_LASER := energy "Small Laser" 3 1 0 1 2 3 1.
Definition MEDIUM_LASER := energy "Medium Laser" 5 3 0 3 6 9 1.
Definition LARGE_LASER := energy "Large Laser" 8 8 0 5 10 15 2.
Definition PPC := energy "PPC" 10 10 3 6 12 18 3.
Definition ER_LARGE_LASER := energy "ER Large Laser" 8 12 0 7 14 19 2.
Definition ER_PPC := energy "ER PPC" 10 15 0 7 14 23 3.
Definition SMALL_PULSE_LASER := energy "Small Pulse Laser" 3 2 0 1 2 3 1.
Definition MEDIUM_PULSE_LASER := energy "Medium Pulse Laser" 6 4 0 2 4 6 1.
Definition LARGE_PULSE_LASER := energy "Large Pulse Laser" 9 10 0 3 7 10 2.
Definition FLAMER :=
  mkWeapon "Flamer" 2 3 0 1 2 3 None 0 0 false false false 2 1.

Definition AC2 := ballistic "AC/2" 2 1 4 8 16 24 45 1.
Definition AC5 := ballistic "AC/5" 5 1 3 6 12 18 20 4.
Definition AC10 := ballistic "AC/10" 10 3 0 5 10 15 10 7.
Definition AC20 := ballistic "AC/20" 20 7 0 3 6 9 5 10.
Definition ULTRA_AC5 :=
  mkWeapon "Ultra AC/5" 5 1 2 6 12 18 (Some 20) 0 0 false true false 0 5.
Definition LBX_AC10 :=
  mkWeapon "LB 10-X AC" 10 2 0 6 12 18 (Some 10) 10 1 false false true 0 6.
Definition MACHINE_GUN := ballistic "Machine Gun" 2 0 0 1 2 3 200 1.

Definition SRM2 := missile "SRM-2" 2 2 0 3 6 9 50 2 2 false 1.
Definition SRM4 := missile "SRM-4" 2 3 0 3 6 9 25 4 2 false 1.
Definition SRM6 := missile "SRM-6" 2 4 0 3 6 9 15 6 2 false 2.
Definition LRM5 := missile "LRM-5" 1 2 6 7 14 21 24 5 1 false 1.
Definition LRM10 := missile "LRM-10" 1 4 6 7 14 21 12 10 1 false 2.
Definition LRM15 := missile "LRM-15" 1 5 6 7 14 21 8 15 1 false 3.
Definition LRM20 := missile "LRM-20" 1 6 6 7 14 21 6 20 1 false 5.
Definition STREAK_SRM2 := missile "Streak SRM-2" 2 2 0 3 6 9 50 2 2 true 1.
Definition STREAK_SRM4 := missile "Streak SRM-4" 2 3 0 3 6 9 25 4 2 true 1.
Definition STREAK_SRM6 := missile "Streak SRM-6" 2 4 0 3 6 9 15 6 2 true 2.

(** [WEAPON_DB], as the list its dictionary is built from. *)
Definition WEAPON_DB : list Weapon :=
  [ SMALL_LASER; MEDIUM_LASER; LARGE_LASER; PPC;
    ER_LARGE_LASER; ER_PPC;
    SMALL_PULSE_LASER; MEDIUM_PULSE_LASER; LARGE_PULSE_LASER;
    FLAMER;
    AC2; AC5; AC10; AC20;
    ULTRA_AC5; LBX_AC10; MACHINE_GUN;
    SRM2; SRM4; SRM6;
    LRM5; LRM10; LRM15; LRM20;
    STREAK_SRM2; STREAK_SRM4; STREAK_SRM6 ].

(** ** mech.py: mounted weapons *)

Record MountedWeapon : Type := mkMounted {
  weapon : Weapon;
  location : string;
  ammo_remaining : option Z;
  mw_destroyed : bool
}.

(** The dataclass constructor with its [__post_init__]: an unspecified ammo
    count defaults to the weapon's [ammo_per_ton]. *)
Definition MountedWeapon_init (w : Weapon) (loc : string)
    (ammo : option Z) : MountedWeapon :=
  mkMounted w loc
    (match ammo with
     | None => ammo_per_ton w
     | Some a => Some a
     end)
    false.

(** ** combat.py: range modifier *)

Definition get_range_modifier (mw : MountedWeapon) (distance : Z)
  : option Z :=
  let w := weapon mw in
  if distance <? min_range w then Some (min_range w - distance)
  else if distance <=? short_range w then Some 0
  else if distance <=? medium_range w then Some 2
  else if distance <=? long_range w then Some 4
  else None.

(** ** heat.py: movement-point penalty *)

(** The source returns early at heat 9 and above; the threshold table that
    follows is kept as written. *)
Definition get_heat_mp_penalty (current_heat : Z) : Z :=
  if 9 <=? current_heat then 4
  else
    let penalty := 0 in
    let penalty := if 5 <=? current_heat then penalty + 1 else penalty in
    let penalty := if 10 <=? current_heat then penalty + 1 else penalty in
    let penalty := if 15 <=? current_heat then penalty + 1 else penalty in
    let penalty := if 20 <=? current_heat then penalty + 1 else penalty in
    let penalty := if 25 <=? current_heat then penalty + 1 else penalty in
    penalty.

(** The penalty as the specification words it: the number of thresholds
    among 5, 10, 15, 20, 25 that the heat has reached. *)
Definition thresholds_reached (h : Z) : Z :=
  Z.of_nat (length (filter (fun t => t <= h) [5; 10; 15; 20; 25])).

(** ** tables.py *)

Section Oracle.

(** The raw draws of the random number generator, in the order the program
    consumes them. *)
Variable rnd : nat -> nat.

(** [random.randint(a, b)]: one draw, reduced into [a..b]. *)
Definition randint (a b : Z) : M Z :=
  fun p => Ret (a + Z.of_nat (rnd p) mod (b - a + 1), S p).

Definition roll_2d6 : M Z :=
  let* d1 := randint 1 6 in
  let* d2 := randint 1 6 in
  ret (d1 + d2).

(** [CRIT_TABLE]; a key outside 2..12 is a [KeyError]. *)
Definition CRIT_TABLE (roll : Z) : option Z :=
  if (2 <=? roll) && (roll <=? 7) then Some 0
  else if (8 <=? roll) && (roll <=? 9) then Some 1
  else if (10 <=? roll) && (roll <=? 11) then Some 2
  else if roll =? 12 then Some 3
  else None.

Definition roll_critical_hits : M Z :=
  let* roll := roll_2d6 in
  match CRIT_TABLE roll with
  | Some n => ret n
  | None => raise KeyError
  end.

End Oracle.

(** [TRANSFER_MAP.get(name)]: the two [None] entries and a missing key both
    give [None]. *)
Definition TRANSFER_MAP (name : string) : option string :=
  if String.eqb name "LT" then Some "CT"
  else if String.eqb name "RT" then Some "CT"
  else if String.eqb name "LA" then Some "LT"
  else if String.eqb name "RA" then Some "RT"
  else if String.eqb name "LL" then Some "LT"
  else if String.eqb name "RL" then Some "RT"
  else None.

Definition REAR_ARMOR_LOCATIONS (name : string) : bool :=
  String.eqb name "CT" || String.eqb name "LT" || String.eqb name "RT".

(** ** mech.py: locations and mechs *)

Record Location : Type := mkLocation {
  loc_name : string;
  max_armor : Z;
  current_armor : Z;
  rear_max_armor : Z;
  rear_current_armor : Z;
  max_structure : Z;
  current_structure : Z;
  destroyed : bool;
  crittable_slots : list string;
  has_case : bool
}.

Definition transfer_to (l : Location) : option string :=
  TRANSFER_MAP (loc_name l).

Definition loc_total_hp (l : Location) : Z :=
  current_armor l + rear_current_armor l + current_structure l.

Definition set_current_armor (v : Z) (l : Location) : Location :=
  mkLocation (loc_name l) (max_armor l) v (rear_max_armor l)
    (rear_current_armor l) (max_structure l) (current_structure l)
    (destroyed l) (crittable_slots l) (has_case l).

Definition set_rear_current_armor (v : Z) (l : Location) : Location :=
  mkLocation (loc_name l) (max_armor l) (current_armor l) (rear_max_armor l)
    v (max_structure l) (current_structure l)
    (destroyed l) (crittable_slots l) (has_case l).

Definition set_current_structure (v : Z) (l : Location) : Location :=
  mkLocation (loc_name l) (max_armor l) (current_armor l) (rear_max_armor l)
    (rear_current_armor l) (max_structure l) v
    (destroyed l) (crittable_slots l) (has_case l).

Definition set_destroyed (v : bool) (l : Location) : Location :=
  mkLocation (loc_name l) (max_armor l) (current_armor l) (rear_max_armor l)
    (rear_current_armor l) (max_structure l) (current_structure l)
    v (crittable_slots l) (has_case l).

Definition set_crittable_slots (v : list string) (l : Location) : Location :=
  mkLocation (loc_name l) (max_armor l) (current_armor l) (rear_max_armor l)
    (rear_current_armor l) (max_structure l) (current_structure l)
    (destroyed l) v (has_case l).

Definition set_mw_destroyed (v : bool) (mw : MountedWeapon) : MountedWeapon :=
  mkMounted (weapon mw) (location mw) (ammo_remaining mw) v.

Definition set_ammo_remaining (v : option Z) (mw : MountedWeapon)
  : MountedWeapon :=
  mkMounted (weapon mw) (location mw) v (mw_destroyed mw).

Record Mech : Type := mkMech {
  mech_name : string;
  tonnage : Z;
  walk_mp : Z;
  run_mp : Z;
  jump_mp : Z;
  gunnery : Z;
  piloting : Z;
  locations : gmap string Location;
  weapons : list MountedWeapon;
  heat_sinks : Z;
  double_heat_sinks : bool;
  engine_type : string;
  current_heat : Z;
  active : bool;
  movement_mode : string;
  hexes_moved : Z
}.

Definition set_locations (v : gmap string Location) (m : Mech) : Mech :=
  mkMech (mech_name m) (tonnage m) (walk_mp m) (run_mp m) (jump_mp m)
    (gunnery m) (piloting m) v (weapons m) (heat_sinks m)
    (double_heat_sinks m) (engine_type m) (current_heat m) (active m)
    (movement_mode m) (hexes_moved m).

Definition set_weapons (v : list MountedWeapon) (m : Mech) : Mech :=
  mkMech (mech_name m) (tonnage m) (walk_mp m) (run_mp m) (jump_mp m)
    (gunnery m) (piloting m) (locations m) v (heat_sinks m)
    (double_heat_sinks m) (engine_type m) (current_heat m) (active m)
    (movement_mode m) (hexes_moved m).

Definition set_current_heat (v : Z) (m : Mech) : Mech :=
  mkMech (mech_name m) (tonnage m) (walk_mp m) (run_mp m) (jump_mp m)
    (gunnery m) (piloting m) (locations m) (weapons m) (heat_sinks m)
    (double_heat_sinks m) (engine_type m) v (active m)
    (movement_mode m) (hexes_moved m).

Definition set_active (v : bool) (m : Mech) : Mech :=
  mkMech (mech_name m) (tonnage m) (walk_mp m) (run_mp m) (jump_mp m)
    (gunnery m) (piloting m) (locations m) (weapons m) (heat_sinks m)
    (double_heat_sinks m) (engine_type m) (current_heat m) v
    (movement_mode m) (hexes_moved m).

Definition set_movement (mode : string) (hexes : Z) (m : Mech) : Mech :=
  mkMech (mech_name m) (tonnage m) (walk_mp m) (run_mp m) (jump_mp m)
    (gunnery m) (piloting m) (locations m) (weapons m) (heat_sinks m)
    (double_heat_sinks m) (engine_type m) (current_heat m) (active m)
    mode hexes.

(** [self.locations[location_id] = loc'], for a location mutated in place. *)
Definition put_loc (location_id : string) (l : Location) (m : Mech) : Mech :=
  set_locations (<[location_id := l]> (locations m)) m.

(** [loc = self.locations.get(id); loc and loc.destroyed]: a dataclass
    instance is always truthy. *)
Definition loc_destroyed (m : Mech) (id : string) : bool :=
  match locations m !! id with
  | Some l => destroyed l
  | None => false
  end.

Definition is_dead (m : Mech) : bool :=
  if negb (active m) then true
  else if loc_destroyed m "CT" then true
  else if loc_destroyed m "HD" then true
  else if String.eqb (engine_type m) "xl" then
    if loc_destroyed m "LT" || loc_destroyed m "RT" then true else false
  else false.

(** Sums over [self.locations.values()]. *)
Definition sum_locations (f : Location -> Z) (m : Mech) : Z :=
  map_fold (fun _ l acc => f l + acc) 0 (locations m).

Definition total_armor (m : Mech) : Z :=
  sum_locations (fun l => current_armor l + rear_current_armor l) m.

Definition total_structure (m : Mech) : Z :=
  sum_locations current_structure m.

Definition total_hp (m : Mech) : Z := total_armor m + total_structure m.

Definition max_total_hp (m : Mech) : Z :=
  sum_locations (fun l => max_armor l + rear_max_armor l + max_structure l) m.

(** ** mech.py: the damage pipeline *)

(** [self.locations[location_id]]. *)
Definition get_loc (m : Mech) (location_id : string) : M Location :=
  match locations m !! location_id with
  | Some l => ret l
  | None => raise KeyError
  end.

(** [slots[slot_idx]] for a non-negative index. *)
Definition slot_at (slots : list string) (slot_idx : Z) : M string :=
  match slots !! Z.to_nat slot_idx with
  | Some s => ret s
  | None => raise IndexError
  end.

Definition is_DESTROYED (s : string) : bool := String.eqb s "DESTROYED".

(** [[s for s in loc.crittable_slots if s != "DESTROYED"]]. *)
Definition available_slots (l : Location) : list string :=
  List.filter (fun s => negb (is_DESTROYED s)) (crittable_slots l).

(** The armor step of [apply_damage]: the rear pool when the hit is from the
    rear on a location that has one, the front pool otherwise.  Returns the
    location and the damage left. *)
Definition absorb_armor (location_id : string) (is_rear : bool)
    (loc : Location) (dmg : Z) : Location * Z :=
  if is_rear && REAR_ARMOR_LOCATIONS location_id then
    if 0 <? rear_current_armor loc then
      let absorbed := Z.min (rear_current_armor loc) dmg in
      (set_rear_current_armor (rear_current_armor loc - absorbed) loc,
       dmg - absorbed)
    else (loc, dmg)
  else
    if 0 <? current_armor loc then
      let absorbed := Z.min (current_armor loc) dmg in
      (set_current_armor (current_armor loc - absorbed) loc, dmg - absorbed)
    else (loc, dmg).

(** [for mw in self.weapons: if mw.location == location_id:
       mw.destroyed = True]. *)
Definition destroy_weapons_in (location_id : string)
    (ws : list MountedWeapon) : list MountedWeapon :=
  map (fun mw =>
         if String.eqb (location mw) location_id
         then set_mw_destroyed true mw else mw) ws.

(** The location-destruction step: flag the location (already re-read as
    [loc]) and the weapons mounted there. *)
Definition mark_destroyed (location_id : string) (loc : Location)
    (m : Mech) : Mech :=
  set_weapons (destroy_weapons_in location_id (weapons m))
    (put_loc location_id (set_destroyed true loc) m).

(** [mw.ammo_remaining and mw.ammo_remaining > 0]. *)
Definition has_ammo_left (mw : MountedWeapon) : bool :=
  match ammo_remaining mw with
  | Some a => negb (a =? 0) && (0 <? a)
  | None => false
  end.

Definition explosion_damage (mw : MountedWeapon) : Z :=
  let a := default 0 (ammo_remaining mw) in
  if 0 <? cluster_size (weapon mw)
  then a * damage_per_missile (weapon mw) * cluster_size (weapon mw)
  else a * damage (weapon mw).

(** The search loop of [_ammo_explosion]: the first weapon of the location
    with ammo left whose name matches the slot gives the damage and loses
    its ammo.  Returns [ammo_damage] (0 when none matches) and the weapons. *)
Fixpoint find_ammo (location_id ammo_slot : string)
    (ws : list MountedWeapon) : Z * list MountedWeapon :=
  match ws with
  | [] => (0, [])
  | mw :: rest =>
      if String.eqb (location mw) location_id && has_ammo_left mw
         && String.eqb ammo_slot ("Ammo " +:+ wname (weapon mw))
      then (explosion_damage mw, set_ammo_remaining (Some 0) mw :: rest)
      else
        let '(d, rest') := find_ammo location_id ammo_slot rest in
        (d, mw :: rest')
  end.

(** The contained branch of [_ammo_explosion]. *)
Definition case_contain (location_id : string) (loc : Location)
    (m : Mech) : Mech :=
  let loc := set_current_structure 0 loc in
  let loc := set_current_armor 0 loc in
  let loc := set_rear_current_armor 0 loc in
  let loc := set_destroyed true loc in
  set_weapons (destroy_weapons_in location_id (weapons m))
    (put_loc location_id loc m).

(** [_ammo_explosion], open in its call to [apply_damage]. *)
Definition ammo_explosion_body
    (apply_damage_rec : Mech -> string -> Z -> bool -> M Mech)
    (m : Mech) (location_id ammo_slot : string) : M Mech :=
  let* loc := get_loc m location_id in
  let '(ammo_damage, ws) := find_ammo location_id ammo_slot (weapons m) in
  let m := set_weapons ws m in
  let ammo_damage := if ammo_damage <=? 0 then 20 else ammo_damage in
  if has_case loc then ret (case_contain location_id loc m)
  else apply_damage_rec m location_id ammo_damage false.

(** The weapon loop of one critical hit: the first live weapon of the
    location named by the slot is destroyed; when it occupies more than one
    slot, every slot of the location still naming it is destroyed too. *)
Fixpoint destroy_first_named (location_id hit_item : string)
    (ws : list MountedWeapon) : option MountedWeapon * list MountedWeapon :=
  match ws with
  | [] => (None, [])
  | mw :: rest =>
      if String.eqb (location mw) location_id
         && String.eqb (wname (weapon mw)) hit_item
         && negb (mw_destroyed mw)
      then (Some mw, set_mw_destroyed true mw :: rest)
      else
        let '(r, rest') := destroy_first_named location_id hit_item rest in
        (r, mw :: rest')
  end.

Definition blank_slots (hit_item : string) (slots : list string)
  : list string :=
  map (fun s => if String.eqb s hit_item then "DESTROYED" else s) slots.

Definition crit_weapon (location_id hit_item : string) (loc : Location)
    (m : Mech) : Mech :=
  let '(found, ws) :=
    destroy_first_named location_id hit_item (weapons m) in
  let m := set_weapons ws m in
  match found with
  | Some mw =>
      if 1 <? crit_slots (weapon mw)
      then put_loc location_id
             (set_crittable_slots
                (blank_slots hit_item (crittable_slots loc)) loc) m
      else m
  | None => m
  end.

Section Pipeline.

Variable rnd : nat -> nat.

(** [while loc.crittable_slots[slot_idx] == "DESTROYED":
       slot_idx = random.randint(0, len(loc.crittable_slots) - 1)].
    The source gives no bound on the number of redraws. *)
Fixpoint redraw_slot (fuel : nat) (slots : list string) (slot_idx : Z)
  : M Z :=
  match fuel with
  | O => out_of_fuel
  | S fuel' =>
      let* s := slot_at slots slot_idx in
      if is_DESTROYED s then
        let* slot_idx' := randint rnd 0 (Z.of_nat (length slots) - 1) in
        redraw_slot fuel' slots slot_idx'
      else ret slot_idx
  end.

(** The first draw and the retry loop. *)
Definition pick_slot (fuel : nat) (slots : list string) : M Z :=
  let* slot_idx := randint rnd 0 (Z.of_nat (length slots) - 1) in
  redraw_slot fuel slots slot_idx.

(** The [for _ in range(num_crits)] loop of [_apply_crits]; [explode] is
    [_ammo_explosion].  The engine-hit branch of the source only computes a
    local count and is left out. *)
Fixpoint crit_loop (explode : Mech -> string -> string -> M Mech)
    (fuel : nat) (n : nat) (m : Mech) (location_id : string) : M Mech :=
  match n with
  | O => ret m
  | S n' =>
      let* loc := get_loc m location_id in
      match available_slots loc with
      | [] => ret m
      | _ :: _ =>
          let* slot_idx := pick_slot fuel (crittable_slots loc) in
          let* hit_item := slot_at (crittable_slots loc) slot_idx in
          let loc' :=
            set_crittable_slots
              (<[Z.to_nat slot_idx := "DESTROYED"]> (crittable_slots loc))
              loc in
          let m := put_loc location_id loc' m in
          let m := crit_weapon location_id hit_item loc' m in
          let* m :=
            if String.prefix "Ammo" hit_item
            then explode m location_id hit_item
            else ret m in
          crit_loop explode fuel n' m location_id
      end
  end.

Definition apply_crits_body (explode : Mech -> string -> string -> M Mech)
    (fuel : nat) (m : Mech) (location_id : string) (num_crits : Z)
  : M Mech :=
  let* loc := get_loc m location_id in
  match available_slots loc with
  | [] => ret m
  | _ :: _ => crit_loop explode fuel (Z.to_nat num_crits) m location_id
  end.

(** [Mech.apply_damage].  Fuel bounds the depth of the recursion (transfer
    and explosion) and the redraws of each critical hit. *)
Fixpoint apply_damage (fuel : nat) (m : Mech) (location_id : string)
    (dmg : Z) (is_rear : bool) : M Mech :=
  match fuel with
  | O => out_of_fuel
  | S fuel' =>
      let* loc := get_loc m location_id in
      if destroyed loc then
        match transfer_to loc with
        | Some transfer => apply_damage fuel' m transfer dmg false
        | None => ret m
        end
      else
        let '(loc, dmg) := absorb_armor location_id is_rear loc dmg in
        let m := put_loc location_id loc m in
        if dmg <=? 0 then ret m
        else
          let structure_absorbed := Z.min (current_structure loc) dmg in
          let loc :=
            set_current_structure
              (current_structure loc - structure_absorbed) loc in
          let dmg := dmg - structure_absorbed in
          let m := put_loc location_id loc m in
          let* m :=
            if (0 <? structure_absorbed) && (0 <? current_structure loc)
            then
              let* num_crits := roll_critical_hits rnd in
              if 0 <? num_crits
              then apply_crits_body
                     (ammo_explosion_body (apply_damage fuel'))
                     fuel' m location_id num_crits
              else ret m
            else ret m in
          let* loc := get_loc m location_id in
          if current_structure loc <=? 0 then
            let m := mark_destroyed location_id loc m in
            if is_dead m then ret (set_active false m)
            else if 0 <? dmg then
              match transfer_to loc with
              | Some transfer => apply_damage fuel' m transfer dmg false
              | None => ret m
              end
            else ret m
          else ret m
  end.

Definition _ammo_explosion (fuel : nat) (m : Mech)
    (location_id ammo_slot : string) : M Mech :=
  ammo_explosion_body (apply_damage fuel) m location_id ammo_slot.

Definition _apply_crits (fuel : nat) (m : Mech) (location_id : string)
    (num_crits : Z) : M Mech :=
  apply_crits_body (_ammo_explosion fuel) fuel m location_id num_crits.

End Pipeline.

(** ** heat.py *)

Definition movement_heat (m : Mech) : Z :=
  if String.eqb (movement_mode m) "walk" then 1
  else if String.eqb (movement_mode m) "run" then 2
  else if String.eqb (movement_mode m) "jump" then Z.max (jump_mp m) 3
  else 0.

Definition calculate_heat_generated (m : Mech)
    (weapons_fired : list MountedWeapon) : Z :=
  fold_left
    (fun acc mw =>
       if negb (mw_destroyed mw) then
         let acc := acc + heat (weapon mw) in
         if is_ultra (weapon mw) then acc + heat (weapon mw) else acc
       else acc)
    weapons_fired (movement_heat m).

Definition calculate_heat_dissipation (m : Mech) : Z :=
  let per_sink := if double_heat_sinks m then 2 else 1 in
  heat_sinks m * per_sink.

Section HeatPhase.

Variable rnd : nat -> nat.

(** [random.choice(seq)] on a non-empty list: one draw. *)
Definition random_choice {A} (l : list A) (d : A) : M A :=
  fun p => Ret (nth (rnd p mod length l)%nat l d, S p).

(** The shutdown checks of [apply_heat_phase] below heat 30: which roll is
    made, and whether the branch that deactivates the mech is taken. *)
Definition shutdown_check (h : Z) : M bool :=
  if 25 <=? h then
    let* roll := roll_2d6 rnd in ret (4 <=? roll)
  else if 19 <=? h then
    let* roll := roll_2d6 rnd in ret (6 <=? roll)
  else if 14 <=? h then
    let* roll := roll_2d6 rnd in ret (8 <=? roll)
  else ret false.

(** The ammo check of [apply_heat_phase] at heat 18 and above. *)
Definition ammo_check (fuel : nat) (mech : Mech) : M Mech :=
  if 18 <=? current_heat mech then
    if existsb has_ammo_left (weapons mech) then
      let* roll := roll_2d6 rnd in
      if 4 <=? roll then
        match List.filter has_ammo_left (weapons mech) with
        | [] => ret mech
        | w :: ws =>
            let* victim := random_choice (w :: ws) w in
            _ammo_explosion rnd fuel mech (location victim)
              ("Ammo " +:+ wname (weapon victim))
        end
      else ret mech
    else ret mech
  else ret mech.

Definition apply_heat_phase (fuel : nat) (mech : Mech)
    (weapons_fired : list MountedWeapon) : M Mech :=
  let generated := calculate_heat_generated mech weapons_fired in
  let dissipated := calculate_heat_dissipation mech in
  let mech :=
    set_current_heat
      (Z.max 0 (current_heat mech + generated - dissipated)) mech in
  if 30 <=? current_heat mech then ret (set_active false mech)
  else
    let* shutdown := shutdown_check (current_heat mech) in
    if shutdown then ret (set_active false mech)
    else ammo_check fuel mech.

End HeatPhase.

(** ** simulator.py *)

(** A call with [args] positional arguments of a function whose definition
    takes at most [params]: Python raises [TypeError] before the body runs
    when there are too many. *)
Definition call_positional {A} (params args : nat) (body : M A) : M A :=
  if (args <=? params)%nat then body else raise TypeError.

(** The three tests that select a weapon in [select_weapons_to_fire] and
    [heat_neutral_dpr]: not destroyed, ammo left when it uses ammo, and in
    range. *)
Definition can_fire (distance : Z) (mw : MountedWeapon) : bool :=
  negb (mw_destroyed mw)
  && negb (match ammo_remaining mw with
           | Some a => a <=? 0
           | None => false
           end)
  && match get_range_modifier mw distance with
     | Some _ => true
     | None => false
     end.

(** [mw.weapon.damage * (mw.weapon.cluster_size or 1)]. *)
Definition shot_damage (w : Weapon) : Z :=
  damage w * (if cluster_size w =? 0 then 1 else cluster_size w).

(** In the weapon selection and the range search floating-point values are
    modelled by the rationals they are computed from.  [float(n)] is exact
    and Python's [/] on integers is correctly rounded, so the comparisons
    made there agree with the rational ones for integers far below 2^26, as
    the damage and heat of weapons are.  The hit-point fractions of [fight]
    and the default running speed of [load_mech], whose operands have no
    such bound, are computed in binary64 (see below). *)
Definition Qgtb (x y : Q) : bool := negb (Qle_bool x y).

Definition weapon_efficiency (w : Weapon) : Q :=
  (inject_Z (shot_damage w) / Qmax (inject_Z (heat w)) (1 # 2))%Q.

(** [available.sort(key=weapon_efficiency, reverse=True)] on references
    (indices into [mech.weapons]): stable, descending. *)
Fixpoint insert_desc (key : nat -> Q) (i : nat) (l : list nat) : list nat :=
  match l with
  | [] => [i]
  | j :: l' =>
      if Qgtb (key j) (key i) then j :: insert_desc key i l'
      else i :: j :: l'
  end.

Definition sort_desc (key : nat -> Q) (l : list nat) : list nat :=
  fold_right (insert_desc key) [] l.

Definition weapon_at (m : Mech) (i : nat) : option MountedWeapon :=
  weapons m !! i.

(** The weapons a list of references points to, read now. *)
Definition deref (m : Mech) (refs : list nat) : list MountedWeapon :=
  omap (weapon_at m) refs.

Definition available_refs (m : Mech) (distance : Z) : list nat :=
  List.filter
    (fun i => match weapon_at m i with
              | Some mw => can_fire distance mw
              | None => false
              end)
    (seq 0 (length (weapons m))).

(** The greedy loop of [select_weapons_to_fire]. *)
Fixpoint greedy_select (m : Mech) (movement_heat dissipation : Z)
    (available : list nat) (selected : list nat)
    (cumulative_weapon_heat : Z) : list nat :=
  match available with
  | [] => selected
  | i :: rest =>
      let h := match weapon_at m i with
               | Some mw => heat (weapon mw)
               | None => 0
               end in
      let projected :=
        current_heat m + movement_heat + cumulative_weapon_heat + h
        - dissipation in
      if (projected <=? 5) || (match selected with [] => true | _ => false end)
      then greedy_select m movement_heat dissipation rest
             (selected ++ [i]) (cumulative_weapon_heat + h)
      else greedy_select m movement_heat dissipation rest selected
             cumulative_weapon_heat
  end.

(** [select_weapons_to_fire(mech, distance, heat_factor)].  The source calls
    [calculate_heat_dissipation(mech, heat_factor)], two arguments for the
    one parameter of the function in heat.py.  [heat_factor] occurs in
    simulator.py only as that extra argument and is not a parameter here. *)
Definition select_weapons_to_fire (m : Mech) (distance : Z)
  : M (list nat) :=
  match available_refs m distance with
  | [] => ret []
  | i :: rest =>
      let key j := match weapon_at m j with
                   | Some mw => weapon_efficiency (weapon mw)
                   | None => 0%Q
                   end in
      let available := sort_desc key (i :: rest) in
      let* dissipation :=
        call_positional 1 2 (ret (calculate_heat_dissipation m)) in
      ret (greedy_select m (movement_heat m) dissipation available [] 0)
  end.

Definition choose_movement (m : Mech) : string * Z :=
  let mp_penalty := get_heat_mp_penalty (current_heat m) in
  let effective_walk := Z.max 0 (walk_mp m - mp_penalty) in
  if effective_walk <=? 0 then ("stand", 0) else ("walk", effective_walk).

(** [heat_neutral_dpr]: the sums run over the weapons that can fire. *)
Definition heat_neutral_dpr (m : Mech) (distance : Z) : M Q :=
  let firing := List.filter (can_fire distance) (weapons m) in
  let total_dmg :=
    fold_left (fun acc mw => acc + shot_damage (weapon mw)) firing 0 in
  let total_heat :=
    fold_left (fun acc mw => acc + heat (weapon mw)) firing 0 in
  if total_heat <=? 0 then ret (inject_Z total_dmg)
  else
    let* dissipation :=
      call_positional 1 2 (ret (calculate_heat_dissipation m)) in
    ret (inject_Z total_dmg
         * Qmin 1 (inject_Z dissipation / inject_Z total_heat))%Q.

Definition optimal_movement (mech_a mech_b : Mech) (current_distance : Z)
  : M (string * Z * string * Z * Z) :=
  let* dpr_a := heat_neutral_dpr mech_a current_distance in
  let* dpr_b := heat_neutral_dpr mech_b current_distance in
  let mp_pen_a := get_heat_mp_penalty (current_heat mech_a) in
  let mp_pen_b := get_heat_mp_penalty (current_heat mech_b) in
  let walk_a := Z.max 0 (walk_mp mech_a - mp_pen_a) in
  let run_a := Z.max 0 (run_mp mech_a - mp_pen_a) in
  let walk_b := Z.max 0 (walk_mp mech_b - mp_pen_b) in
  let run_b := Z.max 0 (run_mp mech_b - mp_pen_b) in
  let '(a_mode, a_hexes, b_mode, b_hexes, net_closure) :=
    if Qgtb dpr_a dpr_b then ("walk", walk_a, "run", run_b, run_b - walk_a)
    else if Qgtb dpr_b dpr_a then
      ("run", run_a, "walk", walk_b, run_a - walk_b)
    else ("walk", walk_a, "walk", walk_b, walk_a + walk_b) in
  let new_distance := Z.max 1 (current_distance - net_closure) in
  ret (a_mode, a_hexes, b_mode, b_hexes, new_distance).

Inductive side : Type := SideA | SideB.

Record FightResult : Type := mkFightResult {
  winner : option side;
  winner_name : option string;
  rounds : Z;
  mech_a_remaining_hp : Z;
  mech_b_remaining_hp : Z;
  mech_a_damage_dealt : Z;
  mech_b_damage_dealt : Z
}.

(** *** Python floats *)

(** A Python [float] is an IEEE 754 binary64 number and the operations used
    here are the correctly rounded ones (to nearest, ties to even): those of
    [SpecFloat] at precision 53 with exponents below 1024. *)
Definition float_prec : Z := 53.
Definition float_emax : Z := 1024.

Definition is_infinite (x : spec_float) : bool :=
  match x with
  | S754_infinity _ => true
  | _ => false
  end.

(** An integer as the operand of a division, before any rounding. *)
Definition exact_int (z : Z) : spec_float :=
  match z with
  | 0 => S754_zero false
  | Zpos m => S754_finite false m 0
  | Zneg m => S754_finite true m 0
  end.

(** The integer [z] converted for a float operation: the nearest float,
    and [OverflowError] when [z] is too large to have one. *)
Definition float_of_int (z : Z) : result spec_float :=
  let x := binary_normalize float_prec float_emax z 0 false in
  if is_infinite x then Raise OverflowError else Ret x.

(** [int(x)]: truncation toward zero. *)
Definition int_of_float (x : spec_float) : result Z :=
  match x with
  | S754_zero _ => Ret 0
  | S754_infinity _ => Raise OverflowError
  | S754_nan => Raise ValueError
  | S754_finite s m e =>
      let a := if 0 <=? e then Z.pos m * 2 ^ e else Z.pos m / 2 ^ (- e) in
      Ret (if s then - a else a)
  end.

(** The literals [1.5] and [0.5]. *)
Definition float_1_5 : spec_float :=
  Eval cbv in binary_normalize float_prec float_emax 3 (-1) false.
Definition float_0_5 : spec_float :=
  Eval cbv in binary_normalize float_prec float_emax 1 (-1) false.

(** [x > y] on floats. *)
Definition float_gt (x y : spec_float) : bool := SFltb y x.

(** [hp / start if start else 0]: the quotient of two integers rounded to
    the nearest float.  The value is infinite exactly where Python's
    division raises [OverflowError] (see [fraction_check]). *)
Definition hp_fraction (hp start : Z) : spec_float :=
  if start =? 0 then S754_zero false
  else SFdiv float_prec float_emax (exact_int hp) (exact_int start).

(** The two divisions of the last branch of the winner determination, in
    the order of the source.  They are made only when both mechs are still
    active, and each raises [OverflowError] when its quotient is beyond the
    range of a float. *)
Definition fraction_check (mech_a mech_b : Mech) (a_hp_start b_hp_start : Z)
  : M unit :=
  if active mech_a && active mech_b then
    if is_infinite (hp_fraction (total_hp mech_a) a_hp_start)
    then raise OverflowError
    else if is_infinite (hp_fraction (total_hp mech_b) b_hp_start)
    then raise OverflowError
    else ret tt
  else ret tt.

(** The winner determination at the end of [fight], once the fractions are
    known to be in range. *)
Definition determine_winner (mech_a mech_b : Mech) (a_hp_start b_hp_start : Z)
  : option side :=
  let a_alive := active mech_a in
  let b_alive := active mech_b in
  if a_alive && negb b_alive then Some SideA
  else if b_alive && negb a_alive then Some SideB
  else if negb a_alive && negb b_alive then None
  else
    let a_pct := hp_fraction (total_hp mech_a) a_hp_start in
    let b_pct := hp_fraction (total_hp mech_b) b_hp_start in
    if float_gt a_pct b_pct then Some SideA
    else if float_gt b_pct a_pct then Some SideB
    else None.

Record FightState : Type := mkFightState {
  fs_a : Mech;
  fs_b : Mech;
  fs_distance : Z;
  fs_last_round : Z;
  fs_a_damage : Z;
  fs_b_damage : Z
}.

Section Fight.

Variable rnd : nat -> nat.

(** [combat.resolve_attack attacker weapon target distance]: the weapon is a
    reference into the attacker's list; the result is the attacker (its
    weapon's ammo and jam flag may change), the target and the damage dealt.
    The fight loop below is stated for any resolution of a single attack. *)
Variable resolve_attack : Mech -> nat -> Mech -> Z -> M (Mech * Mech * Z).

(** [resolve_all_attacks] with an explicit [weapons_to_fire], as [fight]
    calls it; returns both mechs and the [damage_dealt] of each result. *)
Fixpoint resolve_all_attacks (attacker target : Mech) (distance : Z)
    (weapons_to_fire : list nat) : M (Mech * Mech * list Z) :=
  match weapons_to_fire with
  | [] => ret (attacker, target, [])
  | mw :: rest =>
      if negb (active target) then ret (attacker, target, [])
      else
        let* r := resolve_attack attacker mw target distance in
        let '(attacker, target, dealt) := r in
        let* rs := resolve_all_attacks attacker target distance rest in
        let '(attacker, target, ds) := rs in
        ret (attacker, target, dealt :: ds)
  end.

(** The movement phase of a round: the modes and hexes of both sides, and
    the new distance when the policy is "optimal". *)
Definition movement_phase (movement_ai : string) (st : FightState)
  : M (string * Z * string * Z * option Z) :=
  if String.eqb movement_ai "optimal" then
    let* r := optimal_movement (fs_a st) (fs_b st) (fs_distance st) in
    let '(a_mode, a_hexes, b_mode, b_hexes, new_dist) := r in
    ret (a_mode, a_hexes, b_mode, b_hexes, Some new_dist)
  else
    let '(a_mode, a_hexes) := choose_movement (fs_a st) in
    let '(b_mode, b_hexes) := choose_movement (fs_b st) in
    ret (a_mode, a_hexes, b_mode, b_hexes, None).

(** The rest of the round once the movement is chosen: the movement is
    recorded on both mechs, then weapon selection, attacks, heat and
    closing.  [apply_heat_phase(mech, weapons, debug, heat_factor)] passes
    four arguments for the three parameters of the function in heat.py. *)
Definition play_round (fuel : nat) (movement_ai : string) (closing_rate : Z)
    (round_num : Z) (st : FightState)
    (mv : string * Z * string * Z * option Z) : M FightState :=
  let '(a_mode, a_hexes, b_mode, b_hexes, new_dist) := mv in
  let mech_a := set_movement a_mode a_hexes (fs_a st) in
  let mech_b := set_movement b_mode b_hexes (fs_b st) in
  let current_distance :=
    match new_dist with
    | Some d => d
    | None => fs_distance st
    end in
  (* Weapon selection phase *)
  let* a_weapons := select_weapons_to_fire mech_a current_distance in
  let* b_weapons := select_weapons_to_fire mech_b current_distance in
  (* Attack phase *)
  let* ra := resolve_all_attacks mech_a mech_b current_distance a_weapons in
  let '(mech_a, mech_b, a_results) := ra in
  let* rb := resolve_all_attacks mech_b mech_a current_distance b_weapons in
  let '(mech_b, mech_a, b_results) := rb in
  let mech_a_damage := fold_left Z.add a_results (fs_a_damage st) in
  let mech_b_damage := fold_left Z.add b_results (fs_b_damage st) in
  (* Heat phase *)
  let* mech_a :=
    if active mech_a then
      call_positional 3 4
        (apply_heat_phase rnd fuel mech_a (deref mech_a a_weapons))
    else ret mech_a in
  let* mech_b :=
    if active mech_b then
      call_positional 3 4
        (apply_heat_phase rnd fuel mech_b (deref mech_b b_weapons))
    else ret mech_b in
  (* Close distance *)
  let current_distance :=
    if negb (String.eqb movement_ai "optimal") && (0 <? closing_rate)
    then Z.max 1 (current_distance - closing_rate)
    else current_distance in
  ret (mkFightState mech_a mech_b current_distance round_num
         mech_a_damage mech_b_damage).

(** One iteration of the round loop of [fight], after its [break] test. *)
Definition fight_round (fuel : nat) (movement_ai : string) (closing_rate : Z)
    (round_num : Z) (st : FightState) : M FightState :=
  let* mv := movement_phase movement_ai st in
  play_round fuel movement_ai closing_rate round_num st mv.

(** [for round_num in range(1, max_rounds + 1)], over the remaining round
    numbers. *)
Fixpoint fight_rounds (fuel : nat) (movement_ai : string) (closing_rate : Z)
    (round_nums : list Z) (st : FightState) : M FightState :=
  match round_nums with
  | [] => ret st
  | round_num :: rest =>
      if negb (active (fs_a st)) || negb (active (fs_b st)) then ret st
      else
        let* st := fight_round fuel movement_ai closing_rate round_num st in
        fight_rounds fuel movement_ai closing_rate rest st
  end.

(** [range(1, max_rounds + 1)]. *)
Definition round_range (max_rounds : Z) : list Z :=
  map (fun k => Z.of_nat k) (seq 1 (Z.to_nat max_rounds)).

Definition fight (fuel : nat) (mech_a mech_b : Mech) (distance max_rounds : Z)
    (closing_rate : Z) (movement_ai : string) : M FightResult :=
  let a_hp_start := max_total_hp mech_a in
  let b_hp_start := max_total_hp mech_b in
  let* st :=
    fight_rounds fuel movement_ai closing_rate (round_range max_rounds)
      (mkFightState mech_a mech_b distance 0 0 0) in
  let mech_a := fs_a st in
  let mech_b := fs_b st in
  let* _ := fraction_check mech_a mech_b a_hp_start b_hp_start in
  let winner_side := determine_winner mech_a mech_b a_hp_start b_hp_start in
  let winner_name :=
    match winner_side with
    | Some SideA => Some (mech_name mech_a)
    | Some SideB => Some (mech_name mech_b)
    | None => None
    end in
  ret (mkFightResult winner_side winner_name (fs_last_round st)
         (total_hp mech_a) (total_hp mech_b)
         (fs_a_damage st) (fs_b_damage st)).

End Fight.

(** ** Concrete mechs used in the examples *)

Definition mk_loc (n : string) (armor rear structure : Z)
    (slots : list string) (case : bool) : Location :=
  mkLocation n armor armor rear rear structure structure false slots case.

(** A biped with all eight locations; [lt] and [la] are the left torso and
    the left arm, the rest is fixed. *)
Definition body (lt la : Location) : gmap string Location :=
  list_to_map
    [ ("HD", mk_loc "HD" 9 0 3 [] false);
      ("CT", mk_loc "CT" 10 5 16 ["Engine"] false);
      ("LT", lt);
      ("RT", mk_loc "RT" 8 4 12 [] false);
      ("LA", la);
      ("RA", mk_loc "RA" 6 0 8 [] false);
      ("LL", mk_loc "LL" 8 0 12 [] false);
      ("RL", mk_loc "RL" 8 0 12 [] false) ].

Definition mk_mech (n : string) (walk run : Z) (locs : gmap string Location)
    (ws : list MountedWeapon) (sinks : Z) (engine : string) (heat0 : Z)
  : Mech :=
  mkMech n 50 walk run 0 4 5 locs ws sinks false engine heat0 true "stand" 0.

Definition plain_body : gmap string Location :=
  body (mk_loc "LT" 8 4 12 [] false) (mk_loc "LA" 6 0 8 [] false).

(** A fast mech with two machine guns, which produce no heat. *)
Definition skirmisher : Mech :=
  mk_mech "Skirmisher" 8 12 plain_body
    [MountedWeapon_init MACHINE_GUN "RA" None;
     MountedWeapon_init MACHINE_GUN "LA" None] 10 "standard" 0.

(** A slow mech with one machine gun. *)
Definition plodder : Mech :=
  mk_mech "Plodder" 2 3 plain_body
    [MountedWeapon_init MACHINE_GUN "RA" None] 10 "standard" 0.

(** Two laser mechs for a plain duel. *)
Definition duelist : Mech :=
  mk_mech "Duelist" 4 6 plain_body
    [MountedWeapon_init MEDIUM_LASER "RA" None] 10 "standard" 0.

(** An XL-engine mech whose left torso is down to one point of structure
    and whose left arm is about to fall off. *)
Definition xl_mech : Mech :=
  mk_mech "XL" 4 6
    (body (mk_loc "LT" 0 0 1 [] false) (mk_loc "LA" 0 0 1 [] false))
    [] 10 "xl" 0.

(** The same body with a standard engine: a forced destruction chain
    LA -> LT -> CT. *)
Definition chain_mech : Mech :=
  mk_mech "Chain" 4 6
    (body (mk_loc "LT" 2 0 1 [] false) (mk_loc "LA" 0 0 1 [] false))
    [] 10 "standard" 0.

(** An unarmed mech that enters the heat phase at heat 25 with no sinks. *)
Definition hot_mech : Mech :=
  mk_mech "Hot" 4 6 plain_body [] 0 "standard" 25.

(** An XL mech at heat 18 carrying AC/20 ammo in a left torso with CASE. *)
Definition case_mech : Mech :=
  mk_mech "Case" 4 6
    (body (mk_loc "LT" 8 4 12 ["AC/20"; "Ammo AC/20"] true)
          (mk_loc "LA" 6 0 8 [] false))
    [MountedWeapon_init AC20 "LT" None] 0 "xl" 18.

(** The same mech with a second AC/20 in the left torso; the two guns are
    told apart by their rounds. *)
Definition twin_gun_mech : Mech :=
  mk_mech "Twin" 4 6
    (body (mk_loc "LT" 8 4 12 ["AC/20"; "AC/20"; "Ammo AC/20"] true)
          (mk_loc "LA" 6 0 8 [] false))
    [MountedWeapon_init AC20 "LT" (Some 5);
     MountedWeapon_init AC20 "LT" (Some 3)] 0 "xl" 18.

(** A location with one destroyed and one intact slot. *)
Definition worn_mech : Mech :=
  mk_mech "Worn" 4 6
    (body (mk_loc "LT" 0 0 12 ["DESTROYED"; "Engine"] false)
          (mk_loc "LA" 6 0 8 [] false))
    [] 10 "standard" 0.

(** Oracles: every raw draw is 0 (each die shows 1), or 2 (each die shows
    3), or the draws count up. *)
Definition rnd_zero : nat -> nat := fun _ => 0%nat.
Definition rnd_two : nat -> nat := fun _ => 2%nat.
Definition rnd_count : nat -> nat := fun k => k.

(** An oracle that sweeps longer and longer runs, each from 0 again:
    0, 0 1 2, 0 1 2 3 4, ...  (draw [k] is [k] less the largest square not
    above it).  It repeats draws and gives the same draw twice in a row. *)
Definition rnd_sweep : nat -> nat := fun k => (k - Nat.sqrt k * Nat.sqrt k)%nat.

(** An oracle that replays a given list of draws and then goes on as
    [rnd] does. *)
Definition replay (draws : list nat) (rnd : nat -> nat) : nat -> nat :=
  fun k => match draws !! k with
           | Some d => d
           | None => rnd (k - length draws)%nat
           end.

(** An attack resolution that does nothing, for closed examples. *)
Definition no_attack : Mech -> nat -> Mech -> Z -> M (Mech * Mech * Z) :=
  fun attacker _ target _ => ret (attacker, target, 0).

(** ** Vocabulary of the statements *)

(** With range bands in increasing order, "beyond long range" needs no
    further condition, and every weapon of [WEAPON_DB] has them so. *)
Definition bands_ordered (w : Weapon) : Prop :=
  min_range w <= short_range w /\ short_range w <= medium_range w
  /\ medium_range w <= long_range w.


(** One die: [random.randint(1, 6)] at cursor [p]; and the sum of the two
    dice [roll_2d6] throws from cursor [p]. *)
Definition die (rnd : nat -> nat) (p : nat) : Z :=
  1 + Z.of_nat (rnd p) mod 6.

Definition two_dice (rnd : nat -> nat) (p : nat) : Z :=
  die rnd p + die rnd (S p).

(** The mech as the heat phase sees it once the current heat is updated. *)
Definition heated (mech : Mech) (weapons_fired : list MountedWeapon) : Mech :=
  set_current_heat
    (Z.max 0 (current_heat mech + calculate_heat_generated mech weapons_fired
              - calculate_heat_dissipation mech))
    mech.

(** The weapons that still carry ammo. *)
Definition ammo_weapons (m : Mech) : list MountedWeapon :=
  List.filter has_ammo_left (weapons m).

(** Walking and running hexes after the heat penalty, as [optimal_movement]
    computes them. *)
Definition effective_walk (m : Mech) : Z :=
  Z.max 0 (walk_mp m - get_heat_mp_penalty (current_heat m)).

Definition effective_run (m : Mech) : Z :=
  Z.max 0 (run_mp m - get_heat_mp_penalty (current_heat m)).

(** The armor pool a hit draws on: the rear pool for a rear hit on a
    location that has one, the front pool otherwise. *)
Definition armor_pool (location_id : string) (is_rear : bool)
    (loc : Location) : Z :=
  if is_rear && REAR_ARMOR_LOCATIONS location_id
  then rear_current_armor loc else current_armor loc.

(** The damage that gets past the armor of a location. *)
Definition past_armor (location_id : string) (is_rear : bool)
    (loc : Location) (dmg : Z) : Z :=
  snd (absorb_armor location_id is_rear loc dmg).

(** The mech once a hit has gone through the armor of [loc] and taken all
    of its structure: the location is flagged destroyed with the weapons
    mounted there. *)
Definition wrecked (location_id : string) (is_rear : bool) (loc : Location)
    (dmg : Z) (m : Mech) : Mech :=
  mark_destroyed location_id
    (set_current_structure 0 (fst (absorb_armor location_id is_rear loc dmg)))
    m.

(** The number of slots of a location that are not yet destroyed, and their
    total over the mech. *)
Definition count_live (slots : list string) : nat :=
  length (List.filter (fun s => negb (is_DESTROYED s)) slots).

Definition live_slots (l : Location) : nat := count_live (crittable_slots l).

Definition live_total (m : Mech) : nat :=
  map_fold (fun _ l acc => (live_slots l + acc)%nat) 0%nat (locations m).

(** Damage only wears a mech down.  A location keeps its name, its CASE and
    the number of its slots; a destroyed flag stays set; no slot comes back
    to life.  A weapon keeps its type and mounting, and stays destroyed. *)
Definition loc_wear (l l' : Location) : Prop :=
  loc_name l' = loc_name l /\ has_case l' = has_case l
  /\ (destroyed l = true -> destroyed l' = true)
  /\ length (crittable_slots l') = length (crittable_slots l)
  /\ (live_slots l' <= live_slots l)%nat.

Definition mw_wear (w w' : MountedWeapon) : Prop :=
  weapon w' = weapon w /\ location w' = location w
  /\ (mw_destroyed w = true -> mw_destroyed w' = true).

Record wear (m m' : Mech) : Prop := mkWear {
  wear_locs : forall k l, locations m !! k = Some l ->
              exists l', locations m' !! k = Some l' /\ loc_wear l l';
  wear_dom : forall k, locations m !! k = None -> locations m' !! k = None;
  wear_weapons : Forall2 mw_wear (weapons m) (weapons m');
  wear_engine : engine_type m' = engine_type m;
  wear_live : (live_total m' <= live_total m)%nat
}.

(** A fair oracle: from any cursor on, the draws reduced into [0..n-1]
    eventually give every index.  Nothing is said about how long that takes.
    [rnd_count] and [rnd_sweep] are fair; [rnd_zero] is not. *)
Definition fair (rnd : nat -> nat) : Prop :=
  forall p n i, (i < n)%nat -> exists k, (rnd (p + k) mod n)%nat = i.

(** Well-formed location tables, as [load_mech] builds them: each location
    is stored under its own name, and transfer targets are present. *)
Definition names_ok (m : Mech) : Prop :=
  forall k l, locations m !! k = Some l -> loc_name l = k.

Definition transfer_closed (m : Mech) : Prop :=
  forall k l t, locations m !! k = Some l -> transfer_to l = Some t ->
    is_Some (locations m !! t).

Definition slots_bounded (bound : nat) (m : Mech) : Prop :=
  forall k l, locations m !! k = Some l ->
    (length (crittable_slots l) <= bound)%nat.

Definition sound (bound : nat) (m : Mech) : Prop :=
  names_ok m /\ transfer_closed m /\ slots_bounded bound m.

(** The number of hops from a location to the end of its transfer chain. *)
Definition rank (id : string) : nat :=
  match TRANSFER_MAP id with
  | None => 0
  | Some t => match TRANSFER_MAP t with
              | None => 1
              | Some _ => 2
              end
  end.

(** The live slots of the location stored under [id]. *)
Definition live_in (m : Mech) (id : string) : nat :=
  match locations m !! id with
  | Some l => live_slots l
  | None => 0
  end.

(** A slot index that names a slot not yet destroyed. *)
Definition live_at (slots : list string) (idx : Z) : Prop :=
  0 <= idx /\ exists s, slots !! Z.to_nat idx = Some s
                        /\ is_DESTROYED s = false.

(** A fuelled computation settles on [r] at cursor [p]: from some amount of
    fuel on it returns [r], whatever more fuel it is given.  This is "the
    Python call returns [r]": fuel is no part of the source. *)
Definition settles {A} (c : nat -> M A) (p : nat) (r : A * nat) : Prop :=
  exists F, forall fuel, (F <= fuel)%nat -> c fuel p = Ret r.

(** The measure that decreases along the calls of [apply_damage]: a
    transfer lowers the rank of the location, and an explosion follows the
    loss of a live slot. *)
Definition call_measure (m : Mech) (id : string) : nat :=
  (3 * live_total m + rank id)%nat.

(** A checker for [sound], to run on concrete mechs. *)
Definition sound_check (bound : nat) (m : Mech) : bool :=
  forallb
    (fun kl : string * Location =>
       String.eqb (loc_name (snd kl)) (fst kl)
       && match transfer_to (snd kl) with
          | Some t => match locations m !! t with
                      | Some _ => true
                      | None => false
                      end
          | None => true
          end
       && (length (crittable_slots (snd kl)) <=? bound)%nat)
    (map_to_list (locations m)).

(** ** Vocabulary of the further properties *)

(** A pool of points that, when it starts non-negative, can only go down
    and never below zero. *)
Definition drained (x x' : Z) : Prop := 0 <= x -> 0 <= x' <= x.

(** What damage may do to the numbers of a location: capacities stay, the
    three pools are drained. *)
Definition loc_spent (l l' : Location) : Prop :=
  max_armor l' = max_armor l /\ rear_max_armor l' = rear_max_armor l
  /\ max_structure l' = max_structure l
  /\ drained (current_armor l) (current_armor l')
  /\ drained (rear_current_armor l) (rear_current_armor l')
  /\ drained (current_structure l) (current_structure l').

(** Ammo is only ever used up; a weapon without ammo count keeps none. *)
Definition mw_spent (w w' : MountedWeapon) : Prop :=
  match ammo_remaining w, ammo_remaining w' with
  | None, None => True
  | Some a, Some a' => drained a a'
  | _, _ => False
  end.

(** The fields of a mech that damage never touches. *)
Definition same_chassis (m m' : Mech) : Prop :=
  mech_name m' = mech_name m /\ tonnage m' = tonnage m
  /\ walk_mp m' = walk_mp m /\ run_mp m' = run_mp m /\ jump_mp m' = jump_mp m
  /\ gunnery m' = gunnery m /\ piloting m' = piloting m
  /\ heat_sinks m' = heat_sinks m
  /\ double_heat_sinks m' = double_heat_sinks m
  /\ engine_type m' = engine_type m /\ current_heat m' = current_heat m
  /\ movement_mode m' = movement_mode m /\ hexes_moved m' = hexes_moved m.

Record steady (m m' : Mech) : Prop := mkSteady {
  steady_locs : forall k l, locations m !! k = Some l ->
                exists l', locations m' !! k = Some l' /\ loc_spent l l';
  steady_dom : forall k, locations m !! k = None -> locations m' !! k = None;
  steady_weapons : Forall2 mw_spent (weapons m) (weapons m');
  steady_chassis : same_chassis m m';
  steady_active : active m' = true -> active m = true
}.

(** Every pool of every location lies between zero and its capacity. *)
Definition loc_bounded (l : Location) : Prop :=
  0 <= current_armor l <= max_armor l
  /\ 0 <= rear_current_armor l <= rear_max_armor l
  /\ 0 <= current_structure l <= max_structure l.

Definition bounded (m : Mech) : Prop :=
  forall k l, locations m !! k = Some l -> loc_bounded l.

(** The mech a computation returned, for concrete examples. *)
Definition result_mech (r : result (Mech * nat)) (otherwise : Mech) : Mech :=
  match r with
  | Ret (m, _) => m
  | _ => otherwise
  end.

(** [chain_mech] after a 10-point hit on its left arm. *)
Definition chain_after : Mech :=
  result_mech (apply_damage rnd_zero 3 chain_mech "LA" 10 false 0%nat)
    chain_mech.

(** A checker for [bounded], to run on concrete mechs. *)
Definition bounded_check (m : Mech) : bool :=
  forallb
    (fun kl : string * Location =>
       let l := snd kl in
       (0 <=? current_armor l) && (current_armor l <=? max_armor l)
       && (0 <=? rear_current_armor l)
       && (rear_current_armor l <=? rear_max_armor l)
       && (0 <=? current_structure l)
       && (current_structure l <=? max_structure l))
    (map_to_list (locations m)).

(** [case_mech] after the heat phase of [ammo_roll_counterexample]. *)
Definition case_after : Mech :=
  result_mech (apply_heat_phase rnd_two 0 case_mech [] 0%nat) case_mech.

(** [duelist] without its center torso. *)
Definition torso_less : Mech :=
  set_locations (delete "CT" (locations duelist)) duelist.

(** ** tables.py: the remaining tables *)

(** [TARGET_MOVEMENT_MODIFIERS]: rows (min_hexes, max_hexes, modifier). *)
Definition TARGET_MOVEMENT_MODIFIERS : list (Z * Z * Z) :=
  [ (0, 2, 0); (3, 4, 1); (5, 6, 2); (7, 9, 3); (10, 17, 4); (18, 24, 5);
    (25, 99, 6) ].

(** The [for] loop of [get_target_movement_modifier], with its fall-through
    value 6. *)
Fixpoint scan_movement_rows (rows : list (Z * Z * Z)) (hexes_moved : Z) : Z :=
  match rows with
  | [] => 6
  | (min_h, max_h, modifier) :: rest =>
      if (min_h <=? hexes_moved) && (hexes_moved <=? max_h) then modifier
      else scan_movement_rows rest hexes_moved
  end.

Definition get_target_movement_modifier (hexes_moved : Z) : Z :=
  scan_movement_rows TARGET_MOVEMENT_MODIFIERS hexes_moved.

(** A dictionary keyed by the rolls 2..12, given by its values in key
    order; any other key is missing. *)
Definition by_roll {A} (values : list A) (roll : Z) : option A :=
  if (2 <=? roll) && (roll <=? 12) then values !! Z.to_nat (roll - 2)
  else None.

Definition FRONT_HIT_TABLE : Z -> option string :=
  by_roll ["CT"; "RA"; "RA"; "RL"; "RT"; "CT"; "LT"; "LL"; "LA"; "LA"; "HD"].

Definition LEFT_SIDE_HIT_TABLE : Z -> option string :=
  by_roll ["LT"; "LL"; "LA"; "LA"; "LL"; "LT"; "CT"; "RT"; "RA"; "RL"; "HD"].

Definition RIGHT_SIDE_HIT_TABLE : Z -> option string :=
  by_roll ["RT"; "RL"; "RA"; "RA"; "RL"; "RT"; "CT"; "LT"; "LA"; "LL"; "HD"].

Definition REAR_HIT_TABLE : Z -> option string :=
  by_roll ["CT"; "RT"; "RT"; "RL"; "RT"; "CT"; "LT"; "LL"; "LT"; "LT"; "HD"].

Definition HIT_TABLES (direction : string) : option (Z -> option string) :=
  if String.eqb direction "front" then Some FRONT_HIT_TABLE
  else if String.eqb direction "left" then Some LEFT_SIDE_HIT_TABLE
  else if String.eqb direction "right" then Some RIGHT_SIDE_HIT_TABLE
  else if String.eqb direction "rear" then Some REAR_HIT_TABLE
  else None.

(** [CLUSTER_TABLE]: for each listed size, the hits by roll. *)
Definition CLUSTER_TABLE (size : Z) : option (Z -> option Z) :=
  if size =? 2 then Some (by_roll [1; 1; 1; 1; 1; 1; 2; 2; 2; 2; 2])
  else if size =? 4 then Some (by_roll [1; 1; 2; 2; 2; 3; 3; 3; 3; 4; 4])
  else if size =? 5 then Some (by_roll [1; 2; 2; 3; 3; 3; 3; 4; 4; 5; 5])
  else if size =? 6 then Some (by_roll [2; 2; 3; 3; 4; 4; 4; 4; 5; 5; 6])
  else if size =? 10 then Some (by_roll [3; 3; 4; 6; 6; 6; 6; 8; 8; 10; 10])
  else if size =? 15
  then Some (by_roll [5; 5; 6; 9; 9; 9; 9; 12; 12; 15; 15])
  else if size =? 20
  then Some (by_roll [6; 6; 9; 12; 12; 12; 12; 16; 16; 20; 20])
  else None.

(** [sorted(CLUSTER_TABLE.keys())]. *)
Definition valid_sizes : list Z := [2; 4; 5; 6; 10; 15; 20].

(** [min(l, key=key)] on a non-empty list with first element [best]: the
    first element with the least key. *)
Fixpoint min_by (key : Z -> Z) (best : Z) (l : list Z) : Z :=
  match l with
  | [] => best
  | s :: rest =>
      if key s <? key best then min_by key s rest else min_by key best rest
  end.

Definition nearest_size (cluster_size : Z) : Z :=
  min_by (fun s => Z.abs (s - cluster_size)) 2 [4; 5; 6; 10; 15; 20].

Section Tables.

Variable rnd : nat -> nat.

Definition roll_hit_location (direction : string) : M string :=
  match HIT_TABLES direction with
  | None => raise KeyError
  | Some table =>
      let* roll := roll_2d6 rnd in
      match table roll with
      | Some loc => ret loc
      | None => raise KeyError
      end
  end.

Definition roll_cluster_hits (cluster_size : Z) : M Z :=
  let table_key :=
    match CLUSTER_TABLE cluster_size with
    | None => nearest_size cluster_size
    | Some _ => cluster_size
    end in
  match CLUSTER_TABLE table_key with
  | None => raise KeyError
  | Some table =>
      let* roll := roll_2d6 rnd in
      match table roll with
      | Some hits => ret hits
      | None => raise KeyError
      end
  end.

End Tables.

(** The eight location names of the body plan. *)
Definition LOCATION_NAMES : list string :=
  ["HD"; "CT"; "LT"; "RT"; "LA"; "RA"; "LL"; "RL"].

(** ** combat.py: to-hit numbers and the resolution of one attack *)

Definition get_attacker_movement_modifier (movement_mode : string) : Z :=
  if String.eqb movement_mode "stand" then 0
  else if String.eqb movement_mode "walk" then 1
  else if String.eqb movement_mode "run" then 2
  else if String.eqb movement_mode "jump" then 3
  else 0.

Definition get_heat_to_hit_modifier (current_heat : Z) : Z :=
  if 24 <=? current_heat then 4
  else if 17 <=? current_heat then 3
  else if 13 <=? current_heat then 2
  else if 8 <=? current_heat then 1
  else 0.

(** [sub in s] on strings. *)
Definition str_in (sub s : string) : bool :=
  match String.index 0 sub s with
  | Some _ => true
  | None => false
  end.

Definition calculate_target_number (attacker : Mech) (mw : MountedWeapon)
    (target : Mech) (distance terrain_modifier : Z) : option Z :=
  match get_range_modifier mw distance with
  | None => None
  | Some range_mod =>
      let tn := gunnery attacker in
      let tn := tn + get_attacker_movement_modifier (movement_mode attacker) in
      let tn := tn + get_target_movement_modifier (hexes_moved target) in
      let tn := tn + range_mod in
      let tn := tn + get_heat_to_hit_modifier (current_heat attacker) in
      let tn := tn + terrain_modifier in
      let tn := if str_in "Pulse" (wname (weapon mw)) then tn - 2 else tn in
      Some tn
  end.

(** [AttackResult], without the event log. *)
Record AttackResult : Type := mkAttackResult {
  weapon_name : string;
  target_number : Z;
  roll : Z;
  hit : bool;
  location_hit : option string;
  damage_dealt : Z
}.

(** [weapon.ammo_remaining -= 1] under [if weapon.ammo_remaining is not
    None]. *)
Definition spend_round (mw : MountedWeapon) : MountedWeapon :=
  match ammo_remaining mw with
  | Some a => set_ammo_remaining (Some (a - 1)) mw
  | None => mw
  end.

(** [weapon.ammo_remaining is not None and weapon.ammo_remaining <= 0]. *)
Definition out_of_ammo (mw : MountedWeapon) : bool :=
  match ammo_remaining mw with
  | Some a => a <=? 0
  | None => false
  end.

(** [weapon.ammo_remaining and weapon.ammo_remaining > 0]. *)
Definition rounds_left (mw : MountedWeapon) : bool :=
  match ammo_remaining mw with
  | Some a => negb (a =? 0) && (0 <? a)
  | None => false
  end.

Definition no_shot (mw : MountedWeapon) : AttackResult :=
  mkAttackResult (wname (weapon mw)) 99 0 false None 0.

Section Combat.

Variable rnd : nat -> nat.

(** The [for _ in range(missiles_hit)] loop: one location roll and one
    [apply_damage] per missile, left as soon as the target is inactive. *)
Fixpoint missile_loop (fuel : nat) (missiles : nat) (target : Mech)
    (direction : string) (dmg total_damage : Z) : M (Mech * Z) :=
  match missiles with
  | O => ret (target, total_damage)
  | S missiles' =>
      let* loc := roll_hit_location rnd direction in
      let total_damage := total_damage + dmg in
      let* target := apply_damage rnd fuel target loc dmg false in
      if negb (active target) then ret (target, total_damage)
      else missile_loop fuel missiles' target direction dmg total_damage
  end.

(** [resolve_attack attacker weapon target distance direction
    terrain_modifier]: the mounted weapon is passed by reference in the
    source and mutated, so it is returned next to the target.  The attacker
    is only read. *)
Definition resolve_attack (fuel : nat) (attacker : Mech)
    (mw : MountedWeapon) (target : Mech) (distance : Z) (direction : string)
    (terrain_modifier : Z) : M (MountedWeapon * Mech * AttackResult) :=
  if mw_destroyed mw then ret (mw, target, no_shot mw)
  else if out_of_ammo mw then ret (mw, target, no_shot mw)
  else
    match calculate_target_number attacker mw target distance
            terrain_modifier with
    | None => ret (mw, target, no_shot mw)
    | Some tn =>
        let streak := is_streak (weapon mw) in
        let* roll := roll_2d6 rnd in
        let hit := (tn <=? roll) && negb (roll =? 2) in
        if negb hit then
          let mw := if negb streak then spend_round mw else mw in
          ret (mw, target,
               mkAttackResult (wname (weapon mw)) tn roll false None 0)
        else
          let mw := spend_round mw in
          let w := weapon mw in
          let* r :=
            if 0 <? cluster_size w then
              let* missiles_hit :=
                if streak then ret (cluster_size w)
                else roll_cluster_hits rnd (cluster_size w) in
              missile_loop fuel (Z.to_nat missiles_hit) target direction
                (damage_per_missile w) 0
            else
              let* loc := roll_hit_location rnd direction in
              let* target := apply_damage rnd fuel target loc (damage w)
                               false in
              ret (target, damage w) in
          let '(target, total_damage) := r in
          let* r2 :=
            if is_ultra w && rounds_left mw then
              let* jam_roll := roll_2d6 rnd in
              if jam_roll =? 2
              then ret (set_mw_destroyed true mw, target, total_damage)
              else
                let* roll2 := roll_2d6 rnd in
                let hit2 := (tn <=? roll2) && negb (roll2 =? 2) in
                let mw := spend_round mw in
                if hit2 then
                  let* loc2 := roll_hit_location rnd direction in
                  let* target := apply_damage rnd fuel target loc2 (damage w)
                                   false in
                  ret (mw, target, total_damage + damage w)
                else ret (mw, target, total_damage)
            else ret (mw, target, total_damage) in
          let '(mw, target, total_damage) := r2 in
          ret (mw, target,
               mkAttackResult (wname w) tn roll true None total_damage)
    end.

End Combat.

(** A mech with all eight locations of the body plan. *)
Definition complete (m : Mech) : Prop :=
  forall id, In id LOCATION_NAMES -> is_Some (locations m !! id).

(** A mounted Ultra AC/5 with ten rounds, a Streak SRM-2 and an LRM-10. *)
Definition ultra_gun : MountedWeapon := mkMounted ULTRA_AC5 "RA" (Some 10) false.
Definition streak_rack : MountedWeapon :=
  mkMounted STREAK_SRM2 "LT" (Some 50) false.
Definition lrm_rack : MountedWeapon := mkMounted LRM10 "LT" (Some 12) false.

(** What one attack may do to the ammo count of the weapon that fires: at
    most [most] rounds are used, the count never goes below zero, and a
    weapon without ammo count keeps none. *)
Definition ammo_used (mw mw' : MountedWeapon) (most : Z) : Prop :=
  match ammo_remaining mw, ammo_remaining mw' with
  | None, None => True
  | Some a, Some a' => a - most <= a' <= a /\ (0 <= a -> 0 <= a')
  | _, _ => False
  end.

(** The four keys of [HIT_TABLES]. *)
Definition valid_direction (direction : string) : Prop :=
  direction = "front" \/ direction = "left" \/ direction = "right"
  \/ direction = "rear".

(** A checker for [complete], to run on concrete mechs. *)
Definition complete_check (m : Mech) : bool :=
  forallb
    (fun id => match locations m !! id with
               | Some _ => true
               | None => false
               end)
    LOCATION_NAMES.

(** ** tables.py: internal structure; mech.py: [load_mech] *)






(** [WEAPON_DB.get(name)]; the names of the list are pairwise distinct, so
    the first match is the dictionary's entry. *)
Definition lookup_weapon (name : string) : option Weapon :=
  List.find (fun w => String.eqb (wname w) name) WEAPON_DB.






(** [int(data["walk_mp"] * 1.5 + 0.5)], in floats: the integer is converted
    ([OverflowError] when too large), multiplied and added to with rounding,
    and the result truncated ([OverflowError] when the product has become
    infinite). *)
Definition default_run_mp (walk_mp : Z) : result Z :=
  match float_of_int walk_mp with
  | Ret x =>
      int_of_float
        (SFadd float_prec float_emax
           (SFmul float_prec float_emax x float_1_5) float_0_5)
  | Raise e => Raise e
  | OutOfFuel => OutOfFuel
  end.










(** ** soak.py *)

Inductive DamageProfile : Type := CONCENTRATED | CLUSTER | MIXED.

Definition CONCENTRATED_MIN : Z := 5.
Definition CONCENTRATED_MAX : Z := 15.
Definition CLUSTER_DAMAGE : Z := 2.
Definition MAX_DAMAGE : Z := 5000.

Definition set_has_case (v : bool) (l : Location) : Location :=
  mkLocation (loc_name l) (max_armor l) (current_armor l) (rear_max_armor l)
    (rear_current_armor l) (max_structure l) (current_structure l)
    (destroyed l) (crittable_slots l) v.

(** [_prep_mech]: every ammo count is halved ([//] rounds down), and with
    [auto_case] every location gets CASE. *)
Definition _prep_mech (mech : Mech) (auto_case : bool) : Mech :=
  let ws :=
    map (fun mw => match ammo_remaining mw with
                   | Some a => set_ammo_remaining (Some (a / 2)) mw
                   | None => mw
                   end) (weapons mech) in
  let mech := set_weapons ws mech in
  if auto_case
  then set_locations (set_has_case true <$> locations mech) mech
  else mech.

Section Soak.

Variable rnd : nat -> nat.

Definition _apply_concentrated (fuel : nat) (mech : Mech) : M (Z * Mech) :=
  let* dmg := randint rnd CONCENTRATED_MIN CONCENTRATED_MAX in
  let* loc := roll_hit_location rnd "front" in
  let* mech := apply_damage rnd fuel mech loc dmg false in
  ret (dmg, mech).

Definition _apply_cluster (fuel : nat) (mech : Mech) : M (Z * Mech) :=
  let* loc := roll_hit_location rnd "front" in
  let* mech := apply_damage rnd fuel mech loc CLUSTER_DAMAGE false in
  ret (CLUSTER_DAMAGE, mech).

(** [random.random() < 0.5]: one draw, decided by the parity of the raw
    draw, so that both outcomes occur for some oracle. *)
Definition coin : M bool := fun p => Ret (Nat.even (rnd p), S p).

(** The body of the [while] loop of [soak_single]: one hit of the
    profile. *)
Definition soak_hit (fuel : nat) (profile : DamageProfile) (mech : Mech)
  : M (Z * Mech) :=
  match profile with
  | MIXED =>
      let* heads := coin in
      if heads then _apply_concentrated fuel mech
      else _apply_cluster fuel mech
  | CONCENTRATED => _apply_concentrated fuel mech
  | CLUSTER => _apply_cluster fuel mech
  end.

(** [while not mech.is_dead and total_damage < MAX_DAMAGE]; [hits] is the
    fuel of the loop. *)
Fixpoint soak_loop (hits fuel : nat) (profile : DamageProfile) (mech : Mech)
    (total_damage : Z) : M (Mech * Z) :=
  match hits with
  | O => out_of_fuel
  | S hits' =>
      if negb (is_dead mech) && (total_damage <? MAX_DAMAGE) then
        let* r := soak_hit fuel profile mech in
        let '(dmg, mech) := r in
        soak_loop hits' fuel profile mech (total_damage + dmg)
      else ret (mech, total_damage)
  end.

(** One iteration of the [for] loop of [soak_single], up to the end of its
    [while] loop: the prepared copy of the template is hit until it is dead
    or the cap is reached; the result is the mech and the damage it took. *)
Definition soak_iteration (hits fuel : nat) (profile : DamageProfile)
    (mech_template : Mech) (auto_case : bool) : M (Mech * Z) :=
  soak_loop hits fuel profile (_prep_mech mech_template auto_case) 0.

End Soak.

(** How [_prep_mech] changes a weapon: only the ammo count, to its half
    rounded down. *)
Definition mw_halved (w w' : MountedWeapon) : Prop :=
  weapon w' = weapon w /\ location w' = location w
  /\ mw_destroyed w' = mw_destroyed w
  /\ match ammo_remaining w, ammo_remaining w' with
     | None, None => True
     | Some a, Some a' => 2 * a' <= a <= 2 * a' + 1
     | _, _ => False
     end.

(** What [_prep_mech] keeps of a location: everything but CASE. *)
Definition same_but_case (l l' : Location) : Prop :=
  loc_name l' = loc_name l /\ max_armor l' = max_armor l
  /\ current_armor l' = current_armor l
  /\ rear_max_armor l' = rear_max_armor l
  /\ rear_current_armor l' = rear_current_armor l
  /\ max_structure l' = max_structure l
  /\ current_structure l' = current_structure l
  /\ destroyed l' = destroyed l
  /\ crittable_slots l' = crittable_slots l.

(** The outcome of a fight seen from the other side. *)
Definition swap_side (s : option side) : option side :=
  match s with
  | Some SideA => Some SideB
  | Some SideB => Some SideA
  | None => None
  end.

(** The heat one fired weapon adds in [calculate_heat_generated]: nothing
    when it is destroyed, twice its heat for an Ultra autocannon. *)
Definition fired_heat (mw : MountedWeapon) : Z :=
  if negb (mw_destroyed mw) then
    if is_ultra (weapon mw) then heat (weapon mw) + heat (weapon mw)
    else heat (weapon mw)
  else 0.

(** A mech with two large lasers (two slots each) in its left arm. *)
Definition twin_laser_mech : Mech :=
  mk_mech "Twin" 4 6
    (body (mk_loc "LT" 8 4 12 [] false)
          (mk_loc "LA" 6 0 8
             ["Large Laser"; "Large Laser"; "Large Laser"; "Large Laser"]
             false))
    [MountedWeapon_init LARGE_LASER "LA" None;
     MountedWeapon_init LARGE_LASER "LA" None] 10 "standard" 0.

(** ** simulator.py: [find_preferred_range] *)

(** [for r in range(1, max_range + 1)], from range [r] on for [count]
    ranges, with the best range and advantage found so far. *)
Fixpoint preferred_range_loop (mech opponent : Mech) (count : nat) (r : Z)
    (best_range : Z) (best_advantage : Q) : M Z :=
  match count with
  | O => ret best_range
  | S count' =>
      let* dpr := heat_neutral_dpr mech r in
      let* dpr_opponent := heat_neutral_dpr opponent r in
      let advantage := (dpr - dpr_opponent)%Q in
      if Qgtb advantage best_advantage
      then preferred_range_loop mech opponent count' (r + 1) r advantage
      else preferred_range_loop mech opponent count' (r + 1) best_range
             best_advantage
  end.

Definition find_preferred_range (mech opponent : Mech) (max_range : Z)
  : M Z :=
  preferred_range_loop mech opponent (Z.to_nat max_range) 1 1 (-999 # 1)%Q.

(** The heat-neutral damage per round where [heat_neutral_dpr] returns one
    (it throws no dice, so the cursor does not matter), and the advantage
    [find_preferred_range] compares. *)
Definition dpr_at (m : Mech) (distance : Z) : Q :=
  match heat_neutral_dpr m distance 0%nat with
  | Ret (q, _) => q
  | _ => 0%Q
  end.

Definition advantage_at (mech opponent : Mech) (distance : Z) : Q :=
  (dpr_at mech distance - dpr_at opponent distance)%Q.
(** * Properties *)

(** ** Range modifier *)

Lemma get_range_modifier_unfold (mw : MountedWeapon) (d : Z) :
  get_range_modifier mw d =
    if d <? min_range (weapon mw) then Some (min_range (weapon mw) - d)
    else if d <=? short_range (weapon mw) then Some 0
    else if d <=? medium_range (weapon mw) then Some 2
    else if d <=? long_range (weapon mw) then Some 4
    else None.
Proof. reflexivity. Qed.

Ltac range_cases :=
  repeat match goal with
         | |- context [?a <? ?b] => destruct (Z.ltb_spec a b)
         | |- context [?a <=? ?b] => destruct (Z.leb_spec a b)
         | H : context [?a <? ?b] |- _ => destruct (Z.ltb_spec a b)
         | H : context [?a <=? ?b] |- _ => destruct (Z.leb_spec a b)
         end.

(** C7.  For every weapon and distance [d]: below the minimum range the
    modifier is the minimum range minus [d]; otherwise it is 0 up to the
    short range, then 2 up to the medium range, then 4 up to the long range,
    and there is none beyond the long range.  From the minimum range on the
    modifier never decreases with the distance: when it is defined at a
    farther distance it is defined, and no larger, at a nearer one. *)
Theorem get_range_modifier_bands (mw : MountedWeapon) (d : Z) :
  let w := weapon mw in
  (d < min_range w -> get_range_modifier mw d = Some (min_range w - d)) /\
  (min_range w <= d -> d <= short_range w ->
   get_range_modifier mw d = Some 0) /\
  (min_range w <= d -> short_range w < d -> d <= medium_range w ->
   get_range_modifier mw d = Some 2) /\
  (min_range w <= d -> short_range w < d -> medium_range w < d ->
   d <= long_range w -> get_range_modifier mw d = Some 4) /\
  (min_range w <= d -> short_range w < d -> medium_range w < d ->
   long_range w < d -> get_range_modifier mw d = None) /\
  (forall d' m', min_range w <= d -> d <= d' ->
   get_range_modifier mw d' = Some m' ->
   exists m0, get_range_modifier mw d = Some m0 /\ m0 <= m').
Proof.
  cbv zeta. repeat split; intros; try (rewrite get_range_modifier_unfold;
    range_cases; (reflexivity || lia)).
  rewrite get_range_modifier_unfold in *.
  range_cases; try lia; try discriminate;
    match goal with
    | H : Some _ = Some _ |- _ => inversion H; subst; clear H
    end; eexists; (split; [reflexivity | lia]).
Qed.

Lemma get_range_modifier_bands_witness :
  get_range_modifier (MountedWeapon_init PPC "RA" None) 1 = Some 2 /\
  get_range_modifier (MountedWeapon_init PPC "RA" None) 3 = Some 0 /\
  get_range_modifier (MountedWeapon_init PPC "RA" None) 7 = Some 2 /\
  get_range_modifier (MountedWeapon_init PPC "RA" None) 18 = Some 4 /\
  get_range_modifier (MountedWeapon_init PPC "RA" None) 19 = None /\
  exists m0, get_range_modifier (MountedWeapon_init PPC "RA" None) 4
             = Some m0 /\ m0 <= 4.
Proof.
  pose (mw := MountedWeapon_init PPC "RA" None).
  split; [| split; [| split; [| split; [| split]]]].
  - apply (proj1 (get_range_modifier_bands mw 1)). reflexivity.
  - apply (proj1 (proj2 (get_range_modifier_bands mw 3))); discriminate.
  - apply (proj1 (proj2 (proj2 (get_range_modifier_bands mw 7))));
      (reflexivity || discriminate).
  - apply (proj1 (proj2 (proj2 (proj2 (get_range_modifier_bands mw 18)))));
      (reflexivity || discriminate).
  - apply (proj1 (proj2 (proj2 (proj2 (proj2
             (get_range_modifier_bands mw 19))))));
      (reflexivity || discriminate).
  - apply (proj2 (proj2 (proj2 (proj2 (proj2
             (get_range_modifier_bands mw 4))))) 18 4);
      (reflexivity || discriminate).
Defined.

Lemma get_range_modifier_beyond_long (mw : MountedWeapon) (d : Z) :
  bands_ordered (weapon mw) -> long_range (weapon mw) < d ->
  get_range_modifier mw d = None.
Proof.
  intros (H1 & H2 & H3) Hd. rewrite get_range_modifier_unfold.
  range_cases; (reflexivity || lia).
Qed.

Lemma WEAPON_DB_bands_ordered : Forall bands_ordered WEAPON_DB.
Proof.
  unfold WEAPON_DB. repeat constructor; cbn; lia.
Qed.

(** ** Movement-point penalty *)

Lemma get_heat_mp_penalty_steps (h : Z) :
  get_heat_mp_penalty h = if 9 <=? h then 4 else if 5 <=? h then 1 else 0.
Proof.
  unfold get_heat_mp_penalty. range_cases; (reflexivity || lia).
Qed.

(** Below heat 9, where the early return is not taken, the table of the
    source counts the thresholds reached. *)
Lemma get_heat_mp_penalty_below_9 (h : Z) :
  h < 9 -> get_heat_mp_penalty h = thresholds_reached h.
Proof.
  intros Hh. rewrite get_heat_mp_penalty_steps. unfold thresholds_reached.
  assert (Hf : forall t l, filter (fun t => t <= h) (t :: l) =
            if decide (t <= h) then t :: filter (fun t => t <= h) l
            else filter (fun t => t <= h) l) by reflexivity.
  rewrite !Hf. range_cases; repeat case_decide; try lia; reflexivity.
Qed.

(** C4.  At heat 9 the code returns a penalty of 4 where one threshold (5)
    has been reached, and at heat 25 it returns 4 where all five have. *)
Theorem get_heat_mp_penalty_early_return :
  get_heat_mp_penalty 9 = 4 /\ thresholds_reached 9 = 1 /\
  get_heat_mp_penalty 25 = 4 /\ thresholds_reached 25 = 5.
Proof. repeat split; reflexivity. Qed.

(** ** Dice *)

Lemma die_range (rnd : nat -> nat) (p : nat) : 1 <= die rnd p <= 6.
Proof.
  unfold die. pose proof (Z.mod_pos_bound (Z.of_nat (rnd p)) 6). lia.
Qed.

Lemma two_dice_range (rnd : nat -> nat) (p : nat) : 2 <= two_dice rnd p <= 12.
Proof.
  unfold two_dice. pose proof (die_range rnd p).
  pose proof (die_range rnd (S p)). lia.
Qed.

Lemma roll_2d6_ret (rnd : nat -> nat) (p : nat) :
  roll_2d6 rnd p = Ret (two_dice rnd p, S (S p)).
Proof. reflexivity. Qed.

Lemma CRIT_TABLE_range (roll : Z) :
  2 <= roll <= 12 -> exists n, CRIT_TABLE roll = Some n /\ 0 <= n <= 3.
Proof.
  intros H. unfold CRIT_TABLE.
  destruct (Z.leb_spec 2 roll); [| lia].
  destruct (Z.leb_spec roll 7); cbn [andb]; [eexists; split; [reflexivity | lia] |].
  destruct (Z.leb_spec 8 roll); [| lia].
  destruct (Z.leb_spec roll 9); cbn [andb]; [eexists; split; [reflexivity | lia] |].
  destruct (Z.leb_spec 10 roll); [| lia].
  destruct (Z.leb_spec roll 11); cbn [andb]; [eexists; split; [reflexivity | lia] |].
  destruct (Z.eqb_spec roll 12); [| lia].
  eexists; split; [reflexivity | lia].
Qed.

Lemma roll_critical_hits_ret (rnd : nat -> nat) (p : nat) :
  exists n, roll_critical_hits rnd p = Ret (n, S (S p)) /\ 0 <= n <= 3.
Proof.
  destruct (CRIT_TABLE_range (two_dice rnd p) (two_dice_range rnd p))
    as (n & Hn & Hr).
  exists n. split; [| exact Hr].
  unfold roll_critical_hits, bind. rewrite roll_2d6_ret, Hn. reflexivity.
Qed.

(** ** Heat phase *)

Lemma apply_heat_phase_unfold (rnd : nat -> nat) (fuel : nat) (mech : Mech)
    (ws : list MountedWeapon) (p : nat) :
  apply_heat_phase rnd fuel mech ws p =
    let hot := heated mech ws in
    if 30 <=? current_heat hot then Ret (set_active false hot, p)
    else
      match shutdown_check rnd (current_heat hot) p with
      | Ret (true, p') => Ret (set_active false hot, p')
      | Ret (false, p') => ammo_check rnd fuel hot p'
      | Raise e => Raise e
      | OutOfFuel => OutOfFuel
      end.
Proof.
  unfold apply_heat_phase, heated. cbv zeta.
  destruct (30 <=? _); [reflexivity |].
  unfold bind. destruct (shutdown_check _ _ _) as [[[] ?] | |]; reflexivity.
Qed.

Lemma shutdown_check_ret (rnd : nat -> nat) (h : Z) (p : nat) :
  shutdown_check rnd h p =
    if 25 <=? h then Ret (4 <=? two_dice rnd p, S (S p))
    else if 19 <=? h then Ret (6 <=? two_dice rnd p, S (S p))
    else if 14 <=? h then Ret (8 <=? two_dice rnd p, S (S p))
    else Ret (false, p).
Proof.
  unfold shutdown_check. repeat destruct (_ <=? h); reflexivity.
Qed.

Lemma ammo_check_cool (rnd : nat -> nat) (fuel : nat) (mech : Mech) (p : nat) :
  current_heat mech < 18 -> ammo_check rnd fuel mech p = Ret (mech, p).
Proof.
  intros H. unfold ammo_check.
  destruct (Z.leb_spec 18 (current_heat mech)); [lia | reflexivity].
Qed.

Lemma ammo_check_no_ammo (rnd : nat -> nat) (fuel : nat) (mech : Mech)
    (p : nat) :
  existsb has_ammo_left (weapons mech) = false ->
  ammo_check rnd fuel mech p = Ret (mech, p).
Proof.
  intros H. unfold ammo_check. rewrite H.
  destruct (18 <=? _); reflexivity.
Qed.

Ltac shutdown_band :=
  rewrite apply_heat_phase_unfold; cbv zeta; rewrite shutdown_check_ret;
  range_cases; try lia; try reflexivity.

(** C2, as amended.  With [h] the updated heat: at 30 or more the mech is
    made inactive and no die is rolled; in [25,30) two dice are rolled and
    the mech is made inactive exactly when the roll is 4 or more, in [19,25)
    when it is 6 or more, in [14,19) when it is 8 or more, a lower roll
    letting the phase go on to the ammo check with the mech untouched; below
    14 nothing is rolled.  The tests are made in that order. *)
Theorem apply_heat_phase_shutdown (rnd : nat -> nat) (fuel : nat)
    (mech : Mech) (ws : list MountedWeapon) (p : nat) :
  let hot := heated mech ws in
  let h := current_heat hot in
  let roll := two_dice rnd p in
  let run := apply_heat_phase rnd fuel mech ws p in
  let shut := Ret (set_active false hot, S (S p)) in
  let go_on := ammo_check rnd fuel hot (S (S p)) in
  (30 <= h -> run = Ret (set_active false hot, p)) /\
  (25 <= h < 30 -> (4 <= roll -> run = shut) /\ (roll < 4 -> run = go_on)) /\
  (19 <= h < 25 -> (6 <= roll -> run = shut) /\ (roll < 6 -> run = go_on)) /\
  (14 <= h < 19 -> (8 <= roll -> run = shut) /\ (roll < 8 -> run = go_on)) /\
  (h < 14 -> run = Ret (hot, p)).
Proof.
  cbv zeta.
  split; [| split; [| split; [| split]]].
  - intros H. shutdown_band.
  - intros H. split; intros Hr; shutdown_band.
  - intros H. split; intros Hr; shutdown_band.
  - intros H. split; intros Hr; shutdown_band.
  - intros H. shutdown_band. apply ammo_check_cool. lia.
Qed.

Lemma apply_heat_phase_shutdown_witness :
  apply_heat_phase rnd_two 0 hot_mech [] 0%nat
    = Ret (set_active false (heated hot_mech []), 2%nat) /\
  apply_heat_phase rnd_zero 0 hot_mech [] 0%nat
    = ammo_check rnd_zero 0 (heated hot_mech []) 2%nat.
Proof.
  split.
  - apply (proj1 (proj1 (proj2
             (apply_heat_phase_shutdown rnd_two 0 hot_mech [] 0%nat))
             ltac:(split; [discriminate | reflexivity]))).
    discriminate.
  - apply (proj2 (proj1 (proj2
             (apply_heat_phase_shutdown rnd_zero 0 hot_mech [] 0%nat))
             ltac:(split; [discriminate | reflexivity]))).
    reflexivity.
Defined.

(** C2 as first stated fails: at heat 25 a roll of 6, which is "4 or more",
    does not avoid the shutdown; the mech, active before, is made
    inactive. *)
Lemma shutdown_roll_counterexample :
  two_dice rnd_two 0 = 6 /\ active hot_mech = true /\
  exists m', apply_heat_phase rnd_two 0 hot_mech [] 0%nat = Ret (m', 2%nat)
             /\ current_heat m' = 25 /\ active m' = false.
Proof.
  split; [reflexivity | split; [reflexivity |]].
  eexists. split; [vm_compute; reflexivity |].
  split; vm_compute; reflexivity.
Qed.

(** A heat of 29 with a roll below 4 and no ammo aboard leaves the mech as
    active as it was. *)
Lemma heat_29_low_roll_stays_active (rnd : nat -> nat) (fuel : nat)
    (mech : Mech) (ws : list MountedWeapon) (p : nat) :
  current_heat (heated mech ws) = 29 -> two_dice rnd p < 4 ->
  existsb has_ammo_left (weapons mech) = false ->
  apply_heat_phase rnd fuel mech ws p = Ret (heated mech ws, S (S p))
  /\ active (heated mech ws) = active mech.
Proof.
  intros Hh Hr Ha. split; [| reflexivity].
  rewrite apply_heat_phase_unfold. cbv zeta.
  rewrite shutdown_check_ret, Hh. cbn [Z.leb Z.compare Pos.compare
    Pos.compare_cont].
  destruct (Z.leb_spec 4 (two_dice rnd p)); [lia |].
  apply ammo_check_no_ammo. exact Ha.
Qed.

Lemma existsb_filter_nil {A} (f : A -> bool) (l : list A) :
  existsb f l = false <-> List.filter f l = [].
Proof.
  induction l as [| a l IH]; cbn; [tauto |].
  destruct (f a); cbn; [split; discriminate | exact IH].
Qed.

Lemma random_choice_ret {A} (rnd : nat -> nat) (l : list A) (d : A)
    (p : nat) :
  l <> [] ->
  exists x, l !! (rnd p mod length l)%nat = Some x
            /\ random_choice rnd l d p = Ret (x, S p).
Proof.
  intros Hl.
  assert (Hlen : (rnd p mod length l < length l)%nat).
  { apply Nat.mod_upper_bound. destruct l; [congruence | cbn; lia]. }
  destruct (lookup_lt_is_Some_2 l _ Hlen) as [x Hx].
  exists x. split; [exact Hx |].
  unfold random_choice. rewrite nth_lookup, Hx. reflexivity.
Qed.

(** The search loop of [_ammo_explosion], called for the location and the
    ammo slot of a weapon with rounds left, stops at the first weapon of
    that location and that name with rounds left: it gives the damage and
    loses its rounds. *)
Lemma find_ammo_first (victim : MountedWeapon) (ws : list MountedWeapon) :
  In victim ws -> has_ammo_left victim = true ->
  exists pre first post,
    ws = pre ++ first :: post
    /\ location first = location victim
    /\ wname (weapon first) = wname (weapon victim)
    /\ has_ammo_left first = true
    /\ Forall (fun mw => ~ (location mw = location victim
                            /\ wname (weapon mw) = wname (weapon victim)
                            /\ has_ammo_left mw = true)) pre
    /\ find_ammo (location victim) ("Ammo " +:+ wname (weapon victim)) ws
       = (explosion_damage first,
          pre ++ set_ammo_remaining (Some 0) first :: post).
Proof.
  intros Hin Hammo. induction ws as [| mw rest IH]; [destruct Hin |].
  cbn [find_ammo].
  destruct (String.eqb (location mw) (location victim)) eqn:Hloc.
  - destruct (has_ammo_left mw) eqn:Hleft.
    + destruct (String.eqb ("Ammo " +:+ wname (weapon victim))
                  ("Ammo " +:+ wname (weapon mw))) eqn:Hname.
      * exists [], mw, rest. apply String.eqb_eq in Hloc, Hname.
        cbn in Hname. inversion Hname as [Hn].
        repeat split; auto.
      * assert (Hne : wname (weapon mw) <> wname (weapon victim)).
        { intros E. rewrite E, String.eqb_refl in Hname. discriminate. }
        destruct IH as (pre & first & post & -> & H1 & H2 & H3 & H4 & H5).
        { destruct Hin as [-> | Hin]; [congruence | exact Hin]. }
        exists (mw :: pre), first, post. cbn [andb]. rewrite H5.
        repeat split; auto.
        constructor; [| exact H4]. intros (_ & E & _). congruence.
    + destruct IH as (pre & first & post & -> & H1 & H2 & H3 & H4 & H5).
      { destruct Hin as [-> | Hin]; [congruence | exact Hin]. }
      exists (mw :: pre), first, post. cbn [andb]. rewrite H5.
      repeat split; auto.
      constructor; [| exact H4]. intros (_ & _ & E). congruence.
  - destruct IH as (pre & first & post & -> & H1 & H2 & H3 & H4 & H5).
    { destruct Hin as [-> | Hin]; [| exact Hin].
      rewrite String.eqb_refl in Hloc. discriminate. }
    exists (mw :: pre), first, post. cbn [andb]. rewrite H5.
    repeat split; auto.
    constructor; [| exact H4]. intros (E & _ & _).
    apply String.eqb_neq in Hloc. congruence.
Qed.

(** C3, as amended.  In a heat phase that is not ended by a shutdown (the
    updated heat is below 30 and the shutdown check, ending at cursor [p1],
    did not deactivate the mech): when the heat is 18 or more and some
    weapon still has ammo, two dice are rolled; a roll below 4 leaves the
    mech as it is, and a roll of 4 or more picks one ammo-carrying weapon,
    the one indexed by one further draw reduced over their number, and runs
    [_ammo_explosion] on its location and the ammo slot named after it.
    The explosion so triggered is that of the first weapon of that location
    and that name with rounds left, which loses its rounds and gives the
    damage.  Below heat 18, or without ammo, nothing is rolled. *)
Theorem apply_heat_phase_ammo_check (rnd : nat -> nat) (fuel : nat)
    (mech : Mech) (ws : list MountedWeapon) (p p1 : nat) :
  let hot := heated mech ws in
  let roll := two_dice rnd p1 in
  let run := apply_heat_phase rnd fuel mech ws p in
  current_heat hot < 30 ->
  shutdown_check rnd (current_heat hot) p = Ret (false, p1) ->
  (18 <= current_heat hot -> ammo_weapons hot <> [] ->
   (roll < 4 -> run = Ret (hot, S (S p1))) /\
   (4 <= roll ->
    exists victim,
      ammo_weapons hot
        !! (rnd (S (S p1)) mod length (ammo_weapons hot))%nat = Some victim
      /\ run = _ammo_explosion rnd fuel hot (location victim)
                 ("Ammo " +:+ wname (weapon victim)) (S (S (S p1)))
      /\ exists pre first post,
           weapons hot = pre ++ first :: post
           /\ location first = location victim
           /\ wname (weapon first) = wname (weapon victim)
           /\ has_ammo_left first = true
           /\ Forall (fun mw => ~ (location mw = location victim
                                   /\ wname (weapon mw)
                                      = wname (weapon victim)
                                   /\ has_ammo_left mw = true)) pre
           /\ find_ammo (location victim)
                ("Ammo " +:+ wname (weapon victim)) (weapons hot)
              = (explosion_damage first,
                 pre ++ set_ammo_remaining (Some 0) first :: post))) /\
  (current_heat hot < 18 \/ ammo_weapons hot = [] -> run = Ret (hot, p1)).
Proof.
  cbv zeta. intros H30 Hs.
  rewrite apply_heat_phase_unfold. cbv zeta.
  destruct (Z.leb_spec 30 (current_heat (heated mech ws))); [lia |].
  rewrite Hs. split.
  - intros H18 Hammo. unfold ammo_check.
    destruct (Z.leb_spec 18 (current_heat (heated mech ws))); [| lia].
    destruct (existsb has_ammo_left (weapons (heated mech ws))) eqn:He.
    2:{ apply existsb_filter_nil in He. contradiction. }
    unfold bind. rewrite roll_2d6_ret.
    split; intros Hr.
    + destruct (Z.leb_spec 4 (two_dice rnd p1)); [lia | reflexivity].
    + destruct (Z.leb_spec 4 (two_dice rnd p1)); [| lia].
      unfold ammo_weapons in *.
      destruct (List.filter has_ammo_left (weapons (heated mech ws)))
        as [| w l] eqn:Hf; [congruence |].
      destruct (random_choice_ret rnd (w :: l) w (S (S p1)))
        as (x & Hx & Hc); [discriminate |].
      exists x. split; [exact Hx |]. rewrite Hc.
      split; [reflexivity |].
      assert (Hin : In x (List.filter has_ammo_left
                            (weapons (heated mech ws)))).
      { rewrite Hf. apply list_elem_of_In.
        eapply list_elem_of_lookup_2. exact Hx. }
      apply filter_In in Hin as [Hin Hleft].
      apply find_ammo_first; assumption.
  - intros [Hc | Hn].
    + apply ammo_check_cool. exact Hc.
    + apply ammo_check_no_ammo. apply existsb_filter_nil. exact Hn.
Qed.

Lemma apply_heat_phase_ammo_check_witness :
  apply_heat_phase rnd_zero 0 case_mech [] 0%nat
    = Ret (heated case_mech [], 4%nat)
  /\ exists victim,
       ammo_weapons (heated twin_gun_mech [])
         !! (replay [2; 2; 2; 2; 1]%nat rnd_two 4
             mod length (ammo_weapons (heated twin_gun_mech [])))%nat
       = Some victim
       /\ apply_heat_phase (replay [2; 2; 2; 2; 1]%nat rnd_two) 0
            twin_gun_mech [] 0%nat
          = _ammo_explosion (replay [2; 2; 2; 2; 1]%nat rnd_two) 0
              (heated twin_gun_mech []) (location victim)
              ("Ammo " +:+ wname (weapon victim)) 5%nat.
Proof.
  split.
  - apply (proj1 (proj1 (apply_heat_phase_ammo_check
                           rnd_zero 0 case_mech [] 0%nat 2%nat
                           ltac:(reflexivity) ltac:(reflexivity))
                   ltac:(discriminate) ltac:(discriminate))).
    reflexivity.
  - destruct (proj2 (proj1 (apply_heat_phase_ammo_check
                              (replay [2; 2; 2; 2; 1]%nat rnd_two) 0
                              twin_gun_mech [] 0%nat 2%nat
                              ltac:(reflexivity) ltac:(reflexivity))
                      ltac:(discriminate) ltac:(discriminate))
                ltac:(discriminate))
      as (victim & Hv & Hrun & _).
    exists victim. split; [exact Hv | exact Hrun].
Defined.

(** C3 as first stated fails three times over.  At heat 18 with ammo aboard
    a roll of 6, "4 or more", does not avoid the explosion: the ammo is
    consumed and the location is destroyed.  At heat 30 with ammo aboard no
    die is rolled at all: the phase ends in the shutdown with the cursor
    where it was.  And the explosion triggered need not be the chosen
    weapon's: with two guns of one name in one location, when the second
    is chosen it is the first that loses its rounds. *)
Lemma ammo_roll_counterexample :
  two_dice rnd_two 2 = 6 /\
  (exists m', apply_heat_phase rnd_two 0 case_mech [] 0%nat = Ret (m', 5%nat)
              /\ loc_destroyed m' "LT" = true
              /\ map ammo_remaining (weapons m') = [Some 0]) /\
  (existsb has_ammo_left (weapons case_mech) = true /\
   apply_heat_phase rnd_two 0 (set_current_heat 30 case_mech) [] 0%nat
     = Ret (set_active false (set_current_heat 30 case_mech), 0%nat)) /\
  (map ammo_remaining (weapons twin_gun_mech) = [Some 5; Some 3] /\
   (ammo_remaining <$>
      ammo_weapons (heated twin_gun_mech [])
        !! (replay [2; 2; 2; 2; 1]%nat rnd_two 4
            mod length (ammo_weapons (heated twin_gun_mech [])))%nat)
   = Some (Some 3) /\
   exists m',
     apply_heat_phase (replay [2; 2; 2; 2; 1]%nat rnd_two) 0 twin_gun_mech []
       0%nat = Ret (m', 5%nat)
     /\ map ammo_remaining (weapons m') = [Some 0; Some 3]).
Proof.
  split; [reflexivity |]. split; [| split].
  - eexists. split; [vm_compute; reflexivity |].
    split; vm_compute; reflexivity.
  - split; vm_compute; reflexivity.
  - split; [reflexivity |]. split; [vm_compute; reflexivity |].
    eexists. split; vm_compute; reflexivity.
Qed.

(** ** Contained ammo explosions *)

Lemma destroy_weapons_in_spec (location_id : string)
    (ws : list MountedWeapon) (mw : MountedWeapon) :
  mw ∈ destroy_weapons_in location_id ws -> location mw = location_id ->
  mw_destroyed mw = true.
Proof.
  unfold destroy_weapons_in. intros Hin Hloc.
  apply list_elem_of_fmap in Hin as (mw0 & -> & _).
  destruct (String.eqb_spec (location mw0) location_id) as [He | Hne].
  - reflexivity.
  - contradiction.
Qed.

Lemma ammo_explosion_case_ret (rnd : nat -> nat) (fuel : nat) (m : Mech)
    (location_id ammo_slot : string) (loc : Location) (p : nat) :
  locations m !! location_id = Some loc -> has_case loc = true ->
  _ammo_explosion rnd fuel m location_id ammo_slot p =
    Ret (case_contain location_id loc
           (set_weapons
              (snd (find_ammo location_id ammo_slot (weapons m))) m), p).
Proof.
  intros Hl Hc. unfold _ammo_explosion, ammo_explosion_body, bind, get_loc.
  rewrite Hl. cbn. destruct (find_ammo _ _ _) as [d ws]. cbn.
  rewrite Hc. reflexivity.
Qed.

Lemma loc_destroyed_lookup (m : Mech) (id : string) (l : Location) :
  locations m !! id = Some l -> loc_destroyed m id = destroyed l.
Proof. intros H. unfold loc_destroyed. rewrite H. reflexivity. Qed.

(** C10.  An ammo explosion in a location with CASE zeroes the location's
    front armor, rear armor and structure, marks the location and every
    weapon mounted there destroyed, and leaves the [active] flag as it was,
    consuming no random draw.  When the location is the center torso, the
    head, or a side torso of an XL-engine mech, [is_dead] is true afterwards
    although [active] has not changed; the winner determination of [fight],
    which reads [active] alone, then still counts an active mech as alive:
    against an inactive opponent it wins. *)
Theorem ammo_explosion_case_keeps_active (rnd : nat -> nat) (fuel : nat)
    (m : Mech) (location_id ammo_slot : string) (loc : Location) (p : nat) :
  locations m !! location_id = Some loc -> has_case loc = true ->
  exists m' loc',
    _ammo_explosion rnd fuel m location_id ammo_slot p = Ret (m', p)
    /\ locations m' !! location_id = Some loc'
    /\ current_armor loc' = 0 /\ rear_current_armor loc' = 0
    /\ current_structure loc' = 0 /\ destroyed loc' = true
    /\ (forall mw, mw ∈ weapons m' -> location mw = location_id ->
        mw_destroyed mw = true)
    /\ active m' = active m
    /\ (location_id = "CT" \/ location_id = "HD"
        \/ (engine_type m = "xl"
            /\ (location_id = "LT" \/ location_id = "RT")) ->
        is_dead m' = true
        /\ (active m = true -> forall opponent a_start b_start,
            active opponent = false ->
            determine_winner m' opponent a_start b_start = Some SideA)).
Proof.
  intros Hl Hc.
  eexists. eexists.
  split; [apply (ammo_explosion_case_ret rnd fuel m location_id ammo_slot
                   loc p Hl Hc) |].
  set (ws := snd (find_ammo location_id ammo_slot (weapons m))).
  assert (Hlk : forall q, locations (case_contain location_id q
                                       (set_weapons ws m)) !! location_id
                 = Some (set_destroyed true (set_rear_current_armor 0
                           (set_current_armor 0
                              (set_current_structure 0 q))))).
  { intros q. unfold case_contain. cbn. apply lookup_insert_eq. }
  split; [apply Hlk |].
  split; [reflexivity |]. split; [reflexivity |]. split; [reflexivity |].
  split; [reflexivity |].
  split.
  { intros mw Hin. eapply destroy_weapons_in_spec. exact Hin. }
  split; [reflexivity |].
  intros Hwhere.
  assert (Hdead : is_dead (case_contain location_id loc (set_weapons ws m))
                  = true).
  { unfold is_dead.
    destruct (negb (active _)); [reflexivity |].
    assert (Hd : loc_destroyed (case_contain location_id loc
                                  (set_weapons ws m)) location_id = true).
    { rewrite (loc_destroyed_lookup _ _ _ (Hlk loc)). reflexivity. }
    destruct Hwhere as [-> | [-> | [Hxl [-> | ->]]]].
    - rewrite Hd. reflexivity.
    - rewrite Hd. destruct (loc_destroyed _ "CT"); reflexivity.
    - destruct (loc_destroyed _ "CT"); [reflexivity |].
      destruct (loc_destroyed _ "HD"); [reflexivity |].
      change (engine_type (case_contain "LT" loc (set_weapons ws m)))
        with (engine_type m).
      rewrite Hxl, Hd. reflexivity.
    - destruct (loc_destroyed _ "CT"); [reflexivity |].
      destruct (loc_destroyed _ "HD"); [reflexivity |].
      change (engine_type (case_contain "RT" loc (set_weapons ws m)))
        with (engine_type m).
      rewrite Hxl, Hd. rewrite orb_true_r. reflexivity. }
  split; [exact Hdead |].
  intros Hact opponent a_start b_start Hopp.
  unfold determine_winner.
  change (active (case_contain location_id loc (set_weapons ws m)))
    with (active m).
  rewrite Hact, Hopp. reflexivity.
Qed.

Lemma ammo_explosion_case_keeps_active_witness :
  exists m' loc',
    _ammo_explosion rnd_zero 0 case_mech "LT" "Ammo AC/20" 0%nat
      = Ret (m', 0%nat)
    /\ locations m' !! "LT" = Some loc'
    /\ current_armor loc' = 0 /\ rear_current_armor loc' = 0
    /\ current_structure loc' = 0 /\ destroyed loc' = true
    /\ (forall mw, mw ∈ weapons m' -> location mw = "LT" ->
        mw_destroyed mw = true)
    /\ active m' = active case_mech
    /\ ("LT" = "CT" \/ "LT" = "HD"
        \/ (engine_type case_mech = "xl" /\ ("LT" = "LT" \/ "LT" = "RT")) ->
        is_dead m' = true
        /\ (active case_mech = true -> forall opponent a_start b_start,
            active opponent = false ->
            determine_winner m' opponent a_start b_start = Some SideA)).
Proof.
  apply (ammo_explosion_case_keeps_active rnd_zero 0 case_mech "LT"
           "Ammo AC/20" (mk_loc "LT" 8 4 12 ["AC/20"; "Ammo AC/20"] true)
           0%nat).
  - vm_compute. reflexivity.
  - reflexivity.
Defined.

(** ** Movement *)

Lemma heat_neutral_dpr_cases (m : Mech) (d : Z) (p : nat) :
  (exists q, heat_neutral_dpr m d p = Ret (q, p))
  \/ heat_neutral_dpr m d p = Raise TypeError.
Proof.
  unfold heat_neutral_dpr. cbv zeta.
  destruct (_ <=? 0); [left; eexists; reflexivity | right; reflexivity].
Qed.

(** Whenever [optimal_movement] returns, the side with the higher DPR walks
    and the other runs, both walk on a tie, and the new distance is the old
    one minus the net closure, floored at 1. *)
Lemma optimal_movement_ret (mech_a mech_b : Mech) (d : Z) (p p' : nat)
    (r : string * Z * string * Z * Z) :
  optimal_movement mech_a mech_b d p = Ret (r, p') ->
  exists dpr_a dpr_b,
    heat_neutral_dpr mech_a d p = Ret (dpr_a, p)
    /\ heat_neutral_dpr mech_b d p = Ret (dpr_b, p)
    /\ p' = p
    /\ r = if Qgtb dpr_a dpr_b then
             ("walk", effective_walk mech_a, "run", effective_run mech_b,
              Z.max 1 (d - (effective_run mech_b - effective_walk mech_a)))
           else if Qgtb dpr_b dpr_a then
             ("run", effective_run mech_a, "walk", effective_walk mech_b,
              Z.max 1 (d - (effective_run mech_a - effective_walk mech_b)))
           else
             ("walk", effective_walk mech_a, "walk", effective_walk mech_b,
              Z.max 1 (d - (effective_walk mech_a + effective_walk mech_b))).
Proof.
  unfold optimal_movement, bind. cbv zeta.
  destruct (heat_neutral_dpr_cases mech_a d p) as [[qa Ha] | Ha];
    rewrite Ha; [| discriminate].
  destruct (heat_neutral_dpr_cases mech_b d p) as [[qb Hb] | Hb];
    rewrite Hb; [| discriminate].
  fold (effective_walk mech_a) (effective_run mech_a)
       (effective_walk mech_b) (effective_run mech_b).
  intros H. exists qa, qb. split; [reflexivity |]. split; [reflexivity |].
  destruct (Qgtb qa qb); [| destruct (Qgtb qb qa)];
    cbn in H; inversion H; subst; split; reflexivity.
Qed.

Lemma optimal_movement_cases (mech_a mech_b : Mech) (d : Z) (p : nat) :
  (exists r, optimal_movement mech_a mech_b d p = Ret (r, p))
  \/ optimal_movement mech_a mech_b d p = Raise TypeError.
Proof.
  unfold optimal_movement, bind. cbv zeta.
  destruct (heat_neutral_dpr_cases mech_a d p) as [[qa Ha] | Ha];
    rewrite Ha; [| right; reflexivity].
  destruct (heat_neutral_dpr_cases mech_b d p) as [[qb Hb] | Hb];
    rewrite Hb; [| right; reflexivity].
  left. destruct (Qgtb qa qb); [| destruct (Qgtb qb qa)];
    eexists; reflexivity.
Qed.

(** The distance does not grow when the runner's hexes are at least the
    kiter's, and never on a tie. *)
Lemma optimal_movement_closes (mech_a mech_b : Mech) (d : Z) (p p' : nat)
    (a_mode b_mode : string) (a_hexes b_hexes d' : Z) :
  1 <= d ->
  effective_walk mech_a <= effective_run mech_b ->
  effective_walk mech_b <= effective_run mech_a ->
  optimal_movement mech_a mech_b d p
    = Ret (a_mode, a_hexes, b_mode, b_hexes, d', p') ->
  1 <= d' <= d.
Proof.
  intros Hd Hab Hba H.
  apply optimal_movement_ret in H as (qa & qb & _ & _ & _ & Hr).
  assert (0 <= effective_walk mech_a) by (unfold effective_walk; lia).
  assert (0 <= effective_walk mech_b) by (unfold effective_walk; lia).
  destruct (Qgtb qa qb); [| destruct (Qgtb qb qa)];
    inversion Hr; subst; lia.
Qed.

(** C5.  Under the range-optimizing policy the distance can grow: the mech
    with the higher DPR (4 against 2) kites at a walk of 8 hexes, the other
    closes at a run of 3, the net closure is 3 - 8 = -5 and the range opens
    from 3 to 8. *)
Theorem optimal_movement_opens_range :
  heat_neutral_dpr skirmisher 3 0%nat = Ret (inject_Z 4, 0%nat)
  /\ heat_neutral_dpr plodder 3 0%nat = Ret (inject_Z 2, 0%nat)
  /\ effective_walk skirmisher = 8 /\ effective_run plodder = 3
  /\ optimal_movement skirmisher plodder 3 0%nat
     = Ret ("walk", 8, "run", 3, 8, 0%nat)
  /\ 3 < 8.
Proof.
  split; [vm_compute; reflexivity |].
  split; [vm_compute; reflexivity |].
  split; [reflexivity |]. split; [reflexivity |].
  split; [vm_compute; reflexivity | reflexivity].
Qed.

(** The same function raises as soon as a weapon that produces heat is in
    range: [heat_neutral_dpr] then calls [calculate_heat_dissipation] with
    one argument too many. *)
Lemma optimal_movement_raises :
  optimal_movement duelist duelist 6 0%nat = Raise TypeError.
Proof. vm_compute. reflexivity. Qed.

(** ** The fight loop *)

Lemma select_weapons_to_fire_cases (m : Mech) (d : Z) (p : nat) :
  select_weapons_to_fire m d p = Ret ([], p)
  \/ select_weapons_to_fire m d p = Raise TypeError.
Proof.
  unfold select_weapons_to_fire.
  destruct (available_refs m d); [left | right]; reflexivity.
Qed.

Lemma movement_phase_cases (movement_ai : string) (st : FightState)
    (p : nat) :
  (exists mv, movement_phase movement_ai st p = Ret (mv, p))
  \/ movement_phase movement_ai st p = Raise TypeError.
Proof.
  unfold movement_phase.
  destruct (String.eqb movement_ai "optimal").
  - unfold bind.
    destruct (optimal_movement_cases (fs_a st) (fs_b st) (fs_distance st) p)
      as [[[[[[a_mode a_hexes] b_mode] b_hexes] new_dist] ->] | ->];
      [left; eexists; reflexivity | right; reflexivity].
  - destruct (choose_movement (fs_a st)), (choose_movement (fs_b st)).
    left. eexists. reflexivity.
Qed.

Lemma play_round_raises (rnd : nat -> nat)
    (resolve_attack : Mech -> nat -> Mech -> Z -> M (Mech * Mech * Z))
    (fuel : nat) (movement_ai : string) (closing_rate round_num : Z)
    (st : FightState) (mv : string * Z * string * Z * option Z) (p : nat) :
  active (fs_a st) = true ->
  play_round rnd resolve_attack fuel movement_ai closing_rate round_num st
    mv p = Raise TypeError.
Proof.
  intros Ha. destruct mv as [[[[a_mode a_hexes] b_mode] b_hexes] new_dist].
  unfold play_round. cbv zeta. unfold bind.
  destruct (select_weapons_to_fire_cases
              (set_movement a_mode a_hexes (fs_a st))
              (match new_dist with Some d => d | None => fs_distance st end)
              p) as [-> | ->]; [| reflexivity].
  destruct (select_weapons_to_fire_cases
              (set_movement b_mode b_hexes (fs_b st))
              (match new_dist with Some d => d | None => fs_distance st end)
              p) as [-> | ->]; [| reflexivity].
  cbn. rewrite Ha. reflexivity.
Qed.

Lemma fight_round_raises (rnd : nat -> nat)
    (resolve_attack : Mech -> nat -> Mech -> Z -> M (Mech * Mech * Z))
    (fuel : nat) (movement_ai : string) (closing_rate round_num : Z)
    (st : FightState) (p : nat) :
  active (fs_a st) = true ->
  fight_round rnd resolve_attack fuel movement_ai closing_rate round_num st p
    = Raise TypeError.
Proof.
  intros Ha. unfold fight_round, bind.
  destruct (movement_phase_cases movement_ai st p) as [[mv ->] | ->];
    [| reflexivity].
  apply play_round_raises. exact Ha.
Qed.

(** C1.  A fight between two active mechs with a round cap of at least 1
    does not return a result: the first round raises [TypeError], whatever
    the oracle, the starting distance, the movement policy and the
    resolution of single attacks. *)
Theorem fight_raises_TypeError (rnd : nat -> nat)
    (resolve_attack : Mech -> nat -> Mech -> Z -> M (Mech * Mech * Z))
    (fuel : nat) (mech_a mech_b : Mech) (distance max_rounds : Z)
    (closing_rate : Z) (movement_ai : string) (p : nat) :
  active mech_a = true -> active mech_b = true -> 1 <= max_rounds ->
  fight rnd resolve_attack fuel mech_a mech_b distance max_rounds
    closing_rate movement_ai p = Raise TypeError.
Proof.
  intros Ha Hb Hr. unfold fight, bind. cbv zeta.
  unfold round_range.
  destruct (Z.to_nat max_rounds) as [| n] eqn:Hn; [lia |].
  cbn [seq map fight_rounds fs_a fs_b].
  rewrite Ha, Hb. cbn [negb orb]. unfold bind.
  rewrite fight_round_raises; [reflexivity | exact Ha].
Qed.

Lemma fight_raises_TypeError_witness :
  fight rnd_zero no_attack 0 duelist duelist 6 50 0 "closure" 0%nat
    = Raise TypeError.
Proof.
  apply (fight_raises_TypeError rnd_zero no_attack 0 duelist duelist 6 50 0
           "closure" 0%nat); [reflexivity | reflexivity | discriminate].
Defined.

(** What does hold of [fight]: with a side already inactive, or a round cap
    below 1 and hit-point fractions within the range of a float, no round
    is played and the result is the winner determination on the mechs as
    given. *)
Lemma fight_no_round (rnd : nat -> nat)
    (resolve_attack : Mech -> nat -> Mech -> Z -> M (Mech * Mech * Z))
    (fuel : nat) (mech_a mech_b : Mech) (distance max_rounds : Z)
    (closing_rate : Z) (movement_ai : string) (p : nat) :
  active mech_a = false \/ active mech_b = false
  \/ (max_rounds <= 0
      /\ is_infinite (hp_fraction (total_hp mech_a) (max_total_hp mech_a))
         = false
      /\ is_infinite (hp_fraction (total_hp mech_b) (max_total_hp mech_b))
         = false) ->
  exists res,
    fight rnd resolve_attack fuel mech_a mech_b distance max_rounds
      closing_rate movement_ai p = Ret (res, p)
    /\ rounds res = 0
    /\ winner res = determine_winner mech_a mech_b (max_total_hp mech_a)
                      (max_total_hp mech_b).
Proof.
  intros H. unfold fight, bind. cbv zeta.
  assert (Hst : fight_rounds rnd resolve_attack fuel movement_ai closing_rate
                  (round_range max_rounds)
                  (mkFightState mech_a mech_b distance 0 0 0) p
                = Ret (mkFightState mech_a mech_b distance 0 0 0, p)).
  { unfold round_range.
    destruct (Z.to_nat max_rounds) as [| n] eqn:Hn; [reflexivity |].
    cbn [seq map fight_rounds fs_a fs_b].
    destruct H as [-> | [-> | [Hm _]]]; [reflexivity | | lia].
    rewrite orb_true_r. reflexivity. }
  rewrite Hst. cbn [fs_a fs_b].
  assert (Hck : fraction_check mech_a mech_b (max_total_hp mech_a)
                  (max_total_hp mech_b) p = Ret (tt, p)).
  { unfold fraction_check.
    destruct H as [-> | [-> | (_ & -> & ->)]];
      [reflexivity | rewrite andb_false_r; reflexivity |].
    destruct (_ && _); reflexivity. }
  rewrite Hck. eexists. split; [reflexivity |]. split; reflexivity.
Qed.

(** The winner determination reads [active] first: the only active side
    wins, two inactive sides draw, and two active sides are compared on
    their remaining-HP fractions. *)
Lemma determine_winner_cases (mech_a mech_b : Mech) (sa sb : Z) :
  (active mech_a = true -> active mech_b = false ->
   determine_winner mech_a mech_b sa sb = Some SideA) /\
  (active mech_a = false -> active mech_b = true ->
   determine_winner mech_a mech_b sa sb = Some SideB) /\
  (active mech_a = false -> active mech_b = false ->
   determine_winner mech_a mech_b sa sb = None) /\
  (active mech_a = true -> active mech_b = true ->
   determine_winner mech_a mech_b sa sb =
     if float_gt (hp_fraction (total_hp mech_a) sa)
                 (hp_fraction (total_hp mech_b) sb) then Some SideA
     else if float_gt (hp_fraction (total_hp mech_b) sb)
                      (hp_fraction (total_hp mech_a) sa) then Some SideB
     else None).
Proof.
  unfold determine_winner.
  repeat split; intros Ha Hb; rewrite Ha, Hb; reflexivity.
Qed.

(** ** The damage pipeline: one step of [apply_damage] *)

Lemma put_loc_put_loc (id : string) (a b : Location) (m : Mech) :
  put_loc id a (put_loc id b m) = put_loc id a m.
Proof.
  unfold put_loc, set_locations. cbn. rewrite insert_insert_eq. reflexivity.
Qed.

Lemma lookup_put_loc (id : string) (l : Location) (m : Mech) :
  locations (put_loc id l m) !! id = Some l.
Proof. unfold put_loc. cbn. apply lookup_insert_eq. Qed.

Lemma lookup_put_loc_ne (id k : string) (l : Location) (m : Mech) :
  id <> k -> locations (put_loc id l m) !! k = locations m !! k.
Proof. intros H. unfold put_loc. cbn. apply lookup_insert_ne. exact H. Qed.

Lemma absorb_armor_keeps (id : string) (rear : bool) (loc : Location)
    (dmg : Z) :
  let loc' := fst (absorb_armor id rear loc dmg) in
  loc_name loc' = loc_name loc
  /\ current_structure loc' = current_structure loc
  /\ destroyed loc' = destroyed loc
  /\ crittable_slots loc' = crittable_slots loc
  /\ has_case loc' = has_case loc.
Proof.
  unfold absorb_armor.
  destruct (rear && REAR_ARMOR_LOCATIONS id);
    [destruct (0 <? rear_current_armor loc)
    | destruct (0 <? current_armor loc)];
    cbn; repeat split; reflexivity.
Qed.

(** Past a non-negative armor pool smaller than the damage, what is left is
    the damage minus the pool. *)
Lemma past_armor_excess (id : string) (rear : bool) (loc : Location)
    (dmg : Z) :
  0 <= armor_pool id rear loc -> armor_pool id rear loc <= dmg ->
  past_armor id rear loc dmg = dmg - armor_pool id rear loc.
Proof.
  unfold past_armor, absorb_armor, armor_pool.
  destruct (rear && REAR_ARMOR_LOCATIONS id); intros H0 H1.
  - destruct (Z.ltb_spec 0 (rear_current_armor loc)); cbn; lia.
  - destruct (Z.ltb_spec 0 (current_armor loc)); cbn; lia.
Qed.

(** A hit on a destroyed location is handed on whole. *)
Lemma apply_damage_on_destroyed (rnd : nat -> nat) (f : nat) (m : Mech)
    (id : string) (dmg : Z) (rear : bool) (p : nat) (loc : Location) :
  locations m !! id = Some loc -> destroyed loc = true ->
  apply_damage rnd (S f) m id dmg rear p =
    match transfer_to loc with
    | Some transfer => apply_damage rnd f m transfer dmg false p
    | None => Ret (m, p)
    end.
Proof.
  intros Hl Hd. cbn [apply_damage]. unfold bind, get_loc at 1.
  rewrite Hl. cbn [ret]. rewrite Hd.
  destruct (transfer_to loc); reflexivity.
Qed.

(** A hit that gets past the armor with at least the structure left. *)
Lemma apply_damage_depletes (rnd : nat -> nat) (f : nat) (m : Mech)
    (id : string) (dmg : Z) (rear : bool) (p : nat) (loc : Location) :
  locations m !! id = Some loc -> destroyed loc = false ->
  0 < past_armor id rear loc dmg ->
  current_structure loc <= past_armor id rear loc dmg ->
  apply_damage rnd (S f) m id dmg rear p =
    let m' := wrecked id rear loc dmg m in
    let excess := past_armor id rear loc dmg - current_structure loc in
    if is_dead m' then Ret (set_active false m', p)
    else if 0 <? excess then
      match transfer_to loc with
      | Some transfer => apply_damage rnd f m' transfer excess false p
      | None => Ret (m', p)
      end
    else Ret (m', p).
Proof.
  intros Hl Hd Hpast Hcs. unfold wrecked, past_armor in *.
  destruct (absorb_armor_keeps id rear loc dmg) as (Hn & Hs & _).
  cbn [apply_damage]. unfold bind, get_loc at 1.
  rewrite Hl. cbn [ret]. rewrite Hd.
  destruct (absorb_armor id rear loc dmg) as [loc1 d1] eqn:Ha.
  cbn [fst snd] in *. cbv zeta.
  destruct (Z.leb_spec d1 0); [lia |].
  rewrite Hs. rewrite (Z.min_l (current_structure loc) d1) by lia.
  rewrite Z.sub_diag.
  replace ((0 <? current_structure loc)
           && (0 <? current_structure (set_current_structure 0 loc1)))
    with false by (cbn; rewrite andb_false_r; reflexivity).
  cbn [ret]. unfold get_loc. rewrite lookup_put_loc. cbn [ret].
  cbn [current_structure set_current_structure]. cbn [Z.leb Z.compare].
  unfold mark_destroyed. rewrite !put_loc_put_loc.
  repeat match goal with
         | |- context [weapons (put_loc ?a ?b ?c)] =>
             change (weapons (put_loc a b c)) with (weapons c)
         end.
  unfold transfer_to.
  change (loc_name (set_current_structure 0 loc1)) with (loc_name loc1).
  rewrite Hn.
  destruct (is_dead _); [reflexivity |].
  destruct (0 <? _); [| reflexivity].
  destruct (TRANSFER_MAP _); reflexivity.
Qed.

(** Sums over the locations after one location is overwritten. *)
Lemma sum_locations_put_loc (g : Location -> Z) (id : string)
    (l l' : Location) (m : Mech) :
  locations m !! id = Some l ->
  sum_locations g (put_loc id l' m) = sum_locations g m - g l + g l'.
Proof.
  intros Hl. unfold sum_locations, put_loc. cbn.
  rewrite <- insert_delete_eq.
  rewrite map_fold_insert_L.
  - rewrite (map_fold_delete_L _ _ id l (locations m)).
    + lia.
    + intros. lia.
    + exact Hl.
  - intros. lia.
  - apply lookup_delete_eq.
Qed.

Lemma total_hp_put_loc (id : string) (l l' : Location) (m : Mech) :
  locations m !! id = Some l ->
  total_hp (put_loc id l' m) = total_hp m - loc_total_hp l + loc_total_hp l'.
Proof.
  intros Hl. unfold total_hp, total_armor, total_structure.
  rewrite !(sum_locations_put_loc _ id l l' m Hl).
  unfold loc_total_hp. lia.
Qed.

(** The wrecked location has lost the armor pool that was hit and all of
    its structure, and nothing else. *)
Lemma wrecked_total_hp (id : string) (rear : bool) (loc : Location)
    (dmg : Z) (m : Mech) :
  locations m !! id = Some loc ->
  0 <= armor_pool id rear loc -> armor_pool id rear loc <= dmg ->
  total_hp (wrecked id rear loc dmg m)
    = total_hp m - armor_pool id rear loc - current_structure loc.
Proof.
  intros Hl H0 H1. unfold wrecked, mark_destroyed.
  change (total_hp (set_weapons ?ws ?mm)) with (total_hp mm).
  rewrite (total_hp_put_loc id loc _ m Hl).
  unfold loc_total_hp, absorb_armor, armor_pool in *.
  destruct (rear && REAR_ARMOR_LOCATIONS id).
  - destruct (Z.ltb_spec 0 (rear_current_armor loc)); cbn; lia.
  - destruct (Z.ltb_spec 0 (current_armor loc)); cbn; lia.
Qed.

(** C6, as amended.  A hit on a destroyed location is handed on whole to
    the location's transfer target, and is dropped when it has none.  A hit
    that exceeds the armor pool and the structure of a live location wrecks
    it; the location has absorbed exactly that armor and structure; if the
    mech is then dead it is made inactive and the excess is dropped, and
    otherwise the whole excess is handed on to the transfer target by the
    same function, being dropped only when the location has no target. *)
Theorem apply_damage_transfers (rnd : nat -> nat) (f : nat) (m : Mech)
    (id : string) (dmg : Z) (rear : bool) (p : nat) (loc : Location) :
  locations m !! id = Some loc ->
  (destroyed loc = true ->
   apply_damage rnd (S f) m id dmg rear p =
     match transfer_to loc with
     | Some transfer => apply_damage rnd f m transfer dmg false p
     | None => Ret (m, p)
     end) /\
  (destroyed loc = false ->
   0 <= armor_pool id rear loc -> 0 <= current_structure loc ->
   armor_pool id rear loc + current_structure loc < dmg ->
   let excess := dmg - armor_pool id rear loc - current_structure loc in
   let m' := wrecked id rear loc dmg m in
   total_hp m - total_hp m' + excess = dmg /\
   apply_damage rnd (S f) m id dmg rear p =
     if is_dead m' then Ret (set_active false m', p)
     else match transfer_to loc with
          | Some transfer => apply_damage rnd f m' transfer excess false p
          | None => Ret (m', p)
          end).
Proof.
  intros Hl. split.
  - intros Hd. apply (apply_damage_on_destroyed rnd f m id dmg rear p loc Hl Hd).
  - intros Hd Ha Hs Hex. cbv zeta.
    split.
    + rewrite (wrecked_total_hp id rear loc dmg m Hl) by lia. lia.
    + pose proof (past_armor_excess id rear loc dmg Ha ltac:(lia)) as Hp.
      rewrite (apply_damage_depletes rnd f m id dmg rear p loc Hl Hd)
        by (rewrite Hp; lia).
      cbv zeta. rewrite Hp.
      destruct (Z.ltb_spec 0 (dmg - armor_pool id rear loc
                              - current_structure loc)); [| lia].
      reflexivity.
Qed.

Lemma apply_damage_transfers_witness :
  (total_hp chain_mech - total_hp (wrecked "LA" false
                                     (mk_loc "LA" 0 0 1 [] false) 10
                                     chain_mech) + (10 - 0 - 1) = 10 /\
   apply_damage rnd_zero 3 chain_mech "LA" 10 false 0%nat =
     apply_damage rnd_zero 2
       (wrecked "LA" false (mk_loc "LA" 0 0 1 [] false) 10 chain_mech)
       "LT" 9 false 0%nat) /\
  apply_damage rnd_zero 3
    (wrecked "LA" false (mk_loc "LA" 0 0 1 [] false) 10 chain_mech)
    "LA" 7 false 0%nat =
    apply_damage rnd_zero 2
      (wrecked "LA" false (mk_loc "LA" 0 0 1 [] false) 10 chain_mech)
      "LT" 7 false 0%nat.
Proof.
  split.
  - destruct (proj2 (apply_damage_transfers rnd_zero 2 chain_mech "LA" 10
                       false 0%nat (mk_loc "LA" 0 0 1 [] false)
                       ltac:(vm_compute; reflexivity))
                ltac:(reflexivity) ltac:(discriminate) ltac:(discriminate)
                ltac:(reflexivity)) as [Hhp Hrun].
    split; [exact Hhp |]. rewrite Hrun. vm_compute. reflexivity.
  - apply (proj1 (apply_damage_transfers rnd_zero 2
                    (wrecked "LA" false (mk_loc "LA" 0 0 1 [] false) 10
                       chain_mech)
                    "LA" 7 false 0%nat
                    (set_destroyed true
                       (set_current_structure 0 (mk_loc "LA" 0 0 1 [] false)))
                    ltac:(vm_compute; reflexivity))).
    reflexivity.
Defined.

(** A forced chain LA -> LT -> CT: of 10 points the arm takes 1, the side
    torso 3 and the center torso 6, and the mech has lost 10 in all. *)
Lemma forced_chain_conserves :
  exists m', apply_damage rnd_zero 3 chain_mech "LA" 10 false 0%nat
             = Ret (m', 0%nat)
    /\ loc_destroyed m' "LA" = true /\ loc_destroyed m' "LT" = true
    /\ (current_armor <$> locations m' !! "CT") = Some 4
    /\ total_hp chain_mech - total_hp m' = 10.
Proof.
  eexists. split; [vm_compute; reflexivity |].
  repeat split; vm_compute; reflexivity.
Qed.

(** C6 as first stated fails: on an XL-engine mech a 5-point hit on a left
    torso with no armor and 1 point of structure destroys it and kills the
    mech; the 4 points of excess are dropped although the left torso has a
    transfer target, and the center torso is untouched. *)
Lemma excess_dropped_counterexample :
  exists m' lt,
    apply_damage rnd_zero 3 xl_mech "LT" 5 false 0%nat = Ret (m', 0%nat)
    /\ locations xl_mech !! "LT" = Some lt
    /\ transfer_to lt = Some "CT"
    /\ locations m' !! "CT" = locations xl_mech !! "CT"
    /\ total_hp xl_mech - total_hp m' = 1.
Proof.
  eexists. eexists. split; [vm_compute; reflexivity |].
  split; [vm_compute; reflexivity |].
  repeat split; vm_compute; reflexivity.
Qed.

(** ** The damage pipeline only wears a mech down *)

Lemma bind_ret_inv {A B} (c : M A) (k : A -> M B) (p : nat) (r : B * nat) :
  bind c k p = Ret r -> exists a p1, c p = Ret (a, p1) /\ k a p1 = Ret r.
Proof.
  unfold bind. destruct (c p) as [[a p1] | |]; [| discriminate ..].
  intros H. exists a, p1. split; [reflexivity | exact H].
Qed.

Lemma bind_ret {A B} (c : M A) (k : A -> M B) (p p1 : nat) (a : A) :
  c p = Ret (a, p1) -> bind c k p = k a p1.
Proof. intros H. unfold bind. rewrite H. reflexivity. Qed.

Lemma get_loc_ret (m : Mech) (id : string) (l : Location) (p : nat) :
  locations m !! id = Some l -> get_loc m id p = Ret (l, p).
Proof. intros H. unfold get_loc. rewrite H. reflexivity. Qed.

Lemma get_loc_ret_inv (m : Mech) (id : string) (p : nat) (l : Location)
    (p' : nat) :
  get_loc m id p = Ret (l, p') -> locations m !! id = Some l /\ p' = p.
Proof.
  unfold get_loc. destruct (locations m !! id); [| discriminate].
  cbn. intros H. inversion H. split; reflexivity.
Qed.

Lemma loc_wear_refl (l : Location) : loc_wear l l.
Proof. unfold loc_wear. repeat split; auto. Qed.

Lemma loc_wear_trans (a b c : Location) :
  loc_wear a b -> loc_wear b c -> loc_wear a c.
Proof.
  unfold loc_wear. intros (H1 & H2 & H3 & H4 & H5) (G1 & G2 & G3 & G4 & G5).
  repeat split; try congruence; auto. lia.
Qed.

Lemma mw_wear_refl (w : MountedWeapon) : mw_wear w w.
Proof. unfold mw_wear. repeat split; auto. Qed.

Lemma mw_wear_trans (a b c : MountedWeapon) :
  mw_wear a b -> mw_wear b c -> mw_wear a c.
Proof.
  unfold mw_wear. intros (H1 & H2 & H3) (G1 & G2 & G3).
  repeat split; try congruence; auto.
Qed.

Lemma Forall2_mw_wear_refl (ws : list MountedWeapon) : Forall2 mw_wear ws ws.
Proof. induction ws; constructor; auto using mw_wear_refl. Qed.

Lemma Forall2_mw_wear_trans (a b c : list MountedWeapon) :
  Forall2 mw_wear a b -> Forall2 mw_wear b c -> Forall2 mw_wear a c.
Proof.
  intros H. revert c. induction H; intros c Hc; inversion Hc; subst;
    constructor; eauto using mw_wear_trans.
Qed.

Lemma wear_refl (m : Mech) : wear m m.
Proof.
  constructor; auto using Forall2_mw_wear_refl.
  intros k l H. exists l. split; [exact H | apply loc_wear_refl].
Qed.

Lemma wear_trans (a b c : Mech) : wear a b -> wear b c -> wear a c.
Proof.
  intros [L1 D1 W1 E1 T1] [L2 D2 W2 E2 T2]. constructor.
  - intros k l H. destruct (L1 k l H) as (l1 & H1 & Hw1).
    destruct (L2 k l1 H1) as (l2 & H2 & Hw2).
    exists l2. split; [exact H2 | eapply loc_wear_trans; eassumption].
  - auto.
  - eapply Forall2_mw_wear_trans; eassumption.
  - congruence.
  - lia.
Qed.

Lemma live_total_put_loc (id : string) (l l' : Location) (m : Mech) :
  locations m !! id = Some l ->
  (live_total (put_loc id l' m) + live_slots l
   = live_total m + live_slots l')%nat.
Proof.
  intros Hl. unfold live_total, put_loc. cbn.
  rewrite <- insert_delete_eq.
  rewrite map_fold_insert_L.
  - rewrite (map_fold_delete_L _ _ id l (locations m)).
    + lia.
    + intros. lia.
    + exact Hl.
  - intros. lia.
  - apply lookup_delete_eq.
Qed.

Lemma wear_put_loc (id : string) (l l' : Location) (m : Mech) :
  locations m !! id = Some l -> loc_wear l l' -> wear m (put_loc id l' m).
Proof.
  intros Hl Hw. constructor.
  - intros k l0 Hk. destruct (decide (id = k)) as [<- | Hne].
    + rewrite lookup_put_loc. exists l'. split; [reflexivity |]. congruence.
    + rewrite lookup_put_loc_ne by exact Hne. exists l0.
      split; [exact Hk | apply loc_wear_refl].
  - intros k Hk. destruct (decide (id = k)) as [<- | Hne]; [congruence |].
    rewrite lookup_put_loc_ne by exact Hne. exact Hk.
  - apply Forall2_mw_wear_refl.
  - reflexivity.
  - pose proof (live_total_put_loc id l l' m Hl).
    destruct Hw as (_ & _ & _ & _ & Hlive). lia.
Qed.

Lemma wear_set_weapons (ws : list MountedWeapon) (m : Mech) :
  Forall2 mw_wear (weapons m) ws -> wear m (set_weapons ws m).
Proof.
  intros H. constructor; auto.
  intros k l Hk. exists l. split; [exact Hk | apply loc_wear_refl].
Qed.

Lemma wear_set_active (b : bool) (m : Mech) : wear m (set_active b m).
Proof.
  constructor; auto using Forall2_mw_wear_refl.
  intros k l Hk. exists l. split; [exact Hk | apply loc_wear_refl].
Qed.

Lemma destroy_weapons_in_wear (id : string) (ws : list MountedWeapon) :
  Forall2 mw_wear ws (destroy_weapons_in id ws).
Proof.
  induction ws as [| w ws IH]; cbn; constructor; [| exact IH].
  destruct (String.eqb (location w) id);
    unfold mw_wear; cbn; repeat split; auto.
Qed.

Lemma find_ammo_wear (id slot : string) (ws : list MountedWeapon) :
  Forall2 mw_wear ws (snd (find_ammo id slot ws)).
Proof.
  induction ws as [| w ws IH]; cbn; [constructor |].
  destruct (_ && _ && _); cbn.
  - constructor; [| apply Forall2_mw_wear_refl].
    unfold mw_wear; cbn; repeat split; auto.
  - destruct (find_ammo id slot ws) as [d rest]. cbn in *.
    constructor; [apply mw_wear_refl | exact IH].
Qed.

Lemma destroy_first_named_wear (id item : string) (ws : list MountedWeapon) :
  Forall2 mw_wear ws (snd (destroy_first_named id item ws)).
Proof.
  induction ws as [| w ws IH]; cbn; [constructor |].
  destruct (_ && _ && _); cbn.
  - constructor; [| apply Forall2_mw_wear_refl].
    unfold mw_wear; cbn; repeat split; auto.
  - destruct (destroy_first_named id item ws) as [r rest]. cbn in *.
    constructor; [apply mw_wear_refl | exact IH].
Qed.

(** Slots: overwriting a slot with the marker never revives one, and kills
    exactly one when the slot was live. *)
Lemma count_live_cons (s : string) (slots : list string) :
  count_live (s :: slots)
  = ((if is_DESTROYED s then 0 else 1) + count_live slots)%nat.
Proof. unfold count_live. cbn. destruct (is_DESTROYED s); reflexivity. Qed.

Lemma count_live_mark (slots : list string) (i : nat) (s : string) :
  slots !! i = Some s -> is_DESTROYED s = false ->
  (count_live (<[i := "DESTROYED"]> slots) + 1 = count_live slots)%nat.
Proof.
  revert i. induction slots as [| x slots IH]; intros i Hi Hs;
    [discriminate |].
  destruct i as [| i]; cbn in Hi.
  - inversion Hi; subst. cbn [insert list_insert].
    rewrite !count_live_cons, Hs.
    change (is_DESTROYED "DESTROYED") with true. cbv iota. lia.
  - change (<[S i := "DESTROYED"]> (x :: slots))
      with (x :: <[i := "DESTROYED"]> slots).
    rewrite !count_live_cons. specialize (IH i Hi Hs). lia.
Qed.

Lemma count_live_blank (item : string) (slots : list string) :
  (count_live (blank_slots item slots) <= count_live slots)%nat.
Proof.
  induction slots as [| x slots IH]; [reflexivity |].
  cbn [blank_slots map]. fold (blank_slots item slots).
  rewrite !count_live_cons.
  destruct (String.eqb x item); [| lia].
  change (is_DESTROYED "DESTROYED") with true. cbv iota.
  destruct (is_DESTROYED x); lia.
Qed.

Lemma count_live_pos (slots : list string) :
  List.filter (fun s => negb (is_DESTROYED s)) slots <> [] ->
  exists i s, slots !! i = Some s /\ is_DESTROYED s = false.
Proof.
  induction slots as [| x slots IH]; cbn; [congruence |].
  destruct (is_DESTROYED x) eqn:Hx; cbn.
  - intros H. destruct (IH H) as (i & s & Hi & Hs).
    exists (S i), s. split; assumption.
  - intros _. exists 0%nat, x. split; [reflexivity | exact Hx].
Qed.

Ltac loc_fields :=
  cbn [loc_name has_case destroyed crittable_slots current_structure
       current_armor rear_current_armor set_crittable_slots
       set_current_structure set_destroyed set_current_armor
       set_rear_current_armor].

Lemma loc_wear_mark (loc : Location) (i : nat) :
  loc_wear loc
    (set_crittable_slots (<[i := "DESTROYED"]> (crittable_slots loc)) loc).
Proof.
  unfold loc_wear, live_slots. loc_fields. repeat split; auto.
  - apply length_insert.
  - destruct (crittable_slots loc !! i) as [s |] eqn:Hi.
    + destruct (is_DESTROYED s) eqn:Hs.
      * apply String.eqb_eq in Hs. subst s.
        rewrite list_insert_id by exact Hi. lia.
      * pose proof (count_live_mark _ _ _ Hi Hs). lia.
    + rewrite list_insert_ge; [lia |]. apply lookup_ge_None. exact Hi.
Qed.

Lemma loc_wear_blank (loc : Location) (item : string) :
  loc_wear loc
    (set_crittable_slots (blank_slots item (crittable_slots loc)) loc).
Proof.
  unfold loc_wear, live_slots. loc_fields. repeat split; auto.
  - unfold blank_slots. apply length_map.
  - apply count_live_blank.
Qed.

Lemma loc_wear_absorb (id : string) (rear : bool) (loc : Location) (dmg : Z) :
  loc_wear loc (fst (absorb_armor id rear loc dmg)).
Proof.
  destruct (absorb_armor_keeps id rear loc dmg) as (H1 & H2 & H3 & H4 & H5).
  unfold loc_wear, live_slots. rewrite H1, H3, H4, H5.
  repeat split; auto.
Qed.

Lemma crit_weapon_wear (id item : string) (loc : Location) (m : Mech) :
  locations m !! id = Some loc -> wear m (crit_weapon id item loc m).
Proof.
  intros Hl. unfold crit_weapon.
  pose proof (destroy_first_named_wear id item (weapons m)) as Hw.
  destruct (destroy_first_named id item (weapons m)) as [found ws].
  cbn [snd] in Hw.
  assert (H1 : wear m (set_weapons ws m)) by (apply wear_set_weapons; exact Hw).
  destruct found as [mw |]; [| exact H1].
  destruct (1 <? crit_slots (weapon mw)); [| exact H1].
  eapply wear_trans; [exact H1 |].
  apply (wear_put_loc id loc); [exact Hl | apply loc_wear_blank].
Qed.

Lemma case_contain_wear (id : string) (loc : Location) (m : Mech) :
  locations m !! id = Some loc -> wear m (case_contain id loc m).
Proof.
  intros Hl. unfold case_contain. cbv zeta.
  eapply wear_trans; cycle 1.
  - apply wear_set_weapons. apply destroy_weapons_in_wear.
  - apply (wear_put_loc id loc); [exact Hl |].
    unfold loc_wear, live_slots. loc_fields. repeat split; auto.
Qed.

Lemma mark_destroyed_wear (id : string) (loc : Location) (m : Mech) :
  locations m !! id = Some loc -> wear m (mark_destroyed id loc m).
Proof.
  intros Hl. unfold mark_destroyed.
  eapply wear_trans; cycle 1.
  - apply wear_set_weapons. apply destroy_weapons_in_wear.
  - apply (wear_put_loc id loc); [exact Hl |].
    unfold loc_wear, live_slots. loc_fields. repeat split; auto.
Qed.

Ltac inv_bind H :=
  let a := fresh "a" in
  let q := fresh "q" in
  let Ha := fresh "Hstep" in
  apply bind_ret_inv in H as (a & q & Ha & H).

Lemma ammo_explosion_body_wear
    (rec : Mech -> string -> Z -> bool -> M Mech) (m : Mech)
    (id slot : string) (p : nat) (m' : Mech) (p' : nat) :
  (forall m0 id0 d r q m1 q1,
      rec m0 id0 d r q = Ret (m1, q1) -> wear m0 m1) ->
  ammo_explosion_body rec m id slot p = Ret (m', p') -> wear m m'.
Proof.
  intros Hrec H. unfold ammo_explosion_body in H.
  inv_bind H. apply get_loc_ret_inv in Hstep as [Hl ->].
  pose proof (find_ammo_wear id slot (weapons m)) as Hw.
  destruct (find_ammo id slot (weapons m)) as [d ws]. cbn [snd] in Hw.
  assert (H1 : wear m (set_weapons ws m)) by (apply wear_set_weapons; exact Hw).
  destruct (has_case a).
  - inversion H; subst. eapply wear_trans; [exact H1 |].
    apply case_contain_wear. exact Hl.
  - eapply wear_trans; [exact H1 |]. eapply Hrec. exact H.
Qed.

Lemma slot_at_ret_inv (slots : list string) (idx : Z) (p : nat) (s : string)
    (p' : nat) :
  slot_at slots idx p = Ret (s, p') ->
  slots !! Z.to_nat idx = Some s /\ p' = p.
Proof.
  unfold slot_at. destruct (slots !! Z.to_nat idx); [| discriminate].
  cbn. intros H. inversion H. split; reflexivity.
Qed.

Lemma crit_loop_wear (rnd : nat -> nat)
    (explode : Mech -> string -> string -> M Mech) (fuel : nat) (n : nat)
    (m : Mech) (id : string) (p : nat) (m' : Mech) (p' : nat) :
  (forall m0 id0 s q m1 q1,
      explode m0 id0 s q = Ret (m1, q1) -> wear m0 m1) ->
  crit_loop rnd explode fuel n m id p = Ret (m', p') -> wear m m'.
Proof.
  intros Hex. revert m p. induction n as [| n IH]; intros m p H.
  - cbn in H. inversion H. apply wear_refl.
  - cbn [crit_loop] in H. inv_bind H.
    apply get_loc_ret_inv in Hstep as [Hl ->].
    destruct (available_slots a) as [| s0 rest] eqn:Hav.
    { inversion H. apply wear_refl. }
    inv_bind H. rename a0 into idx. inv_bind H. rename a0 into item.
    inv_bind H. rename a0 into m3.
    apply IH in H.
    eapply wear_trans; [| exact H].
    assert (H1 : wear m (put_loc id
                (set_crittable_slots
                   (<[Z.to_nat idx := "DESTROYED"]> (crittable_slots a)) a)
                m)).
    { apply (wear_put_loc id a); [exact Hl | apply loc_wear_mark]. }
    assert (H2 : wear m (crit_weapon id item
                (set_crittable_slots
                   (<[Z.to_nat idx := "DESTROYED"]> (crittable_slots a)) a)
                (put_loc id
                   (set_crittable_slots
                      (<[Z.to_nat idx := "DESTROYED"]> (crittable_slots a)) a)
                   m))).
    { eapply wear_trans; [exact H1 |]. apply crit_weapon_wear.
      apply lookup_put_loc. }
    eapply wear_trans; [exact H2 |].
    destruct (String.prefix "Ammo" item).
    + eapply Hex. exact Hstep1.
    + inversion Hstep1. apply wear_refl.
Qed.

Lemma apply_crits_body_wear (rnd : nat -> nat)
    (explode : Mech -> string -> string -> M Mech) (fuel : nat)
    (m : Mech) (id : string) (n : Z) (p : nat) (m' : Mech) (p' : nat) :
  (forall m0 id0 s q m1 q1,
      explode m0 id0 s q = Ret (m1, q1) -> wear m0 m1) ->
  apply_crits_body rnd explode fuel m id n p = Ret (m', p') -> wear m m'.
Proof.
  intros Hex H. unfold apply_crits_body in H. inv_bind H.
  destruct (available_slots a).
  - inversion H. apply wear_refl.
  - eapply crit_loop_wear; eassumption.
Qed.

Lemma apply_damage_wear (rnd : nat -> nat) (fuel : nat) :
  forall (m : Mech) (id : string) (dmg : Z) (rear : bool) (p : nat)
         (m' : Mech) (p' : nat),
    apply_damage rnd fuel m id dmg rear p = Ret (m', p') -> wear m m'.
Proof.
  induction fuel as [| f IH]; intros m id dmg rear p m' p' H;
    [discriminate |].
  cbn [apply_damage] in H. inv_bind H.
  apply get_loc_ret_inv in Hstep as [Hl ->].
  destruct (destroyed a) eqn:Hd.
  { destruct (transfer_to a).
    - eapply IH. exact H.
    - inversion H. apply wear_refl. }
  pose proof (loc_wear_absorb id rear a dmg) as Hab.
  destruct (absorb_armor id rear a dmg) as [loc1 d1]. cbn [fst] in Hab.
  cbv zeta in H.
  assert (H1 : wear m (put_loc id loc1 m))
    by (apply (wear_put_loc id a); assumption).
  destruct (d1 <=? 0).
  { inversion H; subst. exact H1. }
  set (loc2 := set_current_structure
                 (current_structure loc1
                  - Z.min (current_structure loc1) d1) loc1) in *.
  assert (H2 : wear m (put_loc id loc2 (put_loc id loc1 m))).
  { eapply wear_trans; [exact H1 |].
    apply (wear_put_loc id loc1); [apply lookup_put_loc |].
    unfold loc_wear, live_slots. loc_fields. repeat split; auto. }
  inv_bind H. rename a0 into m3.
  assert (H3 : wear m m3).
  { eapply wear_trans; [exact H2 |].
    destruct (_ && _).
    - inv_bind Hstep. destruct (0 <? a0).
      + eapply apply_crits_body_wear; [| exact Hstep].
        intros. eapply ammo_explosion_body_wear; [| eassumption].
        intros. eapply IH. eassumption.
      + inversion Hstep. apply wear_refl.
    - inversion Hstep. apply wear_refl. }
  inv_bind H. apply get_loc_ret_inv in Hstep0 as [Hl3 ->].
  destruct (current_structure a0 <=? 0).
  - assert (H4 : wear m (mark_destroyed id a0 m3)).
    { eapply wear_trans; [exact H3 |]. apply mark_destroyed_wear. exact Hl3. }
    destruct (is_dead _).
    + inversion H; subst. eapply wear_trans; [exact H4 |].
      apply wear_set_active.
    + destruct (0 <? d1 - Z.min (current_structure loc1) d1).
      * destruct (transfer_to a0).
        -- eapply wear_trans; [exact H4 |]. eapply IH. exact H.
        -- inversion H; subst. exact H4.
      * inversion H; subst. exact H4.
  - inversion H; subst. exact H3.
Qed.

(** ** Destruction of a location *)

Lemma wrecked_loc_destroyed (id : string) (rear : bool) (loc : Location)
    (dmg : Z) (m : Mech) :
  loc_destroyed (wrecked id rear loc dmg m) id = true.
Proof.
  unfold loc_destroyed, wrecked, mark_destroyed.
  change (locations (set_weapons ?ws ?mm)) with (locations mm).
  rewrite lookup_put_loc. reflexivity.
Qed.

Lemma wrecked_weapons (id : string) (rear : bool) (loc : Location)
    (dmg : Z) (m : Mech) (mw : MountedWeapon) :
  mw ∈ weapons (wrecked id rear loc dmg m) -> location mw = id ->
  mw_destroyed mw = true.
Proof. apply destroy_weapons_in_spec. Qed.

Lemma wear_loc_destroyed (m m' : Mech) (k : string) :
  wear m m' -> loc_destroyed m k = true -> loc_destroyed m' k = true.
Proof.
  intros Hw. unfold loc_destroyed.
  destruct (locations m !! k) as [l |] eqn:Hl; [| discriminate].
  destruct (wear_locs _ _ Hw k l Hl) as (l' & -> & _ & _ & Hd & _).
  exact Hd.
Qed.

Lemma Forall2_mw_wear_destroyed (id : string) (ws ws' : list MountedWeapon) :
  Forall2 mw_wear ws ws' ->
  (forall mw, mw ∈ ws -> location mw = id -> mw_destroyed mw = true) ->
  forall mw, mw ∈ ws' -> location mw = id -> mw_destroyed mw = true.
Proof.
  induction 1 as [| w w' ws ws' Hw _ IH]; intros Hall mw Hin Hloc.
  - inversion Hin.
  - apply elem_of_cons in Hin as [-> | Hin].
    + destruct Hw as (_ & Hl & Hd). apply Hd. apply Hall.
      * apply elem_of_cons. left. reflexivity.
      * congruence.
    + apply IH; [| exact Hin | exact Hloc].
      intros mw0 H0. apply Hall. apply elem_of_cons. right. exact H0.
Qed.

Lemma wear_weapons_destroyed (m m' : Mech) (id : string) :
  wear m m' ->
  (forall mw, mw ∈ weapons m -> location mw = id -> mw_destroyed mw = true) ->
  forall mw, mw ∈ weapons m' -> location mw = id -> mw_destroyed mw = true.
Proof.
  intros Hw. apply Forall2_mw_wear_destroyed. apply (wear_weapons _ _ Hw).
Qed.


(** The same holds when the structure goes to zero by another route of
    the same call (an ammo explosion set off by a critical hit): whenever a
    hit that reached the structure of a live location returns with that
    structure at zero, the location and the weapons mounted there are
    destroyed. *)
Lemma apply_damage_zero_structure (rnd : nat -> nat) (fuel : nat) (m : Mech)
    (id : string) (dmg : Z) (rear : bool) (p : nat) (loc : Location)
    (m' : Mech) (p' : nat) (l' : Location) :
  locations m !! id = Some loc -> destroyed loc = false ->
  0 < past_armor id rear loc dmg ->
  apply_damage rnd fuel m id dmg rear p = Ret (m', p') ->
  locations m' !! id = Some l' -> current_structure l' <= 0 ->
  destroyed l' = true
  /\ (forall mw, mw ∈ weapons m' -> location mw = id ->
      mw_destroyed mw = true).
Proof.
  intros Hl Hd Hpast H Hl' Hz. unfold past_armor in Hpast.
  destruct fuel as [| f]; [discriminate |].
  cbn [apply_damage] in H.
  rewrite (bind_ret _ _ _ _ _ (get_loc_ret m id loc p Hl)) in H.
  rewrite Hd in H.
  destruct (absorb_armor id rear loc dmg) as [loc1 d1]. cbn [snd] in Hpast.
  cbv zeta in H.
  destruct (Z.leb_spec d1 0); [lia |].
  inv_bind H. rename a into m3. clear Hstep.
  inv_bind H. apply get_loc_ret_inv in Hstep as [Hl3 ->].
  destruct (Z.leb_spec (current_structure a) 0).
  - set (m4 := mark_destroyed id a m3) in *.
    assert (D4 : loc_destroyed m4 id = true).
    { unfold loc_destroyed, m4, mark_destroyed.
      change (locations (set_weapons ?ws ?mm)) with (locations mm).
      rewrite lookup_put_loc. reflexivity. }
    assert (W4 : forall mw, mw ∈ weapons m4 -> location mw = id ->
                            mw_destroyed mw = true)
      by apply destroy_weapons_in_spec.
    assert (Hfin : wear m4 m' ->
              destroyed l' = true
              /\ (forall mw, mw ∈ weapons m' -> location mw = id ->
                  mw_destroyed mw = true)).
    { intros Hw. split.
      - pose proof (wear_loc_destroyed m4 m' id Hw D4) as Hd'.
        unfold loc_destroyed in Hd'. rewrite Hl' in Hd'. exact Hd'.
      - apply (wear_weapons_destroyed m4 m' id Hw W4). }
    destruct (is_dead m4).
    + inversion H; subst. apply Hfin. apply wear_set_active.
    + destruct (0 <? d1 - Z.min (current_structure loc1) d1).
      * destruct (transfer_to a).
        -- apply Hfin. eapply apply_damage_wear. exact H.
        -- inversion H; subst. apply Hfin. apply wear_refl.
      * inversion H; subst. apply Hfin. apply wear_refl.
  - inversion H; subst. rewrite Hl3 in Hl'. inversion Hl'; subst. lia.
Qed.

(** ** Termination under a fair oracle *)

Lemma rnd_count_fair : fair rnd_count.
Proof.
  intros p n i Hi. unfold rnd_count.
  assert (Hn : n <> 0%nat) by lia.
  pose proof (Nat.mod_upper_bound p n Hn) as Ha.
  pose proof (Nat.div_mod_eq p n) as Hp.
  destruct (le_lt_dec (p mod n) i) as [Hle | Hlt].
  - exists (i - p mod n)%nat.
    symmetry. apply (Nat.mod_unique _ _ (p / n)); [exact Hi | lia].
  - exists (i + n - p mod n)%nat.
    symmetry. apply (Nat.mod_unique _ _ (p / n + 1)); [exact Hi | lia].
Qed.

(** The sweeping oracle is fair although it is no counter: the run that
    starts at draw [s * s] gives [0 .. 2 * s] in turn. *)
Lemma rnd_sweep_run (s i : nat) :
  (i <= 2 * s)%nat -> rnd_sweep (s * s + i) = i.
Proof.
  intros Hi. unfold rnd_sweep.
  rewrite (Nat.sqrt_unique (s * s + i) s) by lia. lia.
Qed.

Lemma rnd_sweep_fair : fair rnd_sweep.
Proof.
  intros p n i Hi.
  exists ((p + n) * (p + n) + i - p)%nat.
  replace (p + ((p + n) * (p + n) + i - p))%nat
    with ((p + n) * (p + n) + i)%nat by nia.
  rewrite rnd_sweep_run by lia.
  apply Nat.mod_small. exact Hi.
Qed.

(** Fairness says nothing about any finite run of draws: whatever the
    first draws are, a fair oracle begins with them. *)
Lemma replay_prefix (draws : list nat) (rnd : nat -> nat) (k d : nat) :
  draws !! k = Some d -> replay draws rnd k = d.
Proof. intros H. unfold replay. rewrite H. reflexivity. Qed.

Lemma replay_fair (draws : list nat) (rnd : nat -> nat) :
  fair rnd -> fair (replay draws rnd).
Proof.
  intros Hfair p n i Hi.
  destruct (Hfair p n i Hi) as [k Hk].
  exists (k + length draws)%nat. unfold replay.
  rewrite lookup_ge_None_2 by lia.
  replace (p + (k + length draws) - length draws)%nat with (p + k)%nat by lia.
  exact Hk.
Qed.

Lemma fair_after_any_draws (draws : list nat) :
  exists rnd, fair rnd /\ forall k d, draws !! k = Some d -> rnd k = d.
Proof.
  exists (replay draws rnd_sweep).
  split; [apply replay_fair, rnd_sweep_fair | apply replay_prefix].
Qed.

Lemma rank_transfer (id t : string) :
  TRANSFER_MAP id = Some t -> (rank t < rank id)%nat.
Proof.
  unfold rank. intros H. rewrite H. revert H. unfold TRANSFER_MAP at 1.
  repeat match goal with
         | |- context [String.eqb id ?s] =>
             destruct (String.eqb id s)
         end; intros H; inversion H; subst; cbn; lia.
Qed.

Lemma sound_wear (bound : nat) (m m' : Mech) :
  wear m m' -> sound bound m -> sound bound m'.
Proof.
  intros Hw (Hn & Ht & Hs).
  assert (Hback : forall k l', locations m' !! k = Some l' ->
            exists l, locations m !! k = Some l /\ loc_wear l l').
  { intros k l' Hk. destruct (locations m !! k) as [l |] eqn:Hl.
    - destruct (wear_locs _ _ Hw k l Hl) as (l2 & Hl2 & Hlw).
      exists l. split; [reflexivity | congruence].
    - rewrite (wear_dom _ _ Hw k Hl) in Hk. discriminate. }
  split; [| split].
  - intros k l' Hk. destruct (Hback k l' Hk) as (l & Hl & Hn' & _).
    rewrite Hn'. apply (Hn k l Hl).
  - intros k l' t Hk Htr. destruct (Hback k l' Hk) as (l & Hl & Hn' & _).
    assert (Htr' : transfer_to l = Some t)
      by (unfold transfer_to in *; congruence).
    destruct (Ht k l t Hl Htr') as [lt Hlt].
    destruct (wear_locs _ _ Hw t lt Hlt) as (lt' & Hlt' & _).
    exists lt'. exact Hlt'.
  - intros k l' Hk. destruct (Hback k l' Hk) as (l & Hl & _ & _ & _ & Hlen & _).
    rewrite Hlen. apply (Hs k l Hl).
Qed.

Lemma wear_is_Some (m m' : Mech) (k : string) :
  wear m m' -> is_Some (locations m !! k) -> is_Some (locations m' !! k).
Proof.
  intros Hw [l Hl]. destruct (wear_locs _ _ Hw k l Hl) as (l' & Hl' & _).
  exists l'. exact Hl'.
Qed.

Lemma wear_live_in (m m' : Mech) (k : string) :
  wear m m' -> (live_in m' k <= live_in m k)%nat.
Proof.
  intros Hw. unfold live_in.
  destruct (locations m !! k) as [l |] eqn:Hl.
  - destruct (wear_locs _ _ Hw k l Hl) as (l' & -> & _ & _ & _ & _ & Hlive).
    exact Hlive.
  - rewrite (wear_dom _ _ Hw k Hl). lia.
Qed.

Lemma randint_index (rnd : nat -> nat) (n : nat) (p : nat) :
  randint rnd 0 (Z.of_nat n - 1) p
  = Ret (Z.of_nat (rnd p mod n), S p).
Proof.
  unfold randint. f_equal. f_equal.
  replace (Z.of_nat n - 1 - 0 + 1) with (Z.of_nat n) by lia.
  rewrite Nat2Z.inj_mod. lia.
Qed.

(** The retry loop returns as soon as a candidate names a live slot: the
    candidate it starts from, or one of the next [k] draws, provided the
    fuel exceeds [k]. *)
Lemma redraw_slot_hits (rnd : nat -> nat) (slots : list string) :
  forall (k fuel : nat) (idx : Z) (p : nat),
    (k < fuel)%nat ->
    0 <= idx < Z.of_nat (length slots) ->
    (live_at slots idx
     \/ exists j, (j < k)%nat
                  /\ live_at slots (Z.of_nat (rnd (p + j)%nat
                                               mod length slots))) ->
    exists idx' p',
      redraw_slot rnd fuel slots idx p = Ret (idx', p')
      /\ live_at slots idx' /\ (p <= p' <= p + k)%nat.
Proof.
  induction k as [| k IH]; intros fuel idx p Hf Hidx Hhit.
  - destruct Hhit as [Hlive | (j & Hj & _)]; [| lia].
    destruct fuel as [| f]; [lia |].
    destruct Hlive as (H0 & s & Hs & Hd).
    exists idx, p.
    split; [| split; [split; [exact H0 | exists s; auto] | lia]].
    cbn [redraw_slot]. unfold bind, slot_at. rewrite Hs. cbn [ret].
    rewrite Hd. reflexivity.
  - destruct fuel as [| f]; [lia |].
    destruct (lookup_lt_is_Some_2 slots (Z.to_nat idx) ltac:(lia)) as [s Hs].
    destruct (is_DESTROYED s) eqn:Hd.
    + assert (Hnext : exists j, (j < S k)%nat
                /\ live_at slots (Z.of_nat (rnd (p + j)%nat
                                             mod length slots))).
      { destruct Hhit as [(_ & s' & Hs' & Hd') | H]; [congruence | exact H]. }
      destruct Hnext as (j & Hj & Hlive).
      assert (Hlen : length slots <> 0%nat) by lia.
      destruct (IH f (Z.of_nat (rnd p mod length slots)) (S p)) as
        (idx' & p' & Hr & Hl' & Hp').
      * lia.
      * pose proof (Nat.mod_upper_bound (rnd p) (length slots) Hlen). lia.
      * destruct j as [| j].
        -- left. rewrite Nat.add_0_r in Hlive. exact Hlive.
        -- right. exists j. split; [lia |].
           replace (S p + j)%nat with (p + S j)%nat by lia. exact Hlive.
      * exists idx', p'. split; [| split; [exact Hl' | lia]].
        cbn [redraw_slot]. unfold bind, slot_at. rewrite Hs. cbn [ret].
        rewrite Hd, randint_index. exact Hr.
    + exists idx, p. split; [| split; [| lia]].
      * cbn [redraw_slot]. unfold bind, slot_at. rewrite Hs. cbn [ret].
        rewrite Hd. reflexivity.
      * split; [lia | exists s; auto].
Qed.

Lemma live_in_none (m : Mech) (id : string) (l : Location) :
  locations m !! id = Some l -> available_slots l = [] ->
  live_in m id = 0%nat.
Proof.
  intros Hl Hav. unfold live_in. rewrite Hl.
  unfold live_slots, count_live. unfold available_slots in Hav.
  rewrite Hav. reflexivity.
Qed.

Lemma sound_check_ok (bound : nat) (m : Mech) :
  sound_check bound m = true -> sound bound m.
Proof.
  unfold sound_check. rewrite forallb_forall. intros H.
  assert (Hk : forall k l, locations m !! k = Some l ->
            String.eqb (loc_name l) k
            && match transfer_to l with
               | Some t => match locations m !! t with
                           | Some _ => true
                           | None => false
                           end
               | None => true
               end
            && (length (crittable_slots l) <=? bound)%nat = true).
  { intros k l Hl. apply (H (k, l)). apply list_elem_of_In.
    apply elem_of_map_to_list. exact Hl. }
  split; [| split].
  - intros k l Hl. specialize (Hk k l Hl).
    apply andb_prop in Hk as [Hk _]. apply andb_prop in Hk as [Hk _].
    apply String.eqb_eq. exact Hk.
  - intros k l t Hl Ht. specialize (Hk k l Hl).
    apply andb_prop in Hk as [Hk _]. apply andb_prop in Hk as [_ Hk].
    rewrite Ht in Hk. destruct (locations m !! t); [eauto | discriminate].
  - intros k l Hl. specialize (Hk k l Hl).
    apply andb_prop in Hk as [_ Hk]. apply Nat.leb_le. exact Hk.
Qed.

(** ** More fuel changes no result *)

Lemma bind_mono {A B} (c c' : M A) (k k' : A -> M B) (p : nat)
    (r : B * nat) :
  (forall x, c p = Ret x -> c' p = Ret x) ->
  (forall a q, k a q = Ret r -> k' a q = Ret r) ->
  bind c k p = Ret r -> bind c' k' p = Ret r.
Proof.
  unfold bind. intros Hc Hk.
  destruct (c p) as [[a q] | e |]; try discriminate.
  rewrite (Hc _ eq_refl). apply Hk.
Qed.

Lemma redraw_slot_mono (rnd : nat -> nat) (slots : list string) :
  forall (f f' : nat) (idx : Z) (p : nat) (r : Z * nat),
    (f <= f')%nat ->
    redraw_slot rnd f slots idx p = Ret r ->
    redraw_slot rnd f' slots idx p = Ret r.
Proof.
  induction f as [| f IH]; intros f' idx p r Hf; [discriminate |].
  destruct f' as [| f']; [lia |].
  cbn [redraw_slot]. apply bind_mono; [auto |].
  intros s q. destruct (is_DESTROYED s); [| auto].
  apply bind_mono; [auto |].
  intros i q'. apply IH. lia.
Qed.

Lemma pick_slot_mono (rnd : nat -> nat) (slots : list string) (f f' : nat)
    (p : nat) (r : Z * nat) :
  (f <= f')%nat ->
  pick_slot rnd f slots p = Ret r -> pick_slot rnd f' slots p = Ret r.
Proof.
  intros Hf. unfold pick_slot. apply bind_mono; [auto |].
  intros i q. apply redraw_slot_mono. exact Hf.
Qed.

Lemma crit_loop_mono (rnd : nat -> nat)
    (explode explode' : Mech -> string -> string -> M Mech) (f f' : nat) :
  (f <= f')%nat ->
  (forall m id slot p r,
      explode m id slot p = Ret r -> explode' m id slot p = Ret r) ->
  forall (n : nat) (m : Mech) (id : string) (p : nat) (r : Mech * nat),
    crit_loop rnd explode f n m id p = Ret r ->
    crit_loop rnd explode' f' n m id p = Ret r.
Proof.
  intros Hf Hex. induction n as [| n IH]; intros m id p r; [auto |].
  cbn [crit_loop]. apply bind_mono; [auto |].
  intros loc q. destruct (available_slots loc); [auto |].
  apply bind_mono; [intros x; apply pick_slot_mono; exact Hf |].
  intros idx q1. apply bind_mono; [auto |].
  intros item q2. cbv zeta. apply bind_mono; [| intros; apply IH; assumption].
  intros x. destruct (String.prefix "Ammo" item); [apply Hex | auto].
Qed.

Lemma apply_crits_body_mono (rnd : nat -> nat)
    (explode explode' : Mech -> string -> string -> M Mech) (f f' : nat)
    (m : Mech) (id : string) (n : Z) (p : nat) (r : Mech * nat) :
  (f <= f')%nat ->
  (forall m id slot p r,
      explode m id slot p = Ret r -> explode' m id slot p = Ret r) ->
  apply_crits_body rnd explode f m id n p = Ret r ->
  apply_crits_body rnd explode' f' m id n p = Ret r.
Proof.
  intros Hf Hex. unfold apply_crits_body. apply bind_mono; [auto |].
  intros loc q. destruct (available_slots loc); [auto |].
  apply crit_loop_mono; assumption.
Qed.

Lemma ammo_explosion_body_mono
    (rec rec' : Mech -> string -> Z -> bool -> M Mech) (m : Mech)
    (id slot : string) (p : nat) (r : Mech * nat) :
  (forall m id d rear p r,
      rec m id d rear p = Ret r -> rec' m id d rear p = Ret r) ->
  ammo_explosion_body rec m id slot p = Ret r ->
  ammo_explosion_body rec' m id slot p = Ret r.
Proof.
  intros Hrec. unfold ammo_explosion_body. apply bind_mono; [auto |].
  intros loc q. destruct (find_ammo id slot (weapons m)) as [d ws].
  destruct (has_case loc); [auto | apply Hrec].
Qed.

(** A call of [apply_damage] that returns with some fuel returns the same
    with any more. *)
Lemma apply_damage_mono (rnd : nat -> nat) :
  forall (f f' : nat) (m : Mech) (id : string) (dmg : Z) (rear : bool)
         (p : nat) (r : Mech * nat),
    (f <= f')%nat ->
    apply_damage rnd f m id dmg rear p = Ret r ->
    apply_damage rnd f' m id dmg rear p = Ret r.
Proof.
  induction f as [| f IH]; intros f' m id dmg rear p r Hf; [discriminate |].
  destruct f' as [| f']; [lia |].
  assert (Hle : (f <= f')%nat) by lia.
  cbn [apply_damage]. apply bind_mono; [auto |].
  intros loc q. destruct (destroyed loc).
  { destruct (transfer_to loc); [apply IH; exact Hle | auto]. }
  destruct (absorb_armor id rear loc dmg) as [loc1 d1]. cbv zeta.
  destruct (d1 <=? 0); [auto |].
  apply bind_mono.
  - intros x. destruct (_ && _); [| auto].
    apply bind_mono; [auto |].
    intros n q1. destruct (0 <? n); [| auto].
    apply apply_crits_body_mono; [exact Hle |].
    intros m0 id0 slot p0 r0. apply ammo_explosion_body_mono.
    intros m1 id1 d rear1 p1 r1. apply IH. exact Hle.
  - intros m3 q3. apply bind_mono; [auto |].
    intros loc3 q4. destruct (current_structure loc3 <=? 0); [| auto].
    destruct (is_dead _); [auto |].
    destruct (0 <? _); [| auto].
    destruct (transfer_to loc3); [apply IH; exact Hle | auto].
Qed.

Lemma ammo_explosion_mono (rnd : nat -> nat) (f f' : nat) (m : Mech)
    (id slot : string) (p : nat) (r : Mech * nat) :
  (f <= f')%nat ->
  _ammo_explosion rnd f m id slot p = Ret r ->
  _ammo_explosion rnd f' m id slot p = Ret r.
Proof.
  intros Hf. unfold _ammo_explosion. apply ammo_explosion_body_mono.
  intros m0 id0 d rear p0 r0. apply apply_damage_mono. exact Hf.
Qed.

Lemma apply_crits_mono (rnd : nat -> nat) (f f' : nat) (m : Mech)
    (id : string) (n : Z) (p : nat) (r : Mech * nat) :
  (f <= f')%nat ->
  _apply_crits rnd f m id n p = Ret r ->
  _apply_crits rnd f' m id n p = Ret r.
Proof.
  intros Hf. unfold _apply_crits. apply apply_crits_body_mono; [exact Hf |].
  intros m0 id0 slot p0 r0. apply ammo_explosion_mono. exact Hf.
Qed.

(** A call that returns with some fuel settles on what it returns. *)
Lemma settles_from {A} (c : nat -> M A) (p : nat) (r : A * nat) (f : nat) :
  (forall f1 f2, (f1 <= f2)%nat -> c f1 p = Ret r -> c f2 p = Ret r) ->
  c f p = Ret r -> settles c p r.
Proof. intros Hmono H. exists f. intros fuel Hf. eapply Hmono; eassumption. Qed.

Lemma settles_unique {A} (c : nat -> M A) (p : nat) (r r' : A * nat) :
  settles c p r -> settles c p r' -> r = r'.
Proof.
  intros [F H] [F' H'].
  pose proof (H (Nat.max F F') (Nat.le_max_l _ _)) as E.
  rewrite (H' (Nat.max F F') (Nat.le_max_r _ _)) in E. congruence.
Qed.

(** ** The calls return under a fair oracle *)

(** A pick returns: fairness brings up the index of a live slot, and the
    retry loop stops at the first live slot drawn. *)
Lemma pick_slot_total (rnd : nat -> nat) (slots : list string) (p : nat) :
  fair rnd ->
  (exists i s, slots !! i = Some s /\ is_DESTROYED s = false) ->
  exists idx p',
    settles (fun fuel => pick_slot rnd fuel slots) p (idx, p')
    /\ live_at slots idx.
Proof.
  intros Hfair (i & s & Hi & Hd).
  pose proof (lookup_lt_Some _ _ _ Hi) as Hlt.
  destruct (Hfair p (length slots) i Hlt) as (k & Hhit).
  assert (Hlen : length slots <> 0%nat) by lia.
  assert (Hlive : live_at slots (Z.of_nat (rnd (p + k)%nat
                                           mod length slots))).
  { split; [lia |]. exists s. rewrite Nat2Z.id, Hhit. auto. }
  destruct (redraw_slot_hits rnd slots k (S k)
              (Z.of_nat (rnd p mod length slots)) (S p)) as
    (idx' & p' & Hr & Hl' & _).
  - lia.
  - pose proof (Nat.mod_upper_bound (rnd p) (length slots) Hlen). lia.
  - destruct k as [| k].
    + left. rewrite Nat.add_0_r in Hlive. exact Hlive.
    + right. exists k. split; [lia |].
      replace (S p + k)%nat with (p + S k)%nat by lia. exact Hlive.
  - exists idx', p'. split; [| exact Hl'].
    apply (settles_from _ _ _ (S k)).
    + intros f1 f2. apply pick_slot_mono.
    + unfold pick_slot, bind. rewrite randint_index. exact Hr.
Qed.

(** The crit loop under a fair oracle: it returns, having destroyed [n]
    more slots of the location or all of them. *)
Lemma crit_loop_total (rnd : nat -> nat)
    (explode : nat -> Mech -> string -> string -> M Mech) (bound B : nat)
    (id : string) :
  fair rnd ->
  (forall m2 slot p2,
      sound bound m2 -> is_Some (locations m2 !! id) ->
      (live_total m2 < B)%nat ->
      exists m3 p3,
        settles (fun fuel => explode fuel m2 id slot) p2 (m3, p3)
        /\ wear m2 m3) ->
  forall (n : nat) (m : Mech) (p : nat),
    sound bound m -> is_Some (locations m !! id) ->
    (live_total m <= B)%nat ->
    exists m' p',
      settles (fun fuel => crit_loop rnd (explode fuel) fuel n m id) p
        (m', p')
      /\ wear m m'
      /\ (live_in m' id + n <= live_in m id \/ live_in m' id = 0)%nat.
Proof.
  intros Hfair Hex. induction n as [| n IH]; intros m p Hs [l Hl] HB.
  { exists m, p. split; [exists 0%nat; reflexivity |].
    split; [apply wear_refl | lia]. }
  destruct (available_slots l) as [| s0 rest] eqn:Hav.
  { exists m, p. split.
    - exists 0%nat. intros fuel _. cbn [crit_loop].
      rewrite (bind_ret _ _ _ _ _ (get_loc_ret m id l p Hl)), Hav.
      reflexivity.
    - split; [apply wear_refl |]. right. eapply live_in_none; eassumption. }
  assert (Hpos : exists i s, crittable_slots l !! i = Some s
                             /\ is_DESTROYED s = false).
  { apply count_live_pos. unfold available_slots in Hav. rewrite Hav.
    discriminate. }
  destruct (pick_slot_total rnd (crittable_slots l) p Hfair Hpos)
    as (idx & p1 & [F1 Hpick] & (H0 & s & Hsl & Hd)).
  assert (Hat : slot_at (crittable_slots l) idx p1 = Ret (s, p1))
    by (unfold slot_at; rewrite Hsl; reflexivity).
  set (loc' := set_crittable_slots
                 (<[Z.to_nat idx := "DESTROYED"]> (crittable_slots l)) l).
  set (m1 := put_loc id loc' m).
  set (m2 := crit_weapon id s loc' m1).
  assert (W1 : wear m m1)
    by (apply (wear_put_loc id l); [exact Hl | apply loc_wear_mark]).
  assert (W2 : wear m1 m2)
    by (apply crit_weapon_wear; apply lookup_put_loc).
  assert (Hless : (live_slots loc' + 1 = live_slots l)%nat)
    by (apply (count_live_mark _ _ s); assumption).
  assert (L1 : (live_total m1 + 1 = live_total m)%nat).
  { pose proof (live_total_put_loc id l loc' m Hl). fold m1 in H. lia. }
  assert (I1 : (live_in m1 id + 1 = live_in m id)%nat).
  { unfold live_in, m1. rewrite lookup_put_loc, Hl. exact Hless. }
  pose proof (wear_live _ _ W2) as L2.
  pose proof (wear_live_in _ _ id W2) as I2.
  assert (W12 : wear m m2) by (apply (wear_trans m m1 m2); assumption).
  assert (S2 : sound bound m2) by (apply (sound_wear bound m m2); assumption).
  assert (P2 : is_Some (locations m2 !! id))
    by (apply (wear_is_Some m m2 id W12); eauto).
  assert (Hstage : exists m3 p3,
            settles (fun fuel =>
                       if String.prefix "Ammo" s then explode fuel m2 id s
                       else ret m2) p1 (m3, p3)
            /\ wear m2 m3).
  { destruct (String.prefix "Ammo" s).
    - apply Hex; [exact S2 | exact P2 | lia].
    - exists m2, p1. split; [exists 0%nat; reflexivity | apply wear_refl]. }
  destruct Hstage as (m3 & p3 & [F2 Hst] & W3).
  pose proof (wear_live _ _ W3) as L3.
  pose proof (wear_live_in _ _ id W3) as I3.
  destruct (IH m3 p3) as (m' & p' & [F3 Hr] & W4 & Hcount).
  - apply (sound_wear bound m2 m3); assumption.
  - apply (wear_is_Some m2 m3 id); assumption.
  - lia.
  - exists m', p'. split; [| split].
    + exists (Nat.max F1 (Nat.max F2 F3)). intros fuel Hf.
      cbn [crit_loop].
      rewrite (bind_ret _ _ _ _ _ (get_loc_ret m id l p Hl)), Hav.
      rewrite (bind_ret _ _ _ _ _ (Hpick fuel ltac:(lia))).
      rewrite (bind_ret _ _ _ _ _ Hat). cbv zeta.
      fold loc'. fold m1. fold m2.
      rewrite (bind_ret _ _ _ _ _ (Hst fuel ltac:(lia))).
      apply Hr. lia.
    + apply (wear_trans m m2 m'); [exact W12 |].
      apply (wear_trans m2 m3 m'); assumption.
    + lia.
Qed.

Lemma apply_crits_body_total (rnd : nat -> nat)
    (explode : nat -> Mech -> string -> string -> M Mech) (bound B : nat)
    (id : string) (n : Z) (m : Mech) (p : nat) :
  fair rnd ->
  (forall m2 slot p2,
      sound bound m2 -> is_Some (locations m2 !! id) ->
      (live_total m2 < B)%nat ->
      exists m3 p3,
        settles (fun fuel => explode fuel m2 id slot) p2 (m3, p3)
        /\ wear m2 m3) ->
  sound bound m -> is_Some (locations m !! id) -> (live_total m <= B)%nat ->
  exists m' p',
    settles (fun fuel => apply_crits_body rnd (explode fuel) fuel m id n) p
      (m', p')
    /\ wear m m'
    /\ (live_in m' id + Z.to_nat n <= live_in m id \/ live_in m' id = 0)%nat.
Proof.
  intros Hfair Hex Hs [l Hl] HB.
  destruct (available_slots l) as [| s0 rest] eqn:Hav.
  - exists m, p. split.
    + exists 0%nat. intros fuel _. unfold apply_crits_body.
      rewrite (bind_ret _ _ _ _ _ (get_loc_ret m id l p Hl)), Hav.
      reflexivity.
    + split; [apply wear_refl |]. right. eapply live_in_none; eassumption.
  - destruct (crit_loop_total rnd explode bound B id Hfair Hex
                (Z.to_nat n) m p Hs ltac:(eauto) HB)
      as (m' & p' & [F Hr] & Hw & Hc).
    exists m', p'. split; [| split; assumption].
    exists F. intros fuel Hf. unfold apply_crits_body.
    rewrite (bind_ret _ _ _ _ _ (get_loc_ret m id l p Hl)), Hav.
    apply Hr. exact Hf.
Qed.

Lemma ammo_explosion_body_total
    (rec : nat -> Mech -> string -> Z -> bool -> M Mech) (bound B : nat)
    (m : Mech) (id slot : string) (p : nat) :
  (forall m0 d r q,
      sound bound m0 -> is_Some (locations m0 !! id) ->
      (live_total m0 < B)%nat ->
      exists m1 q1,
        settles (fun fuel => rec fuel m0 id d r) q (m1, q1)
        /\ wear m0 m1) ->
  sound bound m -> is_Some (locations m !! id) -> (live_total m < B)%nat ->
  exists m' p',
    settles (fun fuel => ammo_explosion_body (rec fuel) m id slot) p
      (m', p')
    /\ wear m m'.
Proof.
  intros Hrec Hs [l Hl] HB.
  pose proof (find_ammo_wear id slot (weapons m)) as Hw.
  destruct (find_ammo id slot (weapons m)) as [d ws] eqn:Hfind.
  cbn [snd] in Hw.
  assert (W1 : wear m (set_weapons ws m))
    by (apply wear_set_weapons; exact Hw).
  destruct (has_case l) eqn:Hcase.
  - eexists. eexists. split.
    + exists 0%nat. intros fuel _. unfold ammo_explosion_body.
      rewrite (bind_ret _ _ _ _ _ (get_loc_ret m id l p Hl)).
      rewrite Hfind, Hcase. reflexivity.
    + eapply wear_trans; [exact W1 |]. apply case_contain_wear. exact Hl.
  - destruct (Hrec (set_weapons ws m)
                (if d <=? 0 then 20 else d) false p)
      as (m1 & q1 & [F Hr] & W2).
    + apply (sound_wear bound m _ W1 Hs).
    + exists l. exact Hl.
    + exact HB.
    + exists m1, q1. split; [| apply (wear_trans m _ m1 W1 W2)].
      exists F. intros fuel Hf. unfold ammo_explosion_body.
      rewrite (bind_ret _ _ _ _ _ (get_loc_ret m id l p Hl)).
      rewrite Hfind, Hcase. apply Hr. exact Hf.
Qed.

(** [apply_damage] returns on a sound mech under a fair oracle: by
    induction on the measure of the call. *)
Lemma apply_damage_total (rnd : nat -> nat) (bound : nat) :
  fair rnd ->
  forall (N : nat) (m : Mech) (id : string) (dmg : Z) (rear : bool)
         (p : nat),
    sound bound m -> is_Some (locations m !! id) ->
    (call_measure m id < N)%nat ->
    exists m' p',
      settles (fun fuel => apply_damage rnd fuel m id dmg rear) p (m', p')
      /\ wear m m'.
Proof.
  intros Hfair.
  assert (Hwear : forall m id dmg rear p m' p',
            settles (fun fuel => apply_damage rnd fuel m id dmg rear) p
              (m', p') -> wear m m').
  { intros m id dmg rear p m' p' [F H].
    eapply apply_damage_wear. apply (H F). lia. }
  assert (Hout : forall m id dmg rear p m' p',
            settles (fun fuel => apply_damage rnd fuel m id dmg rear) p
              (m', p') ->
            exists m1 p1,
              settles (fun fuel => apply_damage rnd fuel m id dmg rear) p
                (m1, p1) /\ wear m m1).
  { intros m id dmg rear p m' p' H. exists m', p'.
    split; [exact H | eapply Hwear; exact H]. }
  induction N as [| N IH];
    intros m id dmg rear p Hs [a Hl] HN; [lia |].
  unfold call_measure in *.
  pose proof Hs as (Hnames & Hclosed & _).
  assert (Hone : forall r,
            (forall f, apply_damage rnd (S f) m id dmg rear p = Ret r) ->
            settles (fun fuel => apply_damage rnd fuel m id dmg rear) p r).
  { intros r H. exists 1%nat. intros fuel Hf.
    destruct fuel as [| f]; [lia | apply H]. }
  assert (Hnext : forall m1 id1 dmg1 p1 r,
            (forall f, apply_damage rnd (S f) m id dmg rear p
                       = apply_damage rnd f m1 id1 dmg1 false p1) ->
            settles (fun fuel => apply_damage rnd fuel m1 id1 dmg1 false) p1
              r ->
            settles (fun fuel => apply_damage rnd fuel m id dmg rear) p r).
  { intros m1 id1 dmg1 p1 r H [F HF]. exists (S F). intros fuel Hf.
    destruct fuel as [| f]; [lia |]. rewrite H. apply HF. lia. }
  destruct (destroyed a) eqn:Hd.
  { destruct (transfer_to a) as [t |] eqn:Ht.
    - destruct (IH m t dmg false p Hs) as (m' & p' & Hr & _).
      + eapply Hclosed; eassumption.
      + assert (rank t < rank id)%nat.
        { apply rank_transfer. unfold transfer_to in Ht.
          rewrite (Hnames id a Hl) in Ht. exact Ht. }
        lia.
      + apply (Hout m id dmg rear p m' p').
        apply (Hnext m t dmg p); [| exact Hr].
        intros f. rewrite (apply_damage_on_destroyed rnd f m id dmg rear p a)
          by assumption. rewrite Ht. reflexivity.
    - apply (Hout m id dmg rear p m p). apply Hone. intros f.
      rewrite (apply_damage_on_destroyed rnd f m id dmg rear p a)
        by assumption. rewrite Ht. reflexivity. }
  pose proof (loc_wear_absorb id rear a dmg) as Hab.
  destruct (absorb_armor id rear a dmg) as [loc1 d1] eqn:Habs.
  cbn [fst] in Hab.
  destruct (d1 <=? 0) eqn:Hd1.
  { apply (Hout m id dmg rear p (put_loc id loc1 m) p). apply Hone.
    intros f. cbn [apply_damage].
    rewrite (bind_ret _ _ _ _ _ (get_loc_ret m id a p Hl)).
    rewrite Hd, Habs. cbv zeta. rewrite Hd1. reflexivity. }
  set (loc2 := set_current_structure
                 (current_structure loc1
                  - Z.min (current_structure loc1) d1) loc1).
  set (m2 := put_loc id loc2 (put_loc id loc1 m)).
  assert (W2 : wear m m2).
  { eapply wear_trans;
      [apply (wear_put_loc id a); [exact Hl | exact Hab] |].
    apply (wear_put_loc id loc1); [apply lookup_put_loc |].
    unfold loc_wear, live_slots. loc_fields. repeat split; auto. }
  pose proof (wear_live _ _ W2) as L2.
  assert (S2 : sound bound m2) by (apply (sound_wear bound m m2 W2 Hs)).
  assert (P2 : is_Some (locations m2 !! id))
    by (apply (wear_is_Some m m2 id W2); eauto).
  assert (Hstage : exists m3 q,
    settles (fun f =>
      if (0 <? Z.min (current_structure loc1) d1)
         && (0 <? current_structure loc2)
      then
        let* num_crits := roll_critical_hits rnd in
        if 0 <? num_crits
        then apply_crits_body rnd
               (ammo_explosion_body (apply_damage rnd f)) f m2 id num_crits
        else ret m2
      else ret m2) p (m3, q) /\ wear m2 m3).
  { destruct (_ && _);
      [| exists m2, p; split; [exists 0%nat; reflexivity | apply wear_refl]].
    destruct (roll_critical_hits_ret rnd p) as (n & Hn & _).
    destruct (0 <? n) eqn:Hpos.
    2:{ exists m2, (S (S p)). split; [| apply wear_refl].
        exists 0%nat. intros f _. rewrite (bind_ret _ _ _ _ _ Hn), Hpos.
        reflexivity. }
    destruct (apply_crits_body_total rnd
                (fun f => ammo_explosion_body (apply_damage rnd f)) bound
                (live_total m2) id n m2 (S (S p)))
      as (m3 & q & [F Hr] & W3 & _); try assumption; try lia.
    - intros m0 slot p0 S0 P0 L0.
      apply (ammo_explosion_body_total (apply_damage rnd) bound
               (live_total m2)); try assumption.
      intros m4 d r q S4 P4 L4.
      apply (IH m4 id d r q S4 P4). lia.
    - exists m3, q. split; [| exact W3].
      exists F. intros f Hf. rewrite (bind_ret _ _ _ _ _ Hn), Hpos.
      apply Hr. exact Hf. }
  destruct Hstage as (m3 & q & [F2 Hst] & W3).
  assert (W13 : wear m m3) by (apply (wear_trans m m2 m3 W2 W3)).
  destruct (wear_is_Some m m3 id W13 ltac:(eauto)) as [a0 Hl3].
  assert (Hbody : forall f,
    apply_damage rnd (S f) m id dmg rear p =
      (let* m3' :=
         if (0 <? Z.min (current_structure loc1) d1)
            && (0 <? current_structure loc2)
         then
           let* num_crits := roll_critical_hits rnd in
           if 0 <? num_crits
           then apply_crits_body rnd
                  (ammo_explosion_body (apply_damage rnd f)) f m2 id
                  num_crits
           else ret m2
         else ret m2 in
       let* loc := get_loc m3' id in
       if current_structure loc <=? 0 then
         let m4 := mark_destroyed id loc m3' in
         if is_dead m4 then ret (set_active false m4)
         else if 0 <? d1 - Z.min (current_structure loc1) d1 then
           match transfer_to loc with
           | Some transfer =>
               apply_damage rnd f m4 transfer
                 (d1 - Z.min (current_structure loc1) d1) false
           | None => ret m4
           end
         else ret m4
       else ret m3') p).
  { intros f. cbn [apply_damage].
    rewrite (bind_ret _ _ _ _ _ (get_loc_ret m id a p Hl)).
    rewrite Hd, Habs. cbv zeta. rewrite Hd1. reflexivity. }
  assert (Hend : forall r,
            (forall f, (F2 <= f)%nat ->
               apply_damage rnd (S f) m id dmg rear p = Ret r) ->
            settles (fun fuel => apply_damage rnd fuel m id dmg rear) p r).
  { intros r H. exists (S F2). intros fuel Hf.
    destruct fuel as [| f]; [lia |]. apply H. lia. }
  destruct (current_structure a0 <=? 0) eqn:Hzero.
  2:{ apply (Hout m id dmg rear p m3 q). apply Hend. intros f Hf.
      rewrite Hbody. rewrite (bind_ret _ _ _ _ _ (Hst f Hf)).
      rewrite (bind_ret _ _ _ _ _ (get_loc_ret m3 id a0 q Hl3)).
      rewrite Hzero. reflexivity. }
  set (m4 := mark_destroyed id a0 m3).
  destruct (is_dead m4) eqn:Hdead.
  { apply (Hout m id dmg rear p (set_active false m4) q). apply Hend.
    intros f Hf.
    rewrite Hbody. rewrite (bind_ret _ _ _ _ _ (Hst f Hf)).
    rewrite (bind_ret _ _ _ _ _ (get_loc_ret m3 id a0 q Hl3)).
    rewrite Hzero. cbv zeta. fold m4. rewrite Hdead. reflexivity. }
  destruct (0 <? d1 - Z.min (current_structure loc1) d1) eqn:Hex.
  2:{ apply (Hout m id dmg rear p m4 q). apply Hend. intros f Hf.
      rewrite Hbody. rewrite (bind_ret _ _ _ _ _ (Hst f Hf)).
      rewrite (bind_ret _ _ _ _ _ (get_loc_ret m3 id a0 q Hl3)).
      rewrite Hzero. cbv zeta. fold m4. rewrite Hdead. rewrite ?Hex. reflexivity. }
  destruct (transfer_to a0) as [t |] eqn:Ht.
  2:{ apply (Hout m id dmg rear p m4 q). apply Hend. intros f Hf.
      rewrite Hbody. rewrite (bind_ret _ _ _ _ _ (Hst f Hf)).
      rewrite (bind_ret _ _ _ _ _ (get_loc_ret m3 id a0 q Hl3)).
      rewrite Hzero. cbv zeta. fold m4. rewrite Hdead. rewrite ?Hex. rewrite Ht.
      reflexivity. }
  assert (W4 : wear m3 m4) by (apply mark_destroyed_wear; exact Hl3).
  assert (S3 : sound bound m3) by (apply (sound_wear bound m m3 W13 Hs)).
  pose proof S3 as (Hnames3 & Hclosed3 & _).
  destruct (IH m4 t (d1 - Z.min (current_structure loc1) d1) false q)
    as (m' & p' & [F3 Hr] & _).
  - apply (sound_wear bound m3 _ W4 S3).
  - apply (wear_is_Some m3 _ t W4). apply (Hclosed3 id a0 t Hl3 Ht).
  - assert (rank t < rank id)%nat.
    { apply rank_transfer. unfold transfer_to in Ht.
      rewrite (Hnames3 id a0 Hl3) in Ht. exact Ht. }
    pose proof (wear_live _ _ W13). pose proof (wear_live _ _ W4). lia.
  - apply (Hout m id dmg rear p m' p').
    exists (S (Nat.max F2 F3)). intros fuel Hf.
    destruct fuel as [| f]; [lia |].
    rewrite Hbody. rewrite (bind_ret _ _ _ _ _ (Hst f ltac:(lia))).
    rewrite (bind_ret _ _ _ _ _ (get_loc_ret m3 id a0 q Hl3)).
    rewrite Hzero. cbv zeta. fold m4. rewrite Hdead. rewrite ?Hex. rewrite Ht.
    apply Hr. lia.
Qed.

(** [apply_damage] returns on a sound mech under a fair oracle. *)
Theorem apply_damage_terminates (rnd : nat -> nat) (bound : nat) (m : Mech)
    (id : string) (dmg : Z) (rear : bool) (p : nat) :
  fair rnd -> sound bound m -> is_Some (locations m !! id) ->
  exists m' p',
    settles (fun fuel => apply_damage rnd fuel m id dmg rear) p (m', p')
    /\ wear m m'.
Proof.
  intros Hfair Hs Hid.
  apply (apply_damage_total rnd bound Hfair (S (call_measure m id)));
    [exact Hs | exact Hid | lia].
Qed.

(** ** Destruction of a location *)

(** C8.  Whenever a hit on a live location gets past the armor with at
    least the location's structure left, so that [apply_damage] takes the
    structure to zero, the location and the weapons mounted there are
    flagged destroyed and the death condition is read on that mech [w].
    If [w] is dead, the call returns at once, whatever the oracle, with
    exactly [w] made inactive, no draw consumed and nothing handed on.
    If [w] is not dead and there is no excess, or no location to hand it
    on to, the call returns [w] at once.
    Whatever the call returns, with any fuel and any oracle, is [w],
    possibly worn further by the transfer of the excess, with the location
    destroyed and every weapon mounted there destroyed.  And on a sound
    mech under a fair oracle the call does return such a mech: from some
    amount of fuel on, always the same one. *)
Theorem apply_damage_destroys (rnd : nat -> nat) (bound : nat) (m : Mech)
    (id : string) (dmg : Z) (rear : bool) (p : nat) (loc : Location) :
  locations m !! id = Some loc -> destroyed loc = false ->
  0 < past_armor id rear loc dmg ->
  current_structure loc <= past_armor id rear loc dmg ->
  let w := wrecked id rear loc dmg m in
  (is_dead w = true ->
   forall f,
     apply_damage rnd (S f) m id dmg rear p = Ret (set_active false w, p)
     /\ active (set_active false w) = false) /\
  (is_dead w = false ->
   past_armor id rear loc dmg <= current_structure loc
   \/ transfer_to loc = None ->
   forall f, apply_damage rnd (S f) m id dmg rear p = Ret (w, p)) /\
  (forall fuel m' p',
      apply_damage rnd fuel m id dmg rear p = Ret (m', p') ->
      loc_destroyed m' id = true
      /\ (forall mw, mw ∈ weapons m' -> location mw = id ->
          mw_destroyed mw = true)
      /\ wear w m') /\
  (fair rnd -> sound bound m ->
   exists m' p',
     (exists F, forall fuel, (F <= fuel)%nat ->
        apply_damage rnd fuel m id dmg rear p = Ret (m', p'))
     /\ loc_destroyed m' id = true
     /\ (forall mw, mw ∈ weapons m' -> location mw = id ->
         mw_destroyed mw = true)
     /\ wear w m').
Proof.
  intros Hl Hd Hpast Hcs. cbv zeta.
  set (w := wrecked id rear loc dmg m).
  assert (Hw1 : loc_destroyed w id = true) by apply wrecked_loc_destroyed.
  assert (Hw2 : forall mw, mw ∈ weapons w -> location mw = id ->
                           mw_destroyed mw = true)
    by apply wrecked_weapons.
  assert (Hany : forall fuel m' p',
            apply_damage rnd fuel m id dmg rear p = Ret (m', p') ->
            loc_destroyed m' id = true
            /\ (forall mw, mw ∈ weapons m' -> location mw = id ->
                mw_destroyed mw = true)
            /\ wear w m').
  { intros fuel m' p'. destruct fuel as [| f]; [discriminate |].
    rewrite (apply_damage_depletes rnd f m id dmg rear p loc Hl Hd Hpast Hcs).
    cbv zeta. fold w.
    assert (Hfin : forall m1 : Mech, wear w m1 ->
              loc_destroyed m1 id = true
              /\ (forall mw, mw ∈ weapons m1 -> location mw = id ->
                  mw_destroyed mw = true)
              /\ wear w m1).
    { intros m1 Hw. split; [eapply wear_loc_destroyed; eassumption |].
      split; [eapply wear_weapons_destroyed; eassumption |]. exact Hw. }
    destruct (is_dead w).
    - intros H. inversion H; subst. apply Hfin. apply wear_set_active.
    - destruct (0 <? _).
      + destruct (transfer_to loc).
        * intros H. apply Hfin. eapply apply_damage_wear. exact H.
        * intros H. inversion H; subst. apply Hfin. apply wear_refl.
      + intros H. inversion H; subst. apply Hfin. apply wear_refl. }
  split; [| split; [| split]].
  - intros Hdead f.
    rewrite (apply_damage_depletes rnd f m id dmg rear p loc Hl Hd Hpast Hcs).
    cbv zeta. fold w. rewrite Hdead. split; reflexivity.
  - intros Hdead Hlast f.
    rewrite (apply_damage_depletes rnd f m id dmg rear p loc Hl Hd Hpast Hcs).
    cbv zeta. fold w. rewrite Hdead.
    destruct Hlast as [Hle | ->].
    + destruct (Z.ltb_spec 0 (past_armor id rear loc dmg
                              - current_structure loc)); [lia | reflexivity].
    + destruct (0 <? _); reflexivity.
  - exact Hany.
  - intros Hfair Hs.
    destruct (apply_damage_terminates rnd bound m id dmg rear p Hfair Hs
                ltac:(eauto)) as (m' & p' & [F HF] & _).
    exists m', p'. split; [exists F; exact HF |].
    apply (Hany F m' p'). apply HF. lia.
Qed.

Lemma apply_damage_destroys_witness :
  (apply_damage rnd_zero 1 xl_mech "LT" 5 false 0%nat
     = Ret (set_active false
              (wrecked "LT" false (mk_loc "LT" 0 0 1 [] false) 5 xl_mech),
            0%nat)
   /\ active (set_active false
                (wrecked "LT" false (mk_loc "LT" 0 0 1 [] false) 5 xl_mech))
      = false) /\
  is_dead (wrecked "RA" false (mk_loc "RA" 6 0 8 [] false) 16 duelist)
  = false /\
  exists m' p',
    (exists F, forall fuel, (F <= fuel)%nat ->
       apply_damage rnd_sweep fuel duelist "RA" 16 false 0%nat
       = Ret (m', p'))
    /\ loc_destroyed m' "RA" = true
    /\ (forall mw, mw ∈ weapons m' -> location mw = "RA" ->
        mw_destroyed mw = true)
    /\ wear (wrecked "RA" false (mk_loc "RA" 6 0 8 [] false) 16 duelist) m'
    /\ map (fun mw => (location mw, mw_destroyed mw)) (weapons m')
       = [("RA", true)].
Proof.
  split; [| split; [reflexivity |]].
  - apply (apply_damage_destroys rnd_zero 0 xl_mech "LT" 5 false 0%nat
             (mk_loc "LT" 0 0 1 [] false));
      [reflexivity | reflexivity | reflexivity | discriminate | reflexivity].
  - destruct (apply_damage_destroys rnd_sweep 1 duelist "RA" 16 false 0%nat
                (mk_loc "RA" 6 0 8 [] false)
                ltac:(reflexivity) ltac:(reflexivity) ltac:(reflexivity)
                ltac:(discriminate))
      as (_ & _ & _ & Hret).
    destruct (Hret rnd_sweep_fair
                (sound_check_ok 1 duelist ltac:(vm_compute; reflexivity)))
      as (m' & p' & [F HF] & H1 & H2 & H3).
    exists m', p'. split; [exists F; exact HF |].
    split; [exact H1 |]. split; [exact H2 |]. split; [exact H3 |].
    pose proof (HF (Nat.max F 2) (Nat.le_max_l F 2)) as E.
    rewrite (apply_damage_mono rnd_sweep 2 (Nat.max F 2) duelist "RA" 16
               false 0%nat _ (Nat.le_max_r F 2) eq_refl) in E.
    inversion E. reflexivity.
Defined.

(** ** Critical hits *)

(** C9, as amended.  On a sound mech and under a fair oracle (one whose
    draws, from any cursor on, eventually give every index) applying [n]
    critical hits to a location returns: from some amount of fuel on the
    call gives one and the same result.  Every pick redraws only until a
    live slot's index comes up, and the loop runs until [n] more slots of
    the location are destroyed or none is left. *)
Theorem apply_crits_terminates (rnd : nat -> nat) (bound : nat) (m : Mech)
    (id : string) (n : Z) (p : nat) :
  fair rnd -> sound bound m -> is_Some (locations m !! id) ->
  exists m' p',
    (exists F, forall fuel, (F <= fuel)%nat ->
       _apply_crits rnd fuel m id n p = Ret (m', p'))
    /\ wear m m'
    /\ (live_in m' id + Z.to_nat n <= live_in m id \/ live_in m' id = 0)%nat.
Proof.
  intros Hfair Hs Hid.
  apply (apply_crits_body_total rnd (fun f => _ammo_explosion rnd f) bound
           (live_total m) id n m p Hfair); try assumption; [| lia].
  intros m2 slot p2 S2 P2 L2.
  apply (ammo_explosion_body_total (apply_damage rnd) bound (live_total m));
    try assumption.
  intros m0 d r q S0 P0 L0.
  apply (apply_damage_terminates rnd bound m0 id d r q Hfair S0 P0).
Qed.

Lemma apply_crits_terminates_witness :
  exists m' p',
    (exists F, forall fuel, (F <= fuel)%nat ->
       _apply_crits rnd_sweep fuel worn_mech "LT" 1 0%nat = Ret (m', p'))
    /\ wear worn_mech m'
    /\ (live_in m' "LT" + Z.to_nat 1 <= live_in worn_mech "LT"
        \/ live_in m' "LT" = 0)%nat.
Proof.
  apply (apply_crits_terminates rnd_sweep 2 worn_mech "LT" 1 0%nat).
  - exact rnd_sweep_fair.
  - apply sound_check_ok. vm_compute. reflexivity.
  - vm_compute. eexists. reflexivity.
Defined.

(** On the sweeping oracle the pick of that hit draws the destroyed first
    slot twice before the live second one comes up: the call returns after
    three draws, with fuel for two redraws and not with less. *)
Lemma crit_retry_example :
  map rnd_sweep [0; 1; 2]%nat = [0; 0; 1]%nat
  /\ _apply_crits rnd_sweep 2 worn_mech "LT" 1 0%nat = OutOfFuel
  /\ exists m',
       (forall fuel, (3 <= fuel)%nat ->
          _apply_crits rnd_sweep fuel worn_mech "LT" 1 0%nat = Ret (m', 3%nat))
       /\ (crittable_slots <$> locations m' !! "LT")
          = Some ["DESTROYED"; "DESTROYED"].
Proof.
  split; [reflexivity |]. split; [vm_compute; reflexivity |].
  eexists. split.
  - intros fuel Hf.
    apply (apply_crits_mono rnd_sweep 3 fuel worn_mech "LT" 1 0%nat _ Hf).
    vm_compute. reflexivity.
  - vm_compute. reflexivity.
Qed.

(** The retry loop itself has no bound: on an oracle that keeps drawing the
    index of a destroyed slot it never stops, whatever the fuel. *)
Lemma redraw_slot_stuck (fuel : nat) (p : nat) :
  redraw_slot rnd_zero fuel ["DESTROYED"; "Engine"] 0 p = OutOfFuel.
Proof.
  revert p. induction fuel as [| f IH]; intros p; [reflexivity |].
  cbn [redraw_slot]. unfold bind.
  change (slot_at ["DESTROYED"; "Engine"] 0 p) with (Ret ("DESTROYED", p)).
  change (is_DESTROYED "DESTROYED") with true. cbv iota.
  change (randint rnd_zero 0 (Z.of_nat (length ["DESTROYED"; "Engine"]) - 1) p)
    with (Ret (0, S p)).
  apply IH.
Qed.

(** C9 as first stated fails: the left torso of [worn_mech] has a live slot
    left, so one critical hit starts a pick; on the oracle whose draws are
    all 0 every draw names the destroyed first slot, and no amount of fuel
    lets the call return. *)
Lemma crit_retry_counterexample :
  (available_slots <$> locations worn_mech !! "LT") = Some ["Engine"] /\
  forall fuel,
    _apply_crits rnd_zero fuel worn_mech "LT" 1 0%nat = OutOfFuel.
Proof.
  split; [vm_compute; reflexivity |].
  intros fuel. unfold _apply_crits, apply_crits_body.
  assert (Hl : locations worn_mech !! "LT"
               = Some (mk_loc "LT" 0 0 12 ["DESTROYED"; "Engine"] false))
    by (vm_compute; reflexivity).
  rewrite (bind_ret _ _ _ _ _ (get_loc_ret _ _ _ _ Hl)).
  change (available_slots (mk_loc "LT" 0 0 12 ["DESTROYED"; "Engine"] false))
    with ["Engine"].
  change (Z.to_nat 1) with 1%nat. cbn [crit_loop].
  rewrite (bind_ret _ _ _ _ _ (get_loc_ret _ _ _ _ Hl)).
  change (available_slots (mk_loc "LT" 0 0 12 ["DESTROYED"; "Engine"] false))
    with ["Engine"].
  unfold bind at 1. unfold pick_slot, bind at 1.
  change (crittable_slots (mk_loc "LT" 0 0 12 ["DESTROYED"; "Engine"] false))
    with ["DESTROYED"; "Engine"].
  change (randint rnd_zero 0 (Z.of_nat (length ["DESTROYED"; "Engine"]) - 1)
            0%nat) with (Ret (0, 1%nat)).
  cbv beta iota. rewrite redraw_slot_stuck. reflexivity.
Qed.

(** * Further properties of the modelled code *)

(** ** What damage never touches *)

Ltac loc_all :=
  cbn [loc_name max_armor current_armor rear_max_armor rear_current_armor
       max_structure current_structure destroyed crittable_slots has_case
       set_crittable_slots set_current_structure set_destroyed
       set_current_armor set_rear_current_armor].

Lemma drained_refl (x : Z) : drained x x.
Proof. unfold drained. lia. Qed.

Lemma drained_trans (x y z : Z) : drained x y -> drained y z -> drained x z.
Proof. unfold drained. intros H1 H2 H. specialize (H1 H). lia. Qed.

Lemma loc_spent_refl (l : Location) : loc_spent l l.
Proof. unfold loc_spent. repeat split; auto using drained_refl; lia. Qed.

Lemma loc_spent_trans (a b c : Location) :
  loc_spent a b -> loc_spent b c -> loc_spent a c.
Proof.
  unfold loc_spent.
  intros (H1 & H2 & H3 & H4 & H5 & H6) (G1 & G2 & G3 & G4 & G5 & G6).
  split; [congruence |]. split; [congruence |]. split; [congruence |].
  split; [exact (drained_trans _ _ _ H4 G4) |].
  split; [exact (drained_trans _ _ _ H5 G5) |].
  exact (drained_trans _ _ _ H6 G6).
Qed.

Lemma mw_spent_refl (w : MountedWeapon) : mw_spent w w.
Proof.
  unfold mw_spent. destruct (ammo_remaining w); auto using drained_refl.
Qed.

Lemma mw_spent_trans (a b c : MountedWeapon) :
  mw_spent a b -> mw_spent b c -> mw_spent a c.
Proof.
  unfold mw_spent.
  destruct (ammo_remaining a), (ammo_remaining b), (ammo_remaining c);
    try tauto. apply drained_trans.
Qed.

Lemma Forall2_mw_spent_refl (ws : list MountedWeapon) :
  Forall2 mw_spent ws ws.
Proof. induction ws; constructor; auto using mw_spent_refl. Qed.

Lemma Forall2_mw_spent_trans (a b c : list MountedWeapon) :
  Forall2 mw_spent a b -> Forall2 mw_spent b c -> Forall2 mw_spent a c.
Proof.
  intros H. revert c. induction H; intros c Hc; inversion Hc; subst;
    constructor; eauto using mw_spent_trans.
Qed.

Lemma same_chassis_refl (m : Mech) : same_chassis m m.
Proof. unfold same_chassis. repeat split. Qed.

Lemma same_chassis_trans (a b c : Mech) :
  same_chassis a b -> same_chassis b c -> same_chassis a c.
Proof.
  unfold same_chassis. intros H G.
  repeat match goal with H : _ /\ _ |- _ => destruct H end.
  repeat split; congruence.
Qed.

Lemma steady_refl (m : Mech) : steady m m.
Proof.
  constructor; auto using Forall2_mw_spent_refl, same_chassis_refl.
  intros k l H. exists l. split; [exact H | apply loc_spent_refl].
Qed.

Lemma steady_trans (a b c : Mech) : steady a b -> steady b c -> steady a c.
Proof.
  intros [L1 D1 W1 C1 A1] [L2 D2 W2 C2 A2]. constructor.
  - intros k l H. destruct (L1 k l H) as (l1 & H1 & Hw1).
    destruct (L2 k l1 H1) as (l2 & H2 & Hw2).
    exists l2. split; [exact H2 | eapply loc_spent_trans; eassumption].
  - auto.
  - eapply Forall2_mw_spent_trans; eassumption.
  - eapply same_chassis_trans; eassumption.
  - auto.
Qed.

Lemma steady_put_loc (id : string) (l l' : Location) (m : Mech) :
  locations m !! id = Some l -> loc_spent l l' -> steady m (put_loc id l' m).
Proof.
  intros Hl Hw. constructor.
  - intros k l0 Hk. destruct (decide (id = k)) as [<- | Hne].
    + rewrite lookup_put_loc. exists l'. split; [reflexivity |]. congruence.
    + rewrite lookup_put_loc_ne by exact Hne. exists l0.
      split; [exact Hk | apply loc_spent_refl].
  - intros k Hk. destruct (decide (id = k)) as [<- | Hne]; [congruence |].
    rewrite lookup_put_loc_ne by exact Hne. exact Hk.
  - apply Forall2_mw_spent_refl.
  - unfold same_chassis. repeat split.
  - auto.
Qed.

Lemma steady_set_weapons (ws : list MountedWeapon) (m : Mech) :
  Forall2 mw_spent (weapons m) ws -> steady m (set_weapons ws m).
Proof.
  intros H. constructor; auto.
  - intros k l Hk. exists l. split; [exact Hk | apply loc_spent_refl].
  - unfold same_chassis. repeat split.
Qed.

Lemma steady_deactivate (m : Mech) : steady m (set_active false m).
Proof.
  constructor; auto using Forall2_mw_spent_refl.
  - intros k l Hk. exists l. split; [exact Hk | apply loc_spent_refl].
  - unfold same_chassis. repeat split.
  - cbn. discriminate.
Qed.

Lemma destroy_weapons_in_spent (id : string) (ws : list MountedWeapon) :
  Forall2 mw_spent ws (destroy_weapons_in id ws).
Proof.
  induction ws as [| w ws IH]; cbn; constructor; [| exact IH].
  destruct (String.eqb (location w) id); [| apply mw_spent_refl].
  unfold mw_spent. cbn. destruct (ammo_remaining w); auto using drained_refl.
Qed.

Lemma find_ammo_spent (id slot : string) (ws : list MountedWeapon) :
  Forall2 mw_spent ws (snd (find_ammo id slot ws)).
Proof.
  induction ws as [| w ws IH]; cbn; [constructor |].
  destruct (_ && _ && _) eqn:Hc; cbn.
  - constructor; [| apply Forall2_mw_spent_refl].
    apply andb_prop in Hc as [Hc _]. apply andb_prop in Hc as [_ Hc].
    unfold has_ammo_left in Hc. unfold mw_spent. cbn.
    destruct (ammo_remaining w); [| discriminate].
    unfold drained. lia.
  - destruct (find_ammo id slot ws) as [d rest]. cbn in *.
    constructor; [apply mw_spent_refl | exact IH].
Qed.

Lemma destroy_first_named_spent (id item : string)
    (ws : list MountedWeapon) :
  Forall2 mw_spent ws (snd (destroy_first_named id item ws)).
Proof.
  induction ws as [| w ws IH]; cbn; [constructor |].
  destruct (_ && _ && _); cbn.
  - constructor; [| apply Forall2_mw_spent_refl].
    unfold mw_spent. cbn. destruct (ammo_remaining w); auto using drained_refl.
  - destruct (destroy_first_named id item ws) as [r rest]. cbn in *.
    constructor; [apply mw_spent_refl | exact IH].
Qed.

Lemma loc_spent_slots (loc : Location) (slots : list string) :
  loc_spent loc (set_crittable_slots slots loc).
Proof.
  unfold loc_spent. loc_all. repeat split; auto using drained_refl; lia.
Qed.

Lemma loc_spent_absorb (id : string) (rear : bool) (loc : Location)
    (dmg : Z) :
  0 <= dmg -> loc_spent loc (fst (absorb_armor id rear loc dmg)).
Proof.
  intros Hd. unfold absorb_armor, loc_spent, drained.
  destruct (rear && REAR_ARMOR_LOCATIONS id).
  - destruct (Z.ltb_spec 0 (rear_current_armor loc)); cbn [fst]; loc_all;
      repeat split; lia.
  - destruct (Z.ltb_spec 0 (current_armor loc)); cbn [fst]; loc_all;
      repeat split; lia.
Qed.

Lemma past_armor_nonneg (id : string) (rear : bool) (loc : Location)
    (dmg : Z) :
  0 <= dmg -> 0 <= snd (absorb_armor id rear loc dmg).
Proof.
  intros Hd. unfold absorb_armor.
  destruct (rear && REAR_ARMOR_LOCATIONS id).
  - destruct (Z.ltb_spec 0 (rear_current_armor loc)); cbn [snd]; lia.
  - destruct (Z.ltb_spec 0 (current_armor loc)); cbn [snd]; lia.
Qed.

Lemma loc_spent_structure (loc : Location) (d : Z) :
  0 <= d ->
  loc_spent loc
    (set_current_structure
       (current_structure loc - Z.min (current_structure loc) d) loc).
Proof.
  intros Hd. unfold loc_spent, drained. loc_all. repeat split; lia.
Qed.

Lemma crit_weapon_steady (id item : string) (loc : Location) (m : Mech) :
  locations m !! id = Some loc -> steady m (crit_weapon id item loc m).
Proof.
  intros Hl. unfold crit_weapon.
  pose proof (destroy_first_named_spent id item (weapons m)) as Hw.
  destruct (destroy_first_named id item (weapons m)) as [found ws].
  cbn [snd] in Hw.
  assert (H1 : steady m (set_weapons ws m))
    by (apply steady_set_weapons; exact Hw).
  destruct found as [mw |]; [| exact H1].
  destruct (1 <? crit_slots (weapon mw)); [| exact H1].
  apply (steady_trans m (set_weapons ws m)); [exact H1 |].
  apply (steady_put_loc id loc); [exact Hl | apply loc_spent_slots].
Qed.

Lemma case_contain_steady (id : string) (loc : Location) (m : Mech) :
  locations m !! id = Some loc -> steady m (case_contain id loc m).
Proof.
  intros Hl. unfold case_contain. cbv zeta.
  eapply steady_trans; cycle 1.
  - apply steady_set_weapons. apply destroy_weapons_in_spent.
  - apply (steady_put_loc id loc); [exact Hl |].
    unfold loc_spent, drained. loc_all. repeat split; lia.
Qed.

Lemma mark_destroyed_steady (id : string) (loc : Location) (m : Mech) :
  locations m !! id = Some loc -> steady m (mark_destroyed id loc m).
Proof.
  intros Hl. unfold mark_destroyed.
  eapply steady_trans; cycle 1.
  - apply steady_set_weapons. apply destroy_weapons_in_spent.
  - apply (steady_put_loc id loc); [exact Hl |].
    unfold loc_spent. loc_all. repeat split; auto using drained_refl; lia.
Qed.

Lemma ammo_damage_positive (d : Z) : 0 <= (if d <=? 0 then 20 else d).
Proof. destruct (Z.leb_spec d 0); lia. Qed.

Lemma ammo_explosion_body_steady
    (rec : Mech -> string -> Z -> bool -> M Mech) (m : Mech)
    (id slot : string) (p : nat) (m' : Mech) (p' : nat) :
  (forall m0 id0 d r q m1 q1,
      0 <= d -> rec m0 id0 d r q = Ret (m1, q1) -> steady m0 m1) ->
  ammo_explosion_body rec m id slot p = Ret (m', p') -> steady m m'.
Proof.
  intros Hrec H. unfold ammo_explosion_body in H.
  inv_bind H. apply get_loc_ret_inv in Hstep as [Hl ->].
  pose proof (find_ammo_spent id slot (weapons m)) as Hw.
  destruct (find_ammo id slot (weapons m)) as [d ws]. cbn [snd] in Hw.
  assert (H1 : steady m (set_weapons ws m))
    by (apply steady_set_weapons; exact Hw).
  destruct (has_case a).
  - inversion H; subst. apply (steady_trans m (set_weapons ws m));
      [exact H1 |]. apply case_contain_steady. exact Hl.
  - apply (steady_trans m (set_weapons ws m)); [exact H1 |].
    eapply Hrec; [apply ammo_damage_positive | exact H].
Qed.

Lemma crit_loop_steady (rnd : nat -> nat)
    (explode : Mech -> string -> string -> M Mech) (fuel : nat) (n : nat)
    (m : Mech) (id : string) (p : nat) (m' : Mech) (p' : nat) :
  (forall m0 id0 s q m1 q1,
      explode m0 id0 s q = Ret (m1, q1) -> steady m0 m1) ->
  crit_loop rnd explode fuel n m id p = Ret (m', p') -> steady m m'.
Proof.
  intros Hex. revert m p. induction n as [| n IH]; intros m p H.
  - cbn in H. inversion H. apply steady_refl.
  - cbn [crit_loop] in H. inv_bind H.
    apply get_loc_ret_inv in Hstep as [Hl ->].
    destruct (available_slots a) as [| s0 rest] eqn:Hav.
    { inversion H. apply steady_refl. }
    inv_bind H. rename a0 into idx. inv_bind H. rename a0 into item.
    inv_bind H. rename a0 into m3.
    apply IH in H.
    eapply steady_trans; [| exact H].
    set (loc' := set_crittable_slots
                   (<[Z.to_nat idx := "DESTROYED"]> (crittable_slots a)) a)
      in *.
    assert (H1 : steady m (put_loc id loc' m))
      by (apply (steady_put_loc id a); [exact Hl | apply loc_spent_slots]).
    assert (H2 : steady m (crit_weapon id item loc' (put_loc id loc' m))).
    { apply (steady_trans m (put_loc id loc' m)); [exact H1 |].
      apply crit_weapon_steady. apply lookup_put_loc. }
    eapply steady_trans; [exact H2 |].
    destruct (String.prefix "Ammo" item).
    + eapply Hex. exact Hstep1.
    + inversion Hstep1. apply steady_refl.
Qed.

Lemma apply_crits_body_steady (rnd : nat -> nat)
    (explode : Mech -> string -> string -> M Mech) (fuel : nat)
    (m : Mech) (id : string) (n : Z) (p : nat) (m' : Mech) (p' : nat) :
  (forall m0 id0 s q m1 q1,
      explode m0 id0 s q = Ret (m1, q1) -> steady m0 m1) ->
  apply_crits_body rnd explode fuel m id n p = Ret (m', p') -> steady m m'.
Proof.
  intros Hex H. unfold apply_crits_body in H. inv_bind H.
  destruct (available_slots a).
  - inversion H. apply steady_refl.
  - eapply crit_loop_steady; eassumption.
Qed.

Lemma apply_damage_steady (rnd : nat -> nat) (fuel : nat) :
  forall (m : Mech) (id : string) (dmg : Z) (rear : bool) (p : nat)
         (m' : Mech) (p' : nat),
    0 <= dmg ->
    apply_damage rnd fuel m id dmg rear p = Ret (m', p') -> steady m m'.
Proof.
  induction fuel as [| f IH]; intros m id dmg rear p m' p' Hdmg H;
    [discriminate |].
  cbn [apply_damage] in H. inv_bind H.
  apply get_loc_ret_inv in Hstep as [Hl ->].
  destruct (destroyed a) eqn:Hd.
  { destruct (transfer_to a).
    - eapply IH; [exact Hdmg | exact H].
    - inversion H. apply steady_refl. }
  pose proof (loc_spent_absorb id rear a dmg Hdmg) as Hab.
  pose proof (past_armor_nonneg id rear a dmg Hdmg) as Hpast.
  destruct (absorb_armor id rear a dmg) as [loc1 d1].
  cbn [fst] in Hab. cbn [snd] in Hpast. cbv zeta in H.
  assert (H1 : steady m (put_loc id loc1 m))
    by (apply (steady_put_loc id a); assumption).
  destruct (d1 <=? 0).
  { inversion H; subst. exact H1. }
  set (loc2 := set_current_structure
                 (current_structure loc1
                  - Z.min (current_structure loc1) d1) loc1) in *.
  assert (H2 : steady m (put_loc id loc2 (put_loc id loc1 m))).
  { apply (steady_trans m (put_loc id loc1 m)); [exact H1 |].
    apply (steady_put_loc id loc1); [apply lookup_put_loc |].
    apply loc_spent_structure. exact Hpast. }
  inv_bind H. rename a0 into m3.
  assert (H3 : steady m m3).
  { eapply steady_trans; [exact H2 |].
    destruct (_ && _).
    - inv_bind Hstep. destruct (0 <? a0).
      + eapply apply_crits_body_steady; [| exact Hstep].
        intros. eapply ammo_explosion_body_steady; [| eassumption].
        intros. eapply IH; eassumption.
      + inversion Hstep. apply steady_refl.
    - inversion Hstep. apply steady_refl. }
  inv_bind H. apply get_loc_ret_inv in Hstep0 as [Hl3 ->].
  destruct (current_structure a0 <=? 0).
  - assert (H4 : steady m (mark_destroyed id a0 m3)).
    { apply (steady_trans m m3); [exact H3 |].
      apply mark_destroyed_steady. exact Hl3. }
    destruct (is_dead _).
    + inversion H; subst.
      eapply steady_trans; [exact H4 | apply steady_deactivate].
    + destruct (Z.ltb_spec 0 (d1 - Z.min (current_structure loc1) d1)).
      * destruct (transfer_to a0).
        -- eapply steady_trans; [exact H4 |].
           eapply IH; [| exact H]. lia.
        -- inversion H; subst. exact H4.
      * inversion H; subst. exact H4.
  - inversion H; subst. exact H3.
Qed.

Lemma map_sum_le (g h : Location -> Z) (a : gmap string Location) :
  forall b : gmap string Location,
    (forall k l, a !! k = Some l ->
                 exists l', b !! k = Some l' /\ h l' <= g l) ->
    (forall k, a !! k = None -> b !! k = None) ->
    map_fold (fun _ l acc => h l + acc) 0 b
    <= map_fold (fun _ l acc => g l + acc) 0 a.
Proof.
  induction a as [| i x a Hi IH] using map_ind; intros b Hsome Hnone.
  - assert (b = ∅) as ->.
    { apply map_empty. intros k. apply Hnone. apply lookup_empty. }
    rewrite !map_fold_empty. lia.
  - destruct (Hsome i x (lookup_insert_eq _ _ _)) as (x' & Hx' & Hle).
    rewrite map_fold_insert_L; [| intros; lia | exact Hi].
    rewrite (map_fold_delete_L _ _ i x' b); [| intros; lia | exact Hx'].
    specialize (IH (delete i b)).
    assert (map_fold (fun _ l acc => h l + acc) 0 (delete i b)
            <= map_fold (fun _ l acc => g l + acc) 0 a); [| lia].
    apply IH.
    + intros k l Hk. assert (i <> k) by congruence.
      destruct (Hsome k l) as (l' & Hl' & Hle').
      { rewrite lookup_insert_ne by assumption. exact Hk. }
      exists l'. split; [| exact Hle'].
      rewrite lookup_delete_ne by assumption. exact Hl'.
    + intros k Hk. destruct (decide (i = k)) as [<- | Hne].
      * apply lookup_delete_eq.
      * rewrite lookup_delete_ne by exact Hne. apply Hnone.
        rewrite lookup_insert_ne by exact Hne. exact Hk.
Qed.

Lemma steady_back (m m' : Mech) (k : string) (l' : Location) :
  steady m m' -> locations m' !! k = Some l' ->
  exists l, locations m !! k = Some l /\ loc_spent l l'.
Proof.
  intros Hs Hk. destruct (locations m !! k) as [l |] eqn:Hl.
  - destruct (steady_locs _ _ Hs k l Hl) as (l2 & Hl2 & Hsp).
    exists l. split; [reflexivity | congruence].
  - rewrite (steady_dom _ _ Hs k Hl) in Hk. discriminate.
Qed.

Lemma steady_bounded (m m' : Mech) : steady m m' -> bounded m -> bounded m'.
Proof.
  intros Hs Hb k l' Hk.
  destruct (steady_back m m' k l' Hs Hk) as (l & Hl & Hsp).
  specialize (Hb k l Hl). unfold loc_bounded, loc_spent, drained in *.
  lia.
Qed.

Lemma steady_total_hp (m m' : Mech) :
  steady m m' -> bounded m ->
  total_hp m' <= total_hp m /\ max_total_hp m' = max_total_hp m.
Proof.
  intros Hs Hb.
  assert (Hfw : forall (g h : Location -> Z),
            (forall l l', loc_bounded l -> loc_spent l l' -> h l' <= g l) ->
            sum_locations h m' <= sum_locations g m).
  { intros g h Hgh. unfold sum_locations. apply map_sum_le.
    - intros k l Hl. destruct (steady_locs _ _ Hs k l Hl) as (l' & Hl' & Hsp).
      exists l'. split; [exact Hl' |]. apply Hgh; [| exact Hsp].
      apply (Hb k l Hl).
    - apply (steady_dom _ _ Hs). }
  assert (Hbw : forall (g h : Location -> Z),
            (forall l l', loc_bounded l -> loc_spent l l' -> g l <= h l') ->
            sum_locations g m <= sum_locations h m').
  { intros g h Hgh. unfold sum_locations. apply map_sum_le.
    - intros k l' Hl'.
      destruct (steady_back m m' k l' Hs Hl') as (l & Hl & Hsp).
      exists l. split; [exact Hl |]. apply Hgh; [| exact Hsp].
      apply (Hb k l Hl).
    - intros k Hk. destruct (locations m !! k) as [l |] eqn:Hl;
        [| reflexivity].
      destruct (steady_locs _ _ Hs k l Hl) as (l' & Hl' & _). congruence. }
  split.
  - unfold total_hp, total_armor, total_structure.
    assert (sum_locations (fun l => current_armor l + rear_current_armor l) m'
            <= sum_locations
                 (fun l => current_armor l + rear_current_armor l) m).
    { apply Hfw. unfold loc_bounded, loc_spent, drained. intros. lia. }
    assert (sum_locations current_structure m'
            <= sum_locations current_structure m).
    { apply Hfw. unfold loc_bounded, loc_spent, drained. intros. lia. }
    lia.
  - unfold max_total_hp.
    assert (sum_locations
              (fun l => max_armor l + rear_max_armor l + max_structure l) m'
            <= sum_locations
                 (fun l => max_armor l + rear_max_armor l + max_structure l)
                 m).
    { apply Hfw. unfold loc_spent. intros. lia. }
    assert (sum_locations
              (fun l => max_armor l + rear_max_armor l + max_structure l) m
            <= sum_locations
                 (fun l => max_armor l + rear_max_armor l + max_structure l)
                 m').
    { apply Hbw. unfold loc_spent. intros. lia. }
    lia.
Qed.

Lemma chain_after_ret :
  apply_damage rnd_zero 3 chain_mech "LA" 10 false 0%nat
  = Ret (chain_after, 0%nat).
Proof. vm_compute. reflexivity. Qed.

(** X1.  A call of [apply_damage] with non-negative damage that returns has
    changed nothing of the mech but its locations, its weapons and its
    [active] flag: name, tonnage, movement points, skills, heat sinks,
    engine, current heat and movement state are as before; the mech is
    never switched back on, and no weapon has gained ammo. *)
Theorem apply_damage_keeps_chassis (rnd : nat -> nat) (fuel : nat)
    (m : Mech) (id : string) (dmg : Z) (rear : bool) (p : nat)
    (m' : Mech) (p' : nat) :
  0 <= dmg ->
  apply_damage rnd fuel m id dmg rear p = Ret (m', p') ->
  same_chassis m m'
  /\ (active m' = true -> active m = true)
  /\ Forall2 mw_spent (weapons m) (weapons m').
Proof.
  intros Hd H. pose proof (apply_damage_steady rnd fuel _ _ _ _ _ _ _ Hd H)
    as Hs.
  split; [apply (steady_chassis _ _ Hs) |].
  split; [apply (steady_active _ _ Hs) | apply (steady_weapons _ _ Hs)].
Qed.

Lemma apply_damage_keeps_chassis_witness :
  same_chassis chain_mech chain_after
  /\ (active chain_after = true -> active chain_mech = true)
  /\ Forall2 mw_spent (weapons chain_mech) (weapons chain_after).
Proof.
  apply (apply_damage_keeps_chassis rnd_zero 3 chain_mech "LA" 10 false
           0%nat chain_after 0%nat); [discriminate | exact chain_after_ret].
Defined.

(** X2.  On a mech whose armor and structure pools all lie between zero
    and their capacity, a call of [apply_damage] with non-negative damage
    that returns leaves every pool between zero and its capacity, does not
    raise the total hit points, and leaves the maximum hit points as they
    were. *)
Theorem apply_damage_keeps_bounds (rnd : nat -> nat) (fuel : nat)
    (m : Mech) (id : string) (dmg : Z) (rear : bool) (p : nat)
    (m' : Mech) (p' : nat) :
  bounded m -> 0 <= dmg ->
  apply_damage rnd fuel m id dmg rear p = Ret (m', p') ->
  bounded m' /\ 0 <= total_hp m' <= total_hp m
  /\ max_total_hp m' = max_total_hp m.
Proof.
  intros Hb Hd H.
  pose proof (apply_damage_steady rnd fuel _ _ _ _ _ _ _ Hd H) as Hs.
  pose proof (steady_bounded m m' Hs Hb) as Hb'.
  destruct (steady_total_hp m m' Hs Hb) as [Hle Hmax].
  split; [exact Hb' |]. split; [| exact Hmax]. split; [| exact Hle].
  unfold total_hp, total_armor, total_structure.
  assert (Hpos : forall g : Location -> Z,
            (forall l, loc_bounded l -> 0 <= g l) ->
            0 <= sum_locations g m').
  { intros g Hg. unfold sum_locations.
    assert (Hz : map_fold (fun (_ : string) (l : Location) acc => 0 + acc)
                   0 (locations m') = 0).
    { apply (map_fold_weak_ind (fun r _ => r = 0)); [reflexivity |].
      intros. lia. }
    rewrite <- Hz at 1.
    apply (map_sum_le g (fun _ => 0)); [| auto].
    intros k l Hk. exists l. split; [exact Hk |]. apply Hg.
    apply (Hb' k l Hk). }
  assert (0 <= sum_locations
                 (fun l => current_armor l + rear_current_armor l) m')
    by (apply Hpos; unfold loc_bounded; intros; lia).
  assert (0 <= sum_locations current_structure m')
    by (apply Hpos; unfold loc_bounded; intros; lia).
  lia.
Qed.

Lemma bounded_check_ok (m : Mech) : bounded_check m = true -> bounded m.
Proof.
  unfold bounded_check. rewrite forallb_forall. intros H k l Hl.
  specialize (H (k, l)). cbn in H.
  assert (Hin : In (k, l) (map_to_list (locations m))).
  { apply list_elem_of_In. apply elem_of_map_to_list. exact Hl. }
  specialize (H Hin). unfold loc_bounded.
  repeat match goal with
         | H : _ && _ = true |- _ => apply andb_prop in H as [H ?]
         end.
  repeat match goal with
         | H : (_ <=? _) = true |- _ => apply Z.leb_le in H
         end.
  lia.
Qed.

Lemma apply_damage_keeps_bounds_witness :
  bounded chain_after /\ 0 <= total_hp chain_after <= total_hp chain_mech
  /\ max_total_hp chain_after = max_total_hp chain_mech.
Proof.
  apply (apply_damage_keeps_bounds rnd_zero 3 chain_mech "LA" 10 false
           0%nat chain_after 0%nat).
  - apply bounded_check_ok. vm_compute. reflexivity.
  - discriminate.
  - exact chain_after_ret.
Defined.

Lemma is_dead_persists (m m' : Mech) :
  wear m m' -> (active m' = true -> active m = true) ->
  is_dead m = true -> is_dead m' = true.
Proof.
  intros Hw Ha. unfold is_dead.
  destruct (active m') eqn:Ha'; [| reflexivity].
  rewrite (Ha eq_refl). cbn [negb].
  rewrite (wear_engine _ _ Hw).
  pose proof (wear_loc_destroyed m m' "CT" Hw) as Hct.
  pose proof (wear_loc_destroyed m m' "HD" Hw) as Hhd.
  pose proof (wear_loc_destroyed m m' "LT" Hw) as Hlt.
  pose proof (wear_loc_destroyed m m' "RT" Hw) as Hrt.
  destruct (loc_destroyed m "CT"); [rewrite Hct by reflexivity; reflexivity |].
  destruct (loc_destroyed m' "CT"); [reflexivity |].
  destruct (loc_destroyed m "HD"); [rewrite Hhd by reflexivity; reflexivity |].
  destruct (loc_destroyed m' "HD"); [reflexivity |].
  destruct (String.eqb (engine_type m) "xl"); [| discriminate].
  destruct (loc_destroyed m "LT").
  { rewrite Hlt by reflexivity. intros _. reflexivity. }
  destruct (loc_destroyed m "RT"); [| discriminate].
  rewrite Hrt by reflexivity. intros _. rewrite orb_true_r. reflexivity.
Qed.

(** X3.  Death is permanent under damage: if [is_dead] holds before a call
    of [apply_damage] with non-negative damage, it holds of whatever the
    call returns. *)
Theorem apply_damage_keeps_dead (rnd : nat -> nat) (fuel : nat) (m : Mech)
    (id : string) (dmg : Z) (rear : bool) (p : nat) (m' : Mech) (p' : nat) :
  0 <= dmg -> is_dead m = true ->
  apply_damage rnd fuel m id dmg rear p = Ret (m', p') ->
  is_dead m' = true.
Proof.
  intros Hd Hdead H.
  apply (is_dead_persists m m'); [| | exact Hdead].
  - eapply apply_damage_wear. exact H.
  - apply (steady_active _ _
             (apply_damage_steady rnd fuel _ _ _ _ _ _ _ Hd H)).
Qed.

Lemma apply_damage_keeps_dead_witness :
  is_dead (result_mech
             (apply_damage rnd_zero 3 (set_active false chain_mech) "LA" 10
                false 0%nat) chain_mech) = true.
Proof.
  apply (apply_damage_keeps_dead rnd_zero 3 (set_active false chain_mech)
           "LA" 10 false 0%nat _ 0%nat);
    [discriminate | reflexivity | vm_compute; reflexivity].
Defined.

(** X4.  A hit that does not exceed a positive armor pool stops at the
    armor: the call returns at once without a draw; the pool that was hit
    goes down by exactly the damage and nothing else of the location
    changes; other locations, the weapons and the [active] flag are
    untouched.  The source has no guard on the sign: a negative damage
    raises the pool by its amount. *)
Theorem apply_damage_stops_at_armor (rnd : nat -> nat) (f : nat) (m : Mech)
    (id : string) (dmg : Z) (rear : bool) (p : nat) (loc : Location) :
  locations m !! id = Some loc -> destroyed loc = false ->
  0 < armor_pool id rear loc -> dmg <= armor_pool id rear loc ->
  exists loc',
    apply_damage rnd (S f) m id dmg rear p = Ret (put_loc id loc' m, p)
    /\ armor_pool id rear loc' = armor_pool id rear loc - dmg
    /\ current_structure loc' = current_structure loc
    /\ loc_total_hp loc' = loc_total_hp loc - dmg
    /\ destroyed loc' = false
    /\ crittable_slots loc' = crittable_slots loc.
Proof.
  intros Hl Hd Hpos Hle.
  exists (fst (absorb_armor id rear loc dmg)).
  split.
  - cbn [apply_damage].
    rewrite (bind_ret _ _ _ _ _ (get_loc_ret m id loc p Hl)). rewrite Hd.
    assert (Hs : snd (absorb_armor id rear loc dmg) <= 0).
    { unfold absorb_armor, armor_pool in *.
      destruct (rear && REAR_ARMOR_LOCATIONS id).
      - destruct (Z.ltb_spec 0 (rear_current_armor loc)); cbn [snd]; lia.
      - destruct (Z.ltb_spec 0 (current_armor loc)); cbn [snd]; lia. }
    destruct (absorb_armor id rear loc dmg) as [loc1 d1]. cbn [fst snd] in *.
    cbv zeta. destruct (Z.leb_spec d1 0); [reflexivity | lia].
  - unfold absorb_armor, armor_pool, loc_total_hp in *.
    destruct (rear && REAR_ARMOR_LOCATIONS id).
    + destruct (Z.ltb_spec 0 (rear_current_armor loc)); [| lia].
      cbn [fst]. loc_all. repeat split; try lia; assumption.
    + destruct (Z.ltb_spec 0 (current_armor loc)); [| lia].
      cbn [fst]. loc_all. repeat split; try lia; assumption.
Qed.

Lemma apply_damage_stops_at_armor_witness :
  exists loc',
    apply_damage rnd_zero 1 duelist "CT" (-3) false 0%nat
      = Ret (put_loc "CT" loc' duelist, 0%nat)
    /\ armor_pool "CT" false loc'
       = armor_pool "CT" false (mk_loc "CT" 10 5 16 ["Engine"] false) - (-3)
    /\ current_structure loc'
       = current_structure (mk_loc "CT" 10 5 16 ["Engine"] false)
    /\ loc_total_hp loc'
       = loc_total_hp (mk_loc "CT" 10 5 16 ["Engine"] false) - (-3)
    /\ destroyed loc' = false
    /\ crittable_slots loc'
       = crittable_slots (mk_loc "CT" 10 5 16 ["Engine"] false).
Proof.
  apply (apply_damage_stops_at_armor rnd_zero 0 duelist "CT" (-3) false
           0%nat (mk_loc "CT" 10 5 16 ["Engine"] false));
    [vm_compute; reflexivity | reflexivity | reflexivity | discriminate].
Defined.

(** X5.  A location that is not in the mech's table is a [KeyError]: for
    [apply_damage], [_apply_crits] and [_ammo_explosion] on the missing
    name itself, and for [apply_damage] on a destroyed location whose
    transfer target is missing. *)
Theorem damage_on_missing_location (rnd : nat -> nat) (f : nat) (m : Mech)
    (id : string) (dmg : Z) (rear : bool) (p : nat) :
  locations m !! id = None ->
  apply_damage rnd (S f) m id dmg rear p = Raise KeyError
  /\ (forall n, _apply_crits rnd f m id n p = Raise KeyError)
  /\ (forall slot, _ammo_explosion rnd f m id slot p = Raise KeyError)
  /\ (forall from loc,
        locations m !! from = Some loc -> destroyed loc = true ->
        transfer_to loc = Some id ->
        apply_damage rnd (S (S f)) m from dmg rear p = Raise KeyError).
Proof.
  intros Hnone.
  assert (Hg : get_loc m id p = Raise KeyError)
    by (unfold get_loc; rewrite Hnone; reflexivity).
  assert (H1 : forall g d r, apply_damage rnd (S g) m id d r p
                             = Raise KeyError).
  { intros. cbn [apply_damage]. unfold bind. rewrite Hg. reflexivity. }
  split; [apply H1 |]. split; [| split].
  - intros n. unfold _apply_crits, apply_crits_body, bind. rewrite Hg.
    reflexivity.
  - intros slot. unfold _ammo_explosion, ammo_explosion_body, bind.
    rewrite Hg. reflexivity.
  - intros from loc Hl Hd Ht.
    rewrite (apply_damage_on_destroyed rnd (S f) m from dmg rear p loc Hl Hd).
    rewrite Ht. apply H1.
Qed.

Lemma damage_on_missing_location_witness :
  apply_damage rnd_zero 1 torso_less "CT" 5 false 0%nat = Raise KeyError.
Proof.
  apply (proj1 (damage_on_missing_location rnd_zero 0 torso_less "CT" 5
                  false 0%nat ltac:(vm_compute; reflexivity))).
Defined.

(** ** The heat phase as a whole *)

Lemma ammo_explosion_steady (rnd : nat -> nat) (fuel : nat) (m : Mech)
    (id slot : string) (p : nat) (m' : Mech) (p' : nat) :
  _ammo_explosion rnd fuel m id slot p = Ret (m', p') -> steady m m'.
Proof.
  unfold _ammo_explosion. apply ammo_explosion_body_steady.
  intros. eapply apply_damage_steady; eassumption.
Qed.

Lemma ammo_check_steady (rnd : nat -> nat) (fuel : nat) (m : Mech) (p : nat)
    (m' : Mech) (p' : nat) :
  ammo_check rnd fuel m p = Ret (m', p') -> steady m m'.
Proof.
  unfold ammo_check. intros H.
  destruct (18 <=? current_heat m); [| inversion H; apply steady_refl].
  destruct (existsb has_ammo_left (weapons m));
    [| inversion H; apply steady_refl].
  inv_bind H. destruct (4 <=? a); [| inversion H; apply steady_refl].
  destruct (List.filter has_ammo_left (weapons m)) as [| w ws];
    [inversion H; apply steady_refl |].
  inv_bind H. eapply ammo_explosion_steady. exact H.
Qed.

(** X6.  Whatever branch the heat phase takes, if it returns, the current
    heat of the mech is the old heat plus the heat generated minus the heat
    dissipated, floored at zero; the phase never switches an inactive mech
    back on, and changes nothing else of the chassis. *)
Theorem apply_heat_phase_sets_heat (rnd : nat -> nat) (fuel : nat)
    (mech : Mech) (ws : list MountedWeapon) (p : nat) (m' : Mech)
    (p' : nat) :
  apply_heat_phase rnd fuel mech ws p = Ret (m', p') ->
  current_heat m'
  = Z.max 0 (current_heat mech + calculate_heat_generated mech ws
             - calculate_heat_dissipation mech)
  /\ 0 <= current_heat m'
  /\ (active m' = true -> active mech = true)
  /\ walk_mp m' = walk_mp mech /\ run_mp m' = run_mp mech
  /\ heat_sinks m' = heat_sinks mech
  /\ movement_mode m' = movement_mode mech.
Proof.
  intros H. rewrite apply_heat_phase_unfold in H. cbv zeta in H.
  assert (Hfin : steady (heated mech ws) m' ->
    current_heat m'
    = Z.max 0 (current_heat mech + calculate_heat_generated mech ws
               - calculate_heat_dissipation mech)
    /\ 0 <= current_heat m'
    /\ (active m' = true -> active mech = true)
    /\ walk_mp m' = walk_mp mech /\ run_mp m' = run_mp mech
    /\ heat_sinks m' = heat_sinks mech
    /\ movement_mode m' = movement_mode mech).
  { intros Hs. pose proof (steady_chassis _ _ Hs) as Hc.
    pose proof (steady_active _ _ Hs) as Ha.
    unfold same_chassis in Hc.
    repeat match goal with H : _ /\ _ |- _ => destruct H end.
    cbn in *. repeat split; try congruence; try assumption.
    match goal with H : current_heat m' = _ |- _ => rewrite H end. lia. }
  destruct (30 <=? current_heat (heated mech ws)).
  { inversion H; subst. apply Hfin. apply steady_deactivate. }
  destruct (shutdown_check rnd (current_heat (heated mech ws)) p)
    as [[[] q] | |]; try discriminate.
  - inversion H; subst. apply Hfin. apply steady_deactivate.
  - apply Hfin. eapply ammo_check_steady. exact H.
Qed.

Lemma case_after_ret :
  apply_heat_phase rnd_two 0 case_mech [] 0%nat = Ret (case_after, 5%nat).
Proof. vm_compute. reflexivity. Qed.

Lemma apply_heat_phase_sets_heat_witness :
  current_heat case_after
  = Z.max 0 (current_heat case_mech + calculate_heat_generated case_mech []
             - calculate_heat_dissipation case_mech)
  /\ 0 <= current_heat case_after
  /\ (active case_after = true -> active case_mech = true)
  /\ walk_mp case_after = walk_mp case_mech
  /\ run_mp case_after = run_mp case_mech
  /\ heat_sinks case_after = heat_sinks case_mech
  /\ movement_mode case_after = movement_mode case_mech.
Proof.
  apply (apply_heat_phase_sets_heat rnd_two 0 case_mech [] 0%nat case_after
           5%nat case_after_ret).
Defined.

(** ** Tables *)

Lemma roll_cases (r : Z) :
  2 <= r <= 12 ->
  r = 2 \/ r = 3 \/ r = 4 \/ r = 5 \/ r = 6 \/ r = 7 \/ r = 8 \/ r = 9
  \/ r = 10 \/ r = 11 \/ r = 12.
Proof. lia. Qed.

Ltac each_roll H :=
  apply roll_cases in H;
  repeat match type of H with
         | _ \/ _ => destruct H as [H | H]
         end; rewrite H.

Lemma get_target_movement_modifier_bands (h : Z) :
  get_target_movement_modifier h =
    if h <? 0 then 6 else if h <=? 2 then 0 else if h <=? 4 then 1
    else if h <=? 6 then 2 else if h <=? 9 then 3 else if h <=? 17 then 4
    else if h <=? 24 then 5 else 6.
Proof.
  unfold get_target_movement_modifier, TARGET_MOVEMENT_MODIFIERS.
  cbn [scan_movement_rows].
  destruct (Z.ltb_spec h 0).
  { repeat match goal with
           | |- context [(?a <=? h) && (h <=? ?b)] =>
               replace ((a <=? h) && (h <=? b)) with false
                 by (symmetry; apply andb_false_iff; left;
                     apply Z.leb_gt; lia)
           end. reflexivity. }
  repeat match goal with
         | |- context [(?a <=? h) && (h <=? ?b)] =>
             destruct (Z.leb_spec h b);
               [ replace (a <=? h) with true by (symmetry; apply Z.leb_le; lia);
                 reflexivity
               | replace ((a <=? h) && false) with false
                   by (symmetry; apply andb_false_r) ]
         end.
  reflexivity.
Qed.

(** X7.  The target movement modifier is always between 0 and 6 and never
    decreases as the hexes moved grow from 0; it is 0 up to 2 hexes and 6
    from 25 on, also beyond the last row of the table (100 and more); a
    negative number of hexes matches no row and gets the fall-through
    value 6. *)
Theorem get_target_movement_modifier_range (h h' : Z) :
  0 <= get_target_movement_modifier h <= 6
  /\ (0 <= h <= h' ->
      get_target_movement_modifier h <= get_target_movement_modifier h')
  /\ (0 <= h <= 2 -> get_target_movement_modifier h = 0)
  /\ (25 <= h -> get_target_movement_modifier h = 6)
  /\ (h < 0 -> get_target_movement_modifier h = 6).
Proof.
  rewrite !get_target_movement_modifier_bands.
  split; [| split; [| split; [| split]]]; try intros Hh.
  - range_cases; lia.
  - destruct (Z.ltb_spec h 0); [lia |]. destruct (Z.ltb_spec h' 0); [lia |].
    destruct (Z.leb_spec h 2); [range_cases; lia |].
    destruct (Z.leb_spec h' 2); [lia |].
    destruct (Z.leb_spec h 4); [range_cases; lia |].
    destruct (Z.leb_spec h' 4); [lia |].
    destruct (Z.leb_spec h 6); [range_cases; lia |].
    destruct (Z.leb_spec h' 6); [lia |].
    destruct (Z.leb_spec h 9); [range_cases; lia |].
    destruct (Z.leb_spec h' 9); [lia |].
    destruct (Z.leb_spec h 17); [range_cases; lia |].
    destruct (Z.leb_spec h' 17); [lia |].
    destruct (Z.leb_spec h 24); [range_cases; lia |].
    destruct (Z.leb_spec h' 24); [lia |]. lia.
  - destruct (Z.ltb_spec h 0); [lia |].
    destruct (Z.leb_spec h 2); [reflexivity | lia].
  - range_cases; lia.
  - destruct (Z.ltb_spec h 0); [reflexivity | lia].
Qed.

Lemma get_target_movement_modifier_range_witness :
  get_target_movement_modifier 3 <= get_target_movement_modifier 12
  /\ get_target_movement_modifier 1 = 0
  /\ get_target_movement_modifier 120 = 6
  /\ get_target_movement_modifier (-1) = 6.
Proof.
  pose proof (get_target_movement_modifier_range 3 12) as (_ & H1 & _).
  pose proof (get_target_movement_modifier_range 1 1) as (_ & _ & H2 & _).
  pose proof (get_target_movement_modifier_range 120 120)
    as (_ & _ & _ & H3 & _).
  pose proof (get_target_movement_modifier_range (-1) (-1))
    as (_ & _ & _ & _ & H4).
  split; [apply H1; lia |]. split; [apply H2; lia |].
  split; [apply H3; lia | apply H4; lia].
Defined.

Lemma roll_hit_location_table (rnd : nat -> nat) (direction : string)
    (table : Z -> option string) (p : nat) :
  HIT_TABLES direction = Some table ->
  roll_hit_location rnd direction p =
    match table (two_dice rnd p) with
    | Some loc => Ret (loc, S (S p))
    | None => Raise KeyError
    end.
Proof.
  intros H. unfold roll_hit_location. rewrite H.
  unfold bind. rewrite roll_2d6_ret.
  destruct (table (two_dice rnd p)); reflexivity.
Qed.

Lemma roll_hit_location_spec (rnd : nat -> nat) (direction : string)
    (p : nat) :
  valid_direction direction ->
  exists loc,
    roll_hit_location rnd direction p = Ret (loc, S (S p))
    /\ In loc LOCATION_NAMES
    /\ (loc = "HD" <-> two_dice rnd p = 12).
Proof.
  intros Hdir.
  pose proof (two_dice_range rnd p) as Hr.
  destruct Hdir as [-> | [-> | [-> | ->]]];
    erewrite roll_hit_location_table by reflexivity;
    each_roll Hr; eexists; (split; [reflexivity |]);
    (split; [cbn; tauto | split; [discriminate || reflexivity
                                 | discriminate || reflexivity]]).
Qed.

(** X8.  For each of the four attack directions [roll_hit_location] throws
    two dice and returns one of the eight location names, never raising;
    the head is hit exactly on a roll of 12.  Any other direction raises
    [KeyError] before any die is thrown. *)
Theorem roll_hit_location_valid (rnd : nat -> nat) (direction : string)
    (p : nat) :
  (direction = "front" \/ direction = "left" \/ direction = "right"
   \/ direction = "rear" ->
   exists loc,
     roll_hit_location rnd direction p = Ret (loc, S (S p))
     /\ In loc LOCATION_NAMES
     /\ (loc = "HD" <-> two_dice rnd p = 12))
  /\ (HIT_TABLES direction = None ->
      roll_hit_location rnd direction p = Raise KeyError).
Proof.
  split.
  - intros Hdir.
    pose proof (two_dice_range rnd p) as Hr.
    destruct Hdir as [-> | [-> | [-> | ->]]];
      erewrite roll_hit_location_table by reflexivity;
      each_roll Hr; eexists; (split; [reflexivity |]);
      (split; [cbn; tauto | split; [discriminate || reflexivity
                                   | discriminate || reflexivity]]).
  - intros Hnone. unfold roll_hit_location. rewrite Hnone. reflexivity.
Qed.

Lemma roll_hit_location_valid_witness :
  (exists loc,
     roll_hit_location rnd_count "rear" 0%nat = Ret (loc, 2%nat)
     /\ In loc LOCATION_NAMES
     /\ (loc = "HD" <-> two_dice rnd_count 0 = 12))
  /\ roll_hit_location rnd_count "above" 0%nat = Raise KeyError.
Proof.
  pose proof (roll_hit_location_valid rnd_count "rear" 0) as [H _].
  pose proof (roll_hit_location_valid rnd_count "above" 0) as [_ H'].
  split; [apply H; tauto | apply H'; reflexivity].
Defined.

Lemma cluster_table_key (size : Z) :
  match CLUSTER_TABLE size with
  | None => nearest_size size
  | Some _ => size
  end =
    if size <=? 3 then 2 else if size <=? 4 then 4 else if size <=? 5 then 5
    else if size <=? 8 then 6 else if size <=? 12 then 10
    else if size <=? 17 then 15 else 20.
Proof.
  unfold CLUSTER_TABLE.
  destruct (Z.eqb_spec size 2) as [-> | ?]; [reflexivity |].
  destruct (Z.eqb_spec size 4) as [-> | ?]; [reflexivity |].
  destruct (Z.eqb_spec size 5) as [-> | ?]; [reflexivity |].
  destruct (Z.eqb_spec size 6) as [-> | ?]; [reflexivity |].
  destruct (Z.eqb_spec size 10) as [-> | ?]; [reflexivity |].
  destruct (Z.eqb_spec size 15) as [-> | ?]; [reflexivity |].
  destruct (Z.eqb_spec size 20) as [-> | ?]; [reflexivity |].
  unfold nearest_size. cbn [min_by].
  range_cases; lia.
Qed.

Lemma roll_cluster_hits_table (rnd : nat -> nat) (size key : Z)
    (table : Z -> option Z) (p : nat) :
  match CLUSTER_TABLE size with
  | None => nearest_size size
  | Some _ => size
  end = key ->
  CLUSTER_TABLE key = Some table ->
  roll_cluster_hits rnd size p =
    match table (two_dice rnd p) with
    | Some hits => Ret (hits, S (S p))
    | None => Raise KeyError
    end.
Proof.
  intros Hk Ht. unfold roll_cluster_hits. rewrite Hk, Ht.
  unfold bind. rewrite roll_2d6_ret.
  destruct (table (two_dice rnd p)); reflexivity.
Qed.

Ltac each_size H :=
  cbn in H;
  repeat match type of H with
         | _ \/ _ => destruct H as [H | H]
         | False => destruct H
         end; subst.

Lemma roll_cluster_hits_ret (rnd : nat -> nat) (size : Z) (p : nat) :
  exists hits, roll_cluster_hits rnd size p = Ret (hits, S (S p)).
Proof.
  pose proof (cluster_table_key size) as Hk.
  pose proof (two_dice_range rnd p) as Hr.
  destruct (Z.leb_spec size 3);
    [| destruct (Z.leb_spec size 4);
       [| destruct (Z.leb_spec size 5);
          [| destruct (Z.leb_spec size 8);
             [| destruct (Z.leb_spec size 12);
                [| destruct (Z.leb_spec size 17)]]]]];
    match type of Hk with
    | _ = ?k =>
        erewrite (roll_cluster_hits_table rnd size k)
          by (exact Hk || reflexivity)
    end;
    each_roll Hr; eexists; reflexivity.
Qed.

(** X9.  [roll_cluster_hits] never raises, whatever the cluster size: it
    throws two dice and reads the row of a listed size [s] that is nearest
    to the requested size (the smaller one on a tie, the size itself when
    it is listed).  At least one missile and at most [s] missiles hit, and
    a roll of 12 lands all [s]; so for a size that is not listed the number
    of hits can exceed the size. *)
Theorem roll_cluster_hits_range (rnd : nat -> nat) (size : Z) (p : nat) :
  exists s hits,
    roll_cluster_hits rnd size p = Ret (hits, S (S p))
    /\ In s valid_sizes
    /\ (In size valid_sizes -> s = size)
    /\ (forall s', In s' valid_sizes ->
          Z.abs (s - size) <= Z.abs (s' - size)
          /\ (Z.abs (s' - size) = Z.abs (s - size) -> s <= s'))
    /\ 1 <= hits <= s
    /\ (two_dice rnd p = 12 -> hits = s).
Proof.
  pose proof (cluster_table_key size) as Hk.
  pose proof (two_dice_range rnd p) as Hr.
  assert (Hnear : forall s, In s valid_sizes ->
            match CLUSTER_TABLE size with
            | None => nearest_size size
            | Some _ => size
            end = s ->
            (In size valid_sizes -> s = size)
            /\ (forall s', In s' valid_sizes ->
                  Z.abs (s - size) <= Z.abs (s' - size)
                  /\ (Z.abs (s' - size) = Z.abs (s - size) -> s <= s'))).
  { intros s Hs Hkey. rewrite Hk in Hkey. split.
    - intros Hin. each_size Hin; reflexivity.
    - intros s' Hs'. each_size Hs; each_size Hs'; revert Hkey;
        range_cases; intros; lia. }
  destruct (Z.leb_spec size 3);
    [| destruct (Z.leb_spec size 4);
       [| destruct (Z.leb_spec size 5);
          [| destruct (Z.leb_spec size 8);
             [| destruct (Z.leb_spec size 12);
                [| destruct (Z.leb_spec size 17)]]]]];
    match type of Hk with
    | _ = ?k =>
        exists k;
        destruct (Hnear k ltac:(cbn; tauto) Hk) as [Hsame Hmin];
        erewrite (roll_cluster_hits_table rnd size k) by (exact Hk || reflexivity)
    end;
    each_roll Hr; eexists; (split; [reflexivity |]);
    (split; [cbn; tauto |]); (split; [exact Hsame |]);
    (split; [exact Hmin |]); (split; [lia |]); intros; try reflexivity;
    discriminate.
Qed.

Lemma roll_cluster_hits_range_witness :
  exists s hits,
    roll_cluster_hits rnd_count 9 0%nat = Ret (hits, 2%nat)
    /\ In s valid_sizes
    /\ (In 9 valid_sizes -> s = 9)
    /\ (forall s', In s' valid_sizes ->
          Z.abs (s - 9) <= Z.abs (s' - 9)
          /\ (Z.abs (s' - 9) = Z.abs (s - 9) -> s <= s'))
    /\ 1 <= hits <= s
    /\ (two_dice rnd_count 0 = 12 -> hits = s).
Proof. exact (roll_cluster_hits_range rnd_count 9 0). Defined.

(** ** Attacks *)

Lemma weapon_spend_round (mw : MountedWeapon) :
  weapon (spend_round mw) = weapon mw
  /\ location (spend_round mw) = location mw
  /\ mw_destroyed (spend_round mw) = mw_destroyed mw.
Proof. unfold spend_round. destruct (ammo_remaining mw); auto. Qed.

(** X10.  A shot that cannot be taken costs nothing: when the weapon is
    destroyed, or counts ammo and has none left, or the target is beyond
    long range, [resolve_attack] returns a miss with target number 99 and
    roll 0, throws no dice, and leaves the weapon and the target exactly as
    they were. *)
Theorem resolve_attack_impossible (rnd : nat -> nat) (fuel : nat)
    (attacker : Mech) (mw : MountedWeapon) (target : Mech) (distance : Z)
    (direction : string) (terrain_modifier : Z) (p : nat) :
  mw_destroyed mw = true
  \/ (exists a, ammo_remaining mw = Some a /\ a <= 0)
  \/ get_range_modifier mw distance = None ->
  resolve_attack rnd fuel attacker mw target distance direction
    terrain_modifier p
  = Ret (mw, target, mkAttackResult (wname (weapon mw)) 99 0 false None 0, p).
Proof.
  intros H. unfold resolve_attack.
  destruct (mw_destroyed mw) eqn:Hd; [reflexivity |].
  destruct (out_of_ammo mw) eqn:Ho; [reflexivity |].
  destruct H as [H | [(a & Ha & Hle) | H]].
  - discriminate.
  - unfold out_of_ammo in Ho. rewrite Ha in Ho.
    apply Z.leb_gt in Ho. lia.
  - unfold calculate_target_number. rewrite H. reflexivity.
Qed.

Lemma resolve_attack_impossible_witness :
  resolve_attack rnd_count 10 duelist
    (mkMounted AC20 "RA" (Some 0) false) plodder 3 "front" 0 0%nat
  = Ret (mkMounted AC20 "RA" (Some 0) false, plodder,
         mkAttackResult "AC/20" 99 0 false None 0, 0%nat).
Proof.
  apply (resolve_attack_impossible rnd_count 10 duelist
           (mkMounted AC20 "RA" (Some 0) false) plodder 3 "front" 0 0).
  right. left. exists 0. split; [reflexivity | lia].
Defined.

(** X11.  A shot that can be taken and misses: the roll is below the target
    number, or it is a natural 2, which misses whatever the target number.
    The target is untouched and exactly two dice are thrown.  The shot
    still costs one round of ammo, except for a Streak launcher, which
    keeps its ammo on a miss (and for weapons without ammo count). *)
Theorem resolve_attack_miss (rnd : nat -> nat) (fuel : nat)
    (attacker : Mech) (mw : MountedWeapon) (target : Mech) (distance : Z)
    (direction : string) (terrain_modifier : Z) (p : nat) (tn : Z) :
  mw_destroyed mw = false -> out_of_ammo mw = false ->
  calculate_target_number attacker mw target distance terrain_modifier
    = Some tn ->
  two_dice rnd p < tn \/ two_dice rnd p = 2 ->
  resolve_attack rnd fuel attacker mw target distance direction
    terrain_modifier p
  = Ret (if is_streak (weapon mw) then mw else spend_round mw, target,
         mkAttackResult (wname (weapon mw)) tn (two_dice rnd p) false None 0,
         S (S p)).
Proof.
  intros Hd Ho Htn Hroll. unfold resolve_attack.
  rewrite Hd, Ho, Htn.
  rewrite (bind_ret _ _ _ _ _ (roll_2d6_ret rnd p)).
  assert (Hmiss : (tn <=? two_dice rnd p) && negb (two_dice rnd p =? 2)
                  = false).
  { destruct Hroll as [Hlt | Heq].
    - apply andb_false_iff. left. apply Z.leb_gt. exact Hlt.
    - rewrite Heq. apply andb_false_r. }
  rewrite Hmiss. cbn [negb].
  destruct (is_streak (weapon mw)); cbn [negb]; [reflexivity |].
  destruct (weapon_spend_round mw) as (-> & _). reflexivity.
Qed.

Lemma resolve_attack_miss_witness :
  resolve_attack rnd_zero 10 duelist streak_rack plodder 3 "front" 0 0%nat
  = Ret (streak_rack, plodder,
         mkAttackResult "Streak SRM-2" 4 2 false None 0, 2%nat).
Proof.
  apply (resolve_attack_miss rnd_zero 10 duelist streak_rack plodder 3
           "front" 0 0 4); try reflexivity.
  right. reflexivity.
Defined.

Lemma ammo_used_refl (mw : MountedWeapon) (most : Z) :
  0 <= most -> ammo_used mw mw most.
Proof. unfold ammo_used. destruct (ammo_remaining mw); [lia | auto]. Qed.

Lemma ammo_used_spend (mw : MountedWeapon) :
  out_of_ammo mw = false -> ammo_used mw (spend_round mw) 1.
Proof.
  unfold ammo_used, spend_round, out_of_ammo.
  destruct (ammo_remaining mw) as [a |] eqn:E; cbn; rewrite ?E; [| auto].
  intros H. apply Z.leb_gt in H. lia.
Qed.

Lemma ammo_used_spend_twice (mw : MountedWeapon) :
  out_of_ammo mw = false -> rounds_left (spend_round mw) = true ->
  ammo_used mw (spend_round (spend_round mw)) 2.
Proof.
  unfold ammo_used, spend_round, out_of_ammo, rounds_left.
  destruct (ammo_remaining mw) as [a |] eqn:E; cbn; rewrite ?E;
    [| discriminate].
  intros H H'. apply Z.leb_gt in H. apply andb_true_iff in H' as [_ H'].
  apply Z.ltb_lt in H'. lia.
Qed.

Lemma ammo_used_weaken (mw mw' : MountedWeapon) (n n' : Z) :
  n <= n' -> ammo_used mw mw' n -> ammo_used mw mw' n'.
Proof.
  unfold ammo_used.
  destruct (ammo_remaining mw), (ammo_remaining mw'); auto. lia.
Qed.

Lemma missile_loop_ret (rnd : nat -> nat) (fuel : nat) (direction : string)
    (dmg : Z) :
  forall (n : nat) (target : Mech) (total : Z) (p : nat) (target' : Mech)
         (total' : Z) (p' : nat),
    missile_loop rnd fuel n target direction dmg total p
      = Ret (target', total', p') ->
    wear target target'
    /\ (exists k, (k <= n)%nat /\ total' = total + Z.of_nat k * dmg)
    /\ (0 <= dmg -> steady target target').
Proof.
  induction n as [| n IH]; intros target total p target' total' p' H.
  - inversion H; subst. split; [apply wear_refl |].
    split; [exists 0%nat; split; [lia | lia] | intros; apply steady_refl].
  - cbn [missile_loop] in H. inv_bind H. inv_bind H.
    pose proof (apply_damage_wear _ _ _ _ _ _ _ _ _ Hstep0) as Hw.
    destruct (negb (active a0)).
    + inversion H; subst. split; [exact Hw |].
      split; [exists 1%nat; split; [lia | lia] |].
      intros Hd. eapply apply_damage_steady; eassumption.
    + apply IH in H as (Hw' & (k & Hk & ->) & Hs').
      split; [apply (wear_trans _ _ _ Hw Hw') |].
      split; [exists (S k); split; [lia | lia] |].
      intros Hd. eapply steady_trans; [| apply Hs'; exact Hd].
      eapply apply_damage_steady; eassumption.
Qed.

(** X12.  Whatever [resolve_attack] returns: the weapon keeps its type and
    mounting; its ammo count goes down by at most two rounds (the second
    one for an Ultra autocannon), never below zero, and a weapon without
    ammo count keeps none; only an Ultra weapon can come back jammed.  The
    target is only worn (destroyed flags stay, no slot revives) and, when
    the weapon's damage values are not negative, its pools only go down.
    A miss leaves the target exactly as it was and deals no damage.  The
    result never names the location that was hit. *)
Theorem resolve_attack_wears (rnd : nat -> nat) (fuel : nat)
    (attacker : Mech) (mw : MountedWeapon) (target : Mech) (distance : Z)
    (direction : string) (terrain_modifier : Z) (p : nat)
    (mw' : MountedWeapon) (target' : Mech) (r : AttackResult) (p' : nat) :
  resolve_attack rnd fuel attacker mw target distance direction
    terrain_modifier p = Ret (mw', target', r, p') ->
  weapon mw' = weapon mw /\ location mw' = location mw
  /\ ammo_used mw mw' 2
  /\ (mw_destroyed mw' = true ->
      mw_destroyed mw = true \/ is_ultra (weapon mw) = true)
  /\ wear target target'
  /\ (0 <= damage (weapon mw) -> 0 <= damage_per_missile (weapon mw) ->
      steady target target' /\ 0 <= damage_dealt r)
  /\ (hit r = false -> target' = target /\ damage_dealt r = 0)
  /\ weapon_name r = wname (weapon mw) /\ location_hit r = None.
Proof.
  intros H. unfold resolve_attack in H.
  assert (Hsame : forall q,
            Ret (mw, target, no_shot mw, q) = Ret (mw', target', r, p') ->
            weapon mw' = weapon mw /\ location mw' = location mw
            /\ ammo_used mw mw' 2
            /\ (mw_destroyed mw' = true ->
                mw_destroyed mw = true \/ is_ultra (weapon mw) = true)
            /\ wear target target'
            /\ (0 <= damage (weapon mw) ->
                0 <= damage_per_missile (weapon mw) ->
                steady target target' /\ 0 <= damage_dealt r)
            /\ (hit r = false -> target' = target /\ damage_dealt r = 0)
            /\ weapon_name r = wname (weapon mw) /\ location_hit r = None).
  { intros q E. inversion E; subst.
    split; [reflexivity |]. split; [reflexivity |].
    split; [apply ammo_used_refl; lia |]. split; [auto |].
    split; [apply wear_refl |].
    split; [intros; split; [apply steady_refl | cbn; lia] |].
    split; [auto |]. split; reflexivity. }
  destruct (mw_destroyed mw) eqn:Hd; [exact (Hsame _ H) |].
  destruct (out_of_ammo mw) eqn:Ho; [exact (Hsame _ H) |].
  destruct (calculate_target_number attacker mw target distance
              terrain_modifier) as [tn |]; [| exact (Hsame _ H)].
  clear Hsame. inv_bind H. clear Hstep.
  destruct (weapon_spend_round mw) as (Hw1 & Hl1 & Hd1).
  destruct ((tn <=? a) && negb (a =? 2)); cbn [negb] in H.
  2:{ inversion H; subst; clear H.
      destruct (is_streak (weapon mw)); cbn [negb].
      - split; [reflexivity |]. split; [reflexivity |].
        split; [apply ammo_used_refl; lia |].
        split; [intros E; congruence |].
        split; [apply wear_refl |].
        split; [intros; split; [apply steady_refl | cbn; lia] |].
        split; [auto |]. split; reflexivity.
      - rewrite Hw1, Hl1, Hd1.
        split; [reflexivity |]. split; [reflexivity |].
        split; [apply (ammo_used_weaken _ _ 1); [lia |];
                apply ammo_used_spend; exact Ho |].
        split; [intros E; congruence |].
        split; [apply wear_refl |].
        split; [intros; split; [apply steady_refl | cbn; lia] |].
        split; [auto |]. split; reflexivity. }
  inv_bind H. destruct a0 as [t1 total1].
  rewrite Hw1 in Hstep, H.
  assert (Hfirst : wear target t1
                   /\ (0 <= damage (weapon mw) ->
                       0 <= damage_per_missile (weapon mw) ->
                       steady target t1 /\ 0 <= total1)).
  { destruct (0 <? cluster_size (weapon mw)).
    - inv_bind Hstep. apply missile_loop_ret in Hstep as (Hw & (k & _ & ->) & Hs).
      split; [exact Hw |]. intros _ Hdpm. split; [apply Hs; exact Hdpm | nia].
    - inv_bind Hstep. inv_bind Hstep. inversion Hstep; subst.
      split; [eapply apply_damage_wear; eassumption |].
      intros Hdm _. split; [| exact Hdm].
      eapply apply_damage_steady; eassumption. }
  clear Hstep. destruct Hfirst as (Hwt & Hst).
  inv_bind H. destruct a0 as [[mw2 t2] total2].
  inversion H; subst; clear H. cbn [hit damage_dealt weapon_name location_hit].
  assert (Hsecond :
            weapon mw' = weapon mw /\ location mw' = location mw
            /\ ammo_used mw mw' 2
            /\ (mw_destroyed mw' = true -> is_ultra (weapon mw) = true)
            /\ wear t1 target'
            /\ (0 <= damage (weapon mw) ->
                steady t1 target' /\ total1 <= total2)).
  { destruct (is_ultra (weapon mw)) eqn:Hu; cbn [andb] in Hstep.
    2:{ inversion Hstep; subst.
        rewrite Hw1, Hl1, Hd1.
        split; [reflexivity |]. split; [reflexivity |].
        split; [apply (ammo_used_weaken _ _ 1); [lia |];
                apply ammo_used_spend; exact Ho |].
        split; [intros E; congruence |].
        split; [apply wear_refl |].
        intros; split; [apply steady_refl | lia]. }
    destruct (rounds_left (spend_round mw)) eqn:Hr.
    2:{ inversion Hstep; subst.
        rewrite Hw1, Hl1.
        split; [reflexivity |]. split; [reflexivity |].
        split; [apply (ammo_used_weaken _ _ 1); [lia |];
                apply ammo_used_spend; exact Ho |].
        split; [reflexivity |].
        split; [apply wear_refl |].
        intros; split; [apply steady_refl | lia]. }
    inv_bind Hstep. clear Hstep0.
    destruct (a0 =? 2).
    { inversion Hstep; subst. cbn.
      split; [exact Hw1 |]. split; [exact Hl1 |].
      split; [apply (ammo_used_weaken _ _ 1); [lia |];
              pose proof (ammo_used_spend mw Ho) as Hu1;
              unfold ammo_used in *; cbn; exact Hu1 |].
      split; [reflexivity |].
      split; [apply wear_refl |].
      intros; split; [apply steady_refl | lia]. }
    inv_bind Hstep. clear Hstep0.
    destruct (weapon_spend_round (spend_round mw)) as (Hw2 & Hl2 & Hd2).
    destruct ((tn <=? a1) && negb (a1 =? 2)).
    - inv_bind Hstep. inv_bind Hstep. inversion Hstep; subst.
      rewrite Hw2, Hl2, Hw1, Hl1.
      split; [reflexivity |]. split; [reflexivity |].
      split; [apply ammo_used_spend_twice; assumption |].
      split; [reflexivity |].
      split; [eapply apply_damage_wear; eassumption |].
      intros Hdm. split; [| lia].
      eapply apply_damage_steady; eassumption.
    - inversion Hstep; subst.
      rewrite Hw2, Hl2, Hw1, Hl1.
      split; [reflexivity |]. split; [reflexivity |].
      split; [apply ammo_used_spend_twice; assumption |].
      split; [reflexivity |].
      split; [apply wear_refl |].
      intros; split; [apply steady_refl | lia]. }
  destruct Hsecond as (E1 & E2 & E3 & E4 & E5 & E6).
  split; [exact E1 |]. split; [exact E2 |]. split; [exact E3 |].
  split; [intros E; right; apply E4; exact E |].
  split; [apply (wear_trans _ _ _ Hwt E5) |].
  split.
  { intros Hdm Hdpm. destruct (Hst Hdm Hdpm) as [S1 T1].
    destruct (E6 Hdm) as [S2 T2].
    split; [apply (steady_trans _ _ _ S1 S2) | lia]. }
  split; [discriminate |]. split; reflexivity.
Qed.

Lemma settles_ret {A} (a : A) (p : nat) : settles (fun _ => ret a) p (a, p).
Proof. exists 0%nat. reflexivity. Qed.

Lemma settles_pure {A} (c : M A) (p : nat) (r : A * nat) :
  c p = Ret r -> settles (fun _ => c) p r.
Proof. intros H. exists 0%nat. intros fuel _. exact H. Qed.

Lemma settles_bind {A B} (c : nat -> M A) (k : nat -> A -> M B) (p q : nat)
    (a : A) (r : B * nat) :
  settles c p (a, q) -> settles (fun fuel => k fuel a) q r ->
  settles (fun fuel => bind (c fuel) (k fuel)) p r.
Proof.
  intros [F1 H1] [F2 H2]. exists (Nat.max F1 F2). intros fuel Hf.
  rewrite (bind_ret _ _ _ _ _ (H1 fuel ltac:(lia))). apply H2. lia.
Qed.

Lemma settles_bind_pure {A B} (c : M A) (k : nat -> A -> M B) (p q : nat)
    (a : A) (r : B * nat) :
  c p = Ret (a, q) -> settles (fun fuel => k fuel a) q r ->
  settles (fun fuel => bind c (k fuel)) p r.
Proof.
  intros H. apply (settles_bind (fun _ => c)). apply settles_pure. exact H.
Qed.

Lemma rank_le (id : string) : (rank id <= 2)%nat.
Proof.
  unfold rank. destruct (TRANSFER_MAP id) as [t |]; [| lia].
  destruct (TRANSFER_MAP t); lia.
Qed.

Lemma complete_wear (m m' : Mech) : wear m m' -> complete m -> complete m'.
Proof.
  intros Hw Hc id Hin. apply (wear_is_Some m m' id Hw). apply Hc. exact Hin.
Qed.

(** A hit on a location of the body plan returns, and the mech it leaves
    is sound and complete again. *)
Lemma apply_damage_hit (rnd : nat -> nat) (bound : nat) (m : Mech)
    (loc : string) (dmg : Z) (p : nat) :
  fair rnd -> sound bound m -> complete m -> In loc LOCATION_NAMES ->
  exists m' p',
    settles (fun fuel => apply_damage rnd fuel m loc dmg false) p (m', p')
    /\ sound bound m' /\ complete m'.
Proof.
  intros Hfair Hs Hc Hin.
  destruct (apply_damage_terminates rnd bound m loc dmg false p Hfair Hs
              (Hc loc Hin)) as (m' & p' & H & Hw).
  exists m', p'. split; [exact H |].
  split; [apply (sound_wear bound m m' Hw Hs) |].
  apply (complete_wear m m' Hw Hc).
Qed.

Lemma missile_loop_total (rnd : nat -> nat) (bound : nat)
    (direction : string) (dmg : Z) :
  fair rnd -> valid_direction direction ->
  forall (n : nat) (target : Mech) (total : Z) (p : nat),
    sound bound target -> complete target ->
    exists target' total' p',
      settles (fun fuel =>
                 missile_loop rnd fuel n target direction dmg total) p
        (target', total', p')
      /\ sound bound target' /\ complete target'.
Proof.
  intros Hfair Hdir. induction n as [| n IH]; intros target total p Hs Hc.
  - exists target, total, p. split; [apply settles_ret | auto].
  - destruct (roll_hit_location_spec rnd direction p Hdir)
      as (loc & Hloc & Hin & _).
    destruct (apply_damage_hit rnd bound target loc dmg (S (S p))
                Hfair Hs Hc Hin) as (m' & p' & H & Hs' & Hc').
    destruct (negb (active m')) eqn:Hact.
    + exists m', (total + dmg), p'. split; [| auto].
      cbn [missile_loop].
      eapply settles_bind_pure; [exact Hloc |]. cbv zeta.
      eapply settles_bind; [exact H |]. cbv beta.
      rewrite Hact. apply settles_ret.
    + destruct (IH m' (total + dmg) p' Hs' Hc')
        as (t2 & total2 & p2 & H2 & Hs2 & Hc2).
      exists t2, total2, p2. split; [| auto].
      cbn [missile_loop].
      eapply settles_bind_pure; [exact Hloc |]. cbv zeta.
      eapply settles_bind; [exact H |]. cbv beta.
      rewrite Hact. exact H2.
Qed.

(** X13.  On a well-formed target (every location stored under its own
    name, all eight locations present), with a fair oracle and one of the
    four attack directions, [resolve_attack] always returns: it never
    raises and never keeps redrawing for ever, whatever the weapon, the
    distance and the state of the attacker.  From some amount of fuel on
    the result is always the same. *)
Theorem resolve_attack_returns (rnd : nat -> nat) (bound : nat)
    (attacker : Mech) (mw : MountedWeapon) (target : Mech) (distance : Z)
    (direction : string) (terrain_modifier : Z) (p : nat) :
  fair rnd -> valid_direction direction ->
  sound bound target -> complete target ->
  exists mw' target' r p' F,
    forall fuel, (F <= fuel)%nat ->
      resolve_attack rnd fuel attacker mw target distance direction
        terrain_modifier p = Ret (mw', target', r, p').
Proof.
  intros Hfair Hdir Hs Hc.
  assert (Hgoal : forall x,
            settles (fun fuel =>
                       resolve_attack rnd fuel attacker mw target distance
                         direction terrain_modifier) p x ->
            exists mw' target' r p' F,
              forall fuel, (F <= fuel)%nat ->
                resolve_attack rnd fuel attacker mw target distance
                  direction terrain_modifier p = Ret (mw', target', r, p')).
  { intros [[[mw' target'] r] p'] [F H]. exists mw', target', r, p', F.
    exact H. }
  assert (Hsome : exists x,
            settles (fun fuel =>
                       resolve_attack rnd fuel attacker mw target distance
                         direction terrain_modifier) p x);
    [| destruct Hsome as [x Hx]; apply (Hgoal x Hx)].
  unfold resolve_attack.
  destruct (mw_destroyed mw); [eexists; apply settles_ret |].
  destruct (out_of_ammo mw); [eexists; apply settles_ret |].
  destruct (calculate_target_number attacker mw target distance
              terrain_modifier) as [tn |]; [| eexists; apply settles_ret].
  cbv zeta.
  destruct ((tn <=? two_dice rnd p) && negb (two_dice rnd p =? 2)) eqn:Hhit.
  2:{ eexists. eapply settles_bind_pure; [apply roll_2d6_ret |].
      cbv beta. rewrite Hhit. cbn [negb]. apply settles_ret. }
  set (mw1 := spend_round mw).
  assert (Hfirst : exists t1 total1 p1,
            settles (fun fuel =>
              if 0 <? cluster_size (weapon mw1)
              then
                let* missiles_hit :=
                  if is_streak (weapon mw)
                  then ret (cluster_size (weapon mw1))
                  else roll_cluster_hits rnd (cluster_size (weapon mw1)) in
                missile_loop rnd fuel (Z.to_nat missiles_hit) target
                  direction (damage_per_missile (weapon mw1)) 0
              else
                let* loc := roll_hit_location rnd direction in
                let* target0 := apply_damage rnd fuel target loc
                                  (damage (weapon mw1)) false in
                ret (target0, damage (weapon mw1))) (S (S p))
              (t1, total1, p1)
            /\ sound bound t1 /\ complete t1).
  { destruct (0 <? cluster_size (weapon mw1)).
    - assert (Hn : exists n q,
                (if is_streak (weapon mw)
                 then ret (cluster_size (weapon mw1))
                 else roll_cluster_hits rnd (cluster_size (weapon mw1)))
                  (S (S p)) = Ret (n, q)).
      { destruct (is_streak (weapon mw)); [eexists; eexists; reflexivity |].
        destruct (roll_cluster_hits_ret rnd (cluster_size (weapon mw1))
                    (S (S p))) as (hits & Hh).
        eexists; eexists; exact Hh. }
      destruct Hn as (n & q & Hn).
      destruct (missile_loop_total rnd bound direction
                  (damage_per_missile (weapon mw1)) Hfair Hdir
                  (Z.to_nat n) target 0 q Hs Hc)
        as (t1 & total1 & p1 & H1 & Hs1 & Hc1).
      exists t1, total1, p1. split; [| auto].
      eapply settles_bind_pure; [exact Hn |]. exact H1.
    - destruct (roll_hit_location_spec rnd direction (S (S p)) Hdir)
        as (loc & Hloc & Hin & _).
      destruct (apply_damage_hit rnd bound target loc
                  (damage (weapon mw1)) (S (S (S (S p))))
                  Hfair Hs Hc Hin) as (m' & p' & H & Hs' & Hc').
      exists m', (damage (weapon mw1)), p'. split; [| auto].
      eapply settles_bind_pure; [exact Hloc |].
      eapply settles_bind; [exact H |]. apply settles_ret. }
  destruct Hfirst as (t1 & total1 & p1 & H1 & Hs1 & Hc1).
  assert (Hsecond : exists x q,
            settles (fun fuel =>
              if is_ultra (weapon mw1) && rounds_left mw1 then
                let* jam_roll := roll_2d6 rnd in
                if jam_roll =? 2
                then ret (set_mw_destroyed true mw1, t1, total1)
                else
                  let* roll2 := roll_2d6 rnd in
                  if (tn <=? roll2) && negb (roll2 =? 2) then
                    let* loc2 := roll_hit_location rnd direction in
                    let* target0 := apply_damage rnd fuel t1 loc2
                                      (damage (weapon mw1)) false in
                    ret (spend_round mw1, target0,
                         total1 + damage (weapon mw1))
                  else ret (spend_round mw1, t1, total1)
              else ret (mw1, t1, total1)) p1 (x, q)).
  { destruct (is_ultra (weapon mw1) && rounds_left mw1);
      [| eexists; eexists; apply settles_ret].
    destruct (two_dice rnd p1 =? 2) eqn:Hjam.
    { eexists; eexists.
      eapply settles_bind_pure; [apply roll_2d6_ret |].
      cbv beta. rewrite Hjam. apply settles_ret. }
    destruct ((tn <=? two_dice rnd (S (S p1)))
              && negb (two_dice rnd (S (S p1)) =? 2)) eqn:Hhit2.
    2:{ eexists; eexists.
        eapply settles_bind_pure; [apply roll_2d6_ret |].
        cbv beta. rewrite Hjam.
        eapply settles_bind_pure; [apply roll_2d6_ret |].
        cbv beta. rewrite Hhit2. apply settles_ret. }
    destruct (roll_hit_location_spec rnd direction (S (S (S (S p1)))) Hdir)
      as (loc & Hloc & Hin & _).
    destruct (apply_damage_hit rnd bound t1 loc
                (damage (weapon mw1)) (S (S (S (S (S (S p1))))))
                Hfair Hs1 Hc1 Hin) as (m' & p' & H & _).
    eexists; eexists.
    eapply settles_bind_pure; [apply roll_2d6_ret |].
    cbv beta. rewrite Hjam.
    eapply settles_bind_pure; [apply roll_2d6_ret |].
    cbv beta. rewrite Hhit2.
    eapply settles_bind_pure; [exact Hloc |].
    eapply settles_bind; [exact H |]. apply settles_ret. }
  destruct Hsecond as ([[mw2 t2] total2] & q & Hsecond).
  eexists.
  eapply settles_bind_pure; [apply roll_2d6_ret |].
  cbv beta. rewrite Hhit. cbn [negb].
  eapply settles_bind; [exact H1 |]. cbv beta iota.
  eapply settles_bind; [exact Hsecond |]. cbv beta iota.
  apply settles_ret.
Qed.

Lemma complete_check_ok (m : Mech) : complete_check m = true -> complete m.
Proof.
  unfold complete_check. rewrite forallb_forall. intros H id Hin.
  specialize (H id Hin). destruct (locations m !! id); [eauto | discriminate].
Qed.

Lemma resolve_attack_wears_witness :
  match resolve_attack rnd_two 10 duelist ultra_gun plodder 3 "front" 0 0%nat
  with
  | Ret (mw', target', r, _) =>
      weapon mw' = weapon ultra_gun /\ location mw' = location ultra_gun
      /\ ammo_used ultra_gun mw' 2
      /\ (mw_destroyed mw' = true ->
          mw_destroyed ultra_gun = true \/ is_ultra (weapon ultra_gun) = true)
      /\ wear plodder target'
      /\ (0 <= damage (weapon ultra_gun) ->
          0 <= damage_per_missile (weapon ultra_gun) ->
          steady plodder target' /\ 0 <= damage_dealt r)
      /\ (hit r = false -> target' = plodder /\ damage_dealt r = 0)
      /\ weapon_name r = wname (weapon ultra_gun) /\ location_hit r = None
  | _ => False
  end.
Proof.
  destruct (resolve_attack rnd_two 10 duelist ultra_gun plodder 3 "front" 0
              0%nat) as [[[[mw' target'] r] p'] | e |] eqn:E.
  - exact (resolve_attack_wears rnd_two 10 duelist ultra_gun plodder 3
             "front" 0 0%nat mw' target' r p' E).
  - vm_compute in E. discriminate.
  - vm_compute in E. discriminate.
Defined.

Lemma resolve_attack_returns_witness :
  exists mw' target' r p' F,
    forall fuel, (F <= fuel)%nat ->
      resolve_attack rnd_sweep fuel duelist lrm_rack plodder 8 "rear" 0
        11%nat = Ret (mw', target', r, p').
Proof.
  apply (resolve_attack_returns rnd_sweep 1 duelist lrm_rack plodder 8
           "rear" 0 11%nat).
  - exact rnd_sweep_fair.
  - right. right. right. reflexivity.
  - apply sound_check_ok. vm_compute. reflexivity.
  - apply complete_check_ok. vm_compute. reflexivity.
Defined.

(** X14.  The target number of a shot is undefined exactly when the target
    is beyond the weapon's long range.  Otherwise it is the attacker's
    gunnery skill plus the range modifier and the terrain modifier, plus
    between 0 and 13 for the attacker's movement (at most 3), the target's
    movement (at most 6) and the attacker's heat (at most 4), less 2 when
    the weapon's name contains "Pulse". *)
Theorem calculate_target_number_bounds (attacker : Mech) (mw : MountedWeapon)
    (target : Mech) (distance terrain_modifier : Z) :
  match get_range_modifier mw distance with
  | None =>
      calculate_target_number attacker mw target distance terrain_modifier
      = None
  | Some range_mod =>
      exists tn extra,
        calculate_target_number attacker mw target distance terrain_modifier
        = Some tn
        /\ 0 <= extra <= 13
        /\ tn = gunnery attacker + range_mod + terrain_modifier + extra
                - (if str_in "Pulse" (wname (weapon mw)) then 2 else 0)
  end.
Proof.
  unfold calculate_target_number.
  destruct (get_range_modifier mw distance) as [range_mod |]; [| reflexivity].
  exists (let tn := gunnery attacker
                    + get_attacker_movement_modifier (movement_mode attacker)
                    + get_target_movement_modifier (hexes_moved target)
                    + range_mod
                    + get_heat_to_hit_modifier (current_heat attacker)
                    + terrain_modifier in
          if str_in "Pulse" (wname (weapon mw)) then tn - 2 else tn).
  exists (get_attacker_movement_modifier (movement_mode attacker)
          + get_target_movement_modifier (hexes_moved target)
          + get_heat_to_hit_modifier (current_heat attacker)).
  split; [reflexivity |].
  assert (Ha : 0 <= get_attacker_movement_modifier (movement_mode attacker)
               <= 3).
  { unfold get_attacker_movement_modifier.
    repeat match goal with
           | |- context [String.eqb ?a ?b] => destruct (String.eqb a b)
           end; lia. }
  assert (Ht : 0 <= get_target_movement_modifier (hexes_moved target) <= 6).
  { rewrite get_target_movement_modifier_bands. range_cases; lia. }
  assert (Hh : 0 <= get_heat_to_hit_modifier (current_heat attacker) <= 4).
  { unfold get_heat_to_hit_modifier. range_cases; lia. }
  split; [lia |].
  cbv zeta. destruct (str_in "Pulse" (wname (weapon mw))); lia.
Qed.

(** Of the weapons of [WEAPON_DB], exactly the three pulse lasers get the
    bonus. *)
Lemma pulse_weapons :
  filter (fun w => str_in "Pulse" (wname w) = true) WEAPON_DB
  = [SMALL_PULSE_LASER; MEDIUM_PULSE_LASER; LARGE_PULSE_LASER].
Proof. vm_compute. reflexivity. Qed.

(** X15.  A volley of [resolve_all_attacks], whatever a single attack does:
    there is at most one result per weapon to fire; a weapon is skipped
    only because the target is inactive, so when results are missing the
    target ends inactive; and against a target that is already inactive
    nothing is resolved at all: no result, no draw, both mechs as they
    were. *)
Theorem resolve_all_attacks_stops
    (resolve_attack : Mech -> nat -> Mech -> Z -> M (Mech * Mech * Z))
    (distance : Z) (weapons_to_fire : list nat) :
  forall (attacker target : Mech) (p : nat) (attacker' target' : Mech)
         (results : list Z) (p' : nat),
    resolve_all_attacks resolve_attack attacker target distance
      weapons_to_fire p = Ret (attacker', target', results, p') ->
    (length results <= length weapons_to_fire)%nat
    /\ ((length results < length weapons_to_fire)%nat ->
        active target' = false)
    /\ (active target = false ->
        results = [] /\ attacker' = attacker /\ target' = target /\ p' = p).
Proof.
  induction weapons_to_fire as [| mw rest IH];
    intros attacker target p attacker' target' results p' H.
  - inversion H; subst. cbn. repeat split; auto; lia.
  - cbn [resolve_all_attacks] in H.
    destruct (active target) eqn:Ha; cbn [negb] in H.
    + inv_bind H. destruct a as [[a1 t1] dealt].
      inv_bind H. destruct a as [[a2 t2] ds].
      inversion H; subst; clear H.
      apply IH in Hstep0 as (Hlen & Hstop & _).
      cbn [length]. split; [lia |].
      split; [intros Hlt; apply Hstop; lia | discriminate].
    + inversion H; subst. cbn [length].
      split; [lia |]. split; [intros _; exact Ha |].
      intros _. repeat split.
Qed.

Lemma resolve_all_attacks_stops_witness :
  (length [0; 0] <= length [0%nat; 1%nat])%nat
  /\ ((length [0; 0] < length [0%nat; 1%nat])%nat ->
      active plodder = false)
  /\ (active plodder = false ->
      [0; 0] = [] /\ skirmisher = skirmisher /\ plodder = plodder
      /\ 0%nat = 0%nat).
Proof.
  apply (resolve_all_attacks_stops no_attack 3 [0%nat; 1%nat] skirmisher
           plodder 0%nat skirmisher plodder [0; 0] 0%nat).
  reflexivity.
Defined.

(** ** Loading a mech *)





Lemma lookup_weapon_some (name : string) (w : Weapon) :
  lookup_weapon name = Some w -> In w WEAPON_DB /\ wname w = name.
Proof.
  unfold lookup_weapon. intros H. apply find_some in H as [Hin Heq].
  split; [exact Hin |]. apply String.eqb_eq. exact Heq.
Qed.

Lemma lookup_weapon_total (w : Weapon) :
  In w WEAPON_DB -> lookup_weapon (wname w) = Some w.
Proof.
  intros H. cbn in H.
  repeat match type of H with
         | _ \/ _ => destruct H as [H | H]
         | False => destruct H
         end; subst; reflexivity.
Qed.




Lemma sum_locations_ext (f g : Location -> Z) (m : Mech) :
  (forall k l, locations m !! k = Some l -> f l = g l) ->
  sum_locations f m = sum_locations g m.
Proof.
  intros H. unfold sum_locations.
  assert (map_fold (fun _ l acc => f l + acc) 0 (locations m)
          <= map_fold (fun _ l acc => g l + acc) 0 (locations m)).
  { apply map_sum_le; [| auto].
    intros k l Hl. exists l. split; [exact Hl |]. rewrite (H k l Hl). lia. }
  assert (map_fold (fun _ l acc => g l + acc) 0 (locations m)
          <= map_fold (fun _ l acc => f l + acc) 0 (locations m)).
  { apply map_sum_le; [| auto].
    intros k l Hl. exists l. split; [exact Hl |]. rewrite (H k l Hl). lia. }
  lia.
Qed.








(** Beyond that the float computation rounds: from a walking speed of
    2^52 + 2 on, the default is no longer the exact half-up rounding. *)
Lemma default_run_mp_rounds :
  default_run_mp (2 ^ 52 + 2) = Ret 6755399441055748
  /\ (3 * (2 ^ 52 + 2) + 1) / 2 = 6755399441055747.
Proof. split; vm_compute; reflexivity. Qed.










(** ** The soak test *)

Lemma prep_weapons_halved (ws : list MountedWeapon) :
  Forall2 mw_halved ws
    (map (fun mw => match ammo_remaining mw with
                    | Some a => set_ammo_remaining (Some (a / 2)) mw
                    | None => mw
                    end) ws).
Proof.
  induction ws as [| w ws IH]; cbn [map]; constructor; [| exact IH].
  unfold mw_halved. destruct (ammo_remaining w) as [a |] eqn:Ha; cbn.
  - repeat split; try reflexivity.
    + pose proof (Z.div_mod a 2 ltac:(lia)).
      pose proof (Z.mod_pos_bound a 2 ltac:(lia)). lia.
    + pose proof (Z.div_mod a 2 ltac:(lia)).
      pose proof (Z.mod_pos_bound a 2 ltac:(lia)). lia.
  - rewrite Ha. repeat split.
Qed.

Lemma prep_weapons (m : Mech) (auto_case : bool) :
  weapons (_prep_mech m auto_case)
  = map (fun mw => match ammo_remaining mw with
                   | Some a => set_ammo_remaining (Some (a / 2)) mw
                   | None => mw
                   end) (weapons m).
Proof. unfold _prep_mech. destruct auto_case; reflexivity. Qed.

Lemma prep_locations (m : Mech) (auto_case : bool) :
  locations (_prep_mech m auto_case)
  = if auto_case then set_has_case true <$> locations m else locations m.
Proof. unfold _prep_mech. destruct auto_case; reflexivity. Qed.

Lemma prep_lookup (m : Mech) (auto_case : bool) (k : string) :
  locations (_prep_mech m auto_case) !! k
  = (fun l => if auto_case then set_has_case true l else l)
      <$> locations m !! k.
Proof.
  rewrite prep_locations. destruct auto_case.
  - rewrite lookup_fmap. reflexivity.
  - destruct (locations m !! k); reflexivity.
Qed.

Lemma prep_sum_locations (f : Location -> Z) (m : Mech) (auto_case : bool) :
  (forall l, f (set_has_case true l) = f l) ->
  sum_locations f (_prep_mech m auto_case) = sum_locations f m.
Proof.
  intros Hf. unfold sum_locations. rewrite prep_locations.
  destruct auto_case; [| reflexivity].
  rewrite map_fold_fmap. unfold compose.
  apply (sum_locations_ext (fun l => f (set_has_case true l)) f m).
  intros k l _. apply Hf.
Qed.

Lemma prep_live_total (m : Mech) (auto_case : bool) :
  live_total (_prep_mech m auto_case) = live_total m.
Proof.
  unfold live_total. rewrite prep_locations.
  destruct auto_case; [| reflexivity].
  rewrite map_fold_fmap. reflexivity.
Qed.

Lemma prep_loc_destroyed (m : Mech) (auto_case : bool) (k : string) :
  loc_destroyed (_prep_mech m auto_case) k = loc_destroyed m k.
Proof.
  unfold loc_destroyed. rewrite prep_lookup.
  destruct (locations m !! k); [| reflexivity].
  destruct auto_case; reflexivity.
Qed.

Lemma prep_is_dead (m : Mech) (auto_case : bool) :
  is_dead (_prep_mech m auto_case) = is_dead m.
Proof.
  unfold is_dead. rewrite !prep_loc_destroyed.
  unfold _prep_mech. destruct auto_case; reflexivity.
Qed.

Lemma prep_sound (bound : nat) (m : Mech) (auto_case : bool) :
  sound bound m -> sound bound (_prep_mech m auto_case).
Proof.
  intros (Hn & Ht & Hs).
  assert (Hback : forall k l', locations (_prep_mech m auto_case) !! k
                               = Some l' ->
            exists l, locations m !! k = Some l
                      /\ loc_name l' = loc_name l
                      /\ crittable_slots l' = crittable_slots l).
  { intros k l' Hk. rewrite prep_lookup in Hk.
    destruct (locations m !! k) as [l |]; [| discriminate].
    exists l. split; [reflexivity |]. inversion Hk.
    destruct auto_case; split; reflexivity. }
  split; [| split].
  - intros k l' Hk. destruct (Hback k l' Hk) as (l & Hl & -> & _).
    apply (Hn k l Hl).
  - intros k l' t Hk Htr. destruct (Hback k l' Hk) as (l & Hl & Hname & _).
    unfold transfer_to in Htr. rewrite Hname in Htr.
    destruct (Ht k l t Hl Htr) as [lt Hlt].
    rewrite prep_lookup, Hlt. eauto.
  - intros k l' Hk. destruct (Hback k l' Hk) as (l & Hl & _ & ->).
    apply (Hs k l Hl).
Qed.

Lemma prep_complete (m : Mech) (auto_case : bool) :
  complete m -> complete (_prep_mech m auto_case).
Proof.
  intros Hc id Hin. destruct (Hc id Hin) as [l Hl].
  rewrite prep_lookup, Hl. eauto.
Qed.

(** X18.  [_prep_mech] halves every ammo count, rounding down, and changes
    nothing else of a weapon; a weapon without ammo count keeps none.  It
    keeps every location with all its numbers, flags and slots, setting
    CASE everywhere when [auto_case] is given and leaving it as it was
    otherwise.  Total and maximum hit points, [is_dead] and the number of
    live critical slots are unchanged. *)
Theorem prep_mech_keeps (m : Mech) (auto_case : bool) :
  Forall2 mw_halved (weapons m) (weapons (_prep_mech m auto_case))
  /\ (forall k,
        match locations m !! k, locations (_prep_mech m auto_case) !! k with
        | Some l, Some l' =>
            same_but_case l l' /\ has_case l' = auto_case || has_case l
        | None, None => True
        | _, _ => False
        end)
  /\ total_hp (_prep_mech m auto_case) = total_hp m
  /\ max_total_hp (_prep_mech m auto_case) = max_total_hp m
  /\ is_dead (_prep_mech m auto_case) = is_dead m
  /\ live_total (_prep_mech m auto_case) = live_total m.
Proof.
  split; [rewrite prep_weapons; apply prep_weapons_halved |].
  split.
  { intros k. rewrite prep_lookup.
    destruct (locations m !! k) as [l |]; cbn; [| exact I].
    destruct auto_case; cbn; split; unfold same_but_case; repeat split. }
  split.
  { unfold total_hp, total_armor, total_structure.
    rewrite !prep_sum_locations by reflexivity. reflexivity. }
  split; [unfold max_total_hp; apply prep_sum_locations; reflexivity |].
  split; [apply prep_is_dead | apply prep_live_total].
Qed.

Lemma randint_concentrated (rnd : nat -> nat) (p : nat) :
  exists dmg, randint rnd CONCENTRATED_MIN CONCENTRATED_MAX p
              = Ret (dmg, S p) /\ 5 <= dmg <= 15.
Proof.
  unfold randint, CONCENTRATED_MIN, CONCENTRATED_MAX.
  eexists. split; [reflexivity |].
  pose proof (Z.mod_pos_bound (Z.of_nat (rnd p)) (15 - 5 + 1) ltac:(lia)).
  lia.
Qed.

Lemma apply_damage_soak (rnd : nat -> nat) (bound : nat) (m : Mech)
    (loc : string) (dmg : Z) (p : nat) :
  fair rnd -> sound bound m -> complete m -> In loc LOCATION_NAMES ->
  exists m' p',
    settles (fun fuel => apply_damage rnd fuel m loc dmg false) p (m', p')
    /\ wear m m' /\ sound bound m' /\ complete m'.
Proof.
  intros Hfair Hs Hc Hin.
  destruct (apply_damage_terminates rnd bound m loc dmg false p Hfair Hs
              (Hc loc Hin)) as (m' & p' & H & Hw).
  exists m', p'. split; [exact H |]. split; [exact Hw |].
  split; [apply (sound_wear bound m m' Hw Hs) |].
  apply (complete_wear m m' Hw Hc).
Qed.

Lemma apply_concentrated_total (rnd : nat -> nat) (bound : nat)
    (m : Mech) (p : nat) :
  fair rnd -> sound bound m -> complete m ->
  exists dmg m' p',
    settles (fun fuel => _apply_concentrated rnd fuel m) p (dmg, m', p')
    /\ 2 <= dmg <= 15 /\ wear m m'
    /\ sound bound m' /\ complete m'.
Proof.
  intros Hfair Hs Hc.
  destruct (randint_concentrated rnd p) as (dmg & Hd & Hrange).
  destruct (roll_hit_location_spec rnd "front" (S p)) as (loc & Hloc & Hin & _);
    [left; reflexivity |].
  destruct (apply_damage_soak rnd bound m loc dmg (S (S (S p)))
              Hfair Hs Hc Hin) as (m' & p' & H & Hw & Hs' & Hc').
  exists dmg, m', p'. split; [| split; [lia | auto]].
  unfold _apply_concentrated.
  eapply settles_bind_pure; [exact Hd |].
  eapply settles_bind_pure; [exact Hloc |].
  eapply settles_bind; [exact H |]. apply settles_ret.
Qed.

Lemma apply_cluster_total (rnd : nat -> nat) (bound : nat)
    (m : Mech) (p : nat) :
  fair rnd -> sound bound m -> complete m ->
  exists dmg m' p',
    settles (fun fuel => _apply_cluster rnd fuel m) p (dmg, m', p')
    /\ 2 <= dmg <= 15 /\ wear m m'
    /\ sound bound m' /\ complete m'.
Proof.
  intros Hfair Hs Hc.
  destruct (roll_hit_location_spec rnd "front" p) as (loc & Hloc & Hin & _);
    [left; reflexivity |].
  destruct (apply_damage_soak rnd bound m loc CLUSTER_DAMAGE (S (S p))
              Hfair Hs Hc Hin) as (m' & p' & H & Hw & Hs' & Hc').
  exists CLUSTER_DAMAGE, m', p'.
  split; [| split; [unfold CLUSTER_DAMAGE; lia | auto]].
  unfold _apply_cluster.
  eapply settles_bind_pure; [exact Hloc |].
  eapply settles_bind; [exact H |]. apply settles_ret.
Qed.

Lemma soak_hit_total (rnd : nat -> nat) (bound : nat)
    (profile : DamageProfile) (m : Mech) (p : nat) :
  fair rnd -> sound bound m -> complete m ->
  exists dmg m' p',
    settles (fun fuel => soak_hit rnd fuel profile m) p (dmg, m', p')
    /\ 2 <= dmg <= 15 /\ wear m m'
    /\ sound bound m' /\ complete m'.
Proof.
  intros Hfair Hs Hc. destruct profile; cbn [soak_hit].
  - apply (apply_concentrated_total rnd bound); assumption.
  - apply (apply_cluster_total rnd bound); assumption.
  - destruct (Nat.even (rnd p)) eqn:Heven.
    + destruct (apply_concentrated_total rnd bound m (S p) Hfair Hs Hc)
        as (dmg & m' & p' & H & Hrest).
      exists dmg, m', p'. split; [| exact Hrest].
      eapply settles_bind_pure; [reflexivity |]. cbv beta.
      rewrite Heven. exact H.
    + destruct (apply_cluster_total rnd bound m (S p) Hfair Hs Hc)
        as (dmg & m' & p' & H & Hrest).
      exists dmg, m', p'. split; [| exact Hrest].
      eapply settles_bind_pure; [reflexivity |]. cbv beta.
      rewrite Heven. exact H.
Qed.

(** The hit loop comes to an end within [S k] rounds when fewer than
    [2 * S k] points are missing to the cap: every hit deals 2 or more.
    The result is the same for every larger number of rounds allowed and
    for all fuel from some amount on. *)
Lemma soak_loop_total (rnd : nat -> nat) (bound : nat)
    (profile : DamageProfile) :
  fair rnd ->
  forall (k : nat) (m : Mech) (total : Z) (p : nat),
    sound bound m -> complete m ->
    5001 - total < 2 * Z.of_nat (S k) ->
    exists m' total' p',
      (exists F, forall hits fuel, (S k <= hits)%nat -> (F <= fuel)%nat ->
         soak_loop rnd hits fuel profile m total p = Ret (m', total', p'))
      /\ (is_dead m' = true \/ MAX_DAMAGE <= total')
      /\ total <= total' <= Z.max total (MAX_DAMAGE + 14)
      /\ (is_dead m = true -> m' = m /\ total' = total /\ p' = p)
      /\ wear m m'.
Proof.
  intros Hfair. unfold MAX_DAMAGE.
  induction k as [| k IH]; intros m total p Hs Hc Hcap.
  - exists m, total, p. split.
    + exists 0%nat. intros hits fuel Hh _.
      destruct hits as [| h]; [lia |]. cbn [soak_loop]. unfold MAX_DAMAGE.
      destruct (Z.ltb_spec total 5000); [lia |].
      rewrite andb_false_r. reflexivity.
    + split; [right; lia |]. split; [lia |].
      split; [auto | apply wear_refl].
  - destruct (is_dead m) eqn:Hdead.
    { exists m, total, p. split.
      - exists 0%nat. intros hits fuel Hh _.
        destruct hits as [| h]; [lia |]. cbn [soak_loop].
        rewrite Hdead. reflexivity.
      - split; [left; exact Hdead |]. split; [lia |].
        split; [auto | apply wear_refl]. }
    destruct (Z.ltb_spec total 5000) as [Hlt | Hge].
    2:{ exists m, total, p. split.
        - exists 0%nat. intros hits fuel Hh _.
          destruct hits as [| h]; [lia |]. cbn [soak_loop].
          unfold MAX_DAMAGE.
          destruct (Z.ltb_spec total 5000); [lia |].
          rewrite andb_false_r. reflexivity.
        - split; [right; lia |]. split; [lia |].
          split; [discriminate | apply wear_refl]. }
    destruct (soak_hit_total rnd bound profile m p Hfair Hs Hc)
      as (dmg & m1 & p1 & [F1 Hhit] & Hd & Hw & Hs1 & Hc1).
    destruct (IH m1 (total + dmg) p1 Hs1 Hc1 ltac:(lia))
      as (m' & total' & p' & [F2 Hr] & Hend & Hb & _ & Hw').
    exists m', total', p'. split.
    + exists (Nat.max F1 F2). intros hits fuel Hh Hf.
      destruct hits as [| h]; [lia |]. cbn [soak_loop]. unfold MAX_DAMAGE.
      rewrite Hdead. destruct (Z.ltb_spec total 5000); [| lia].
      cbn [negb andb].
      rewrite (bind_ret _ _ _ _ _ (Hhit fuel ltac:(lia))). cbv beta iota.
      apply Hr; lia.
    + split; [exact Hend |]. split; [lia |]. split; [discriminate |].
      apply (wear_trans _ _ _ Hw Hw').
Qed.

(** X19.  One soak iteration always comes to an end on a well-formed
    template (each location under its own name, all eight present) with a
    fair oracle: given room for 2501 hits or more, and from some amount of
    fuel on, it returns one and the same result.  The loop stops with the
    mech dead or the damage at the cap of 5000 or more, so a mech that is
    not dead counts as capped; the damage taken is between 0 and 5014; a
    template that is dead from the start takes no hit at all; and the mech
    is the prepared template, worn. *)
Theorem soak_iteration_returns (rnd : nat -> nat) (bound : nat)
    (profile : DamageProfile) (mech_template : Mech) (auto_case : bool)
    (p : nat) :
  fair rnd -> sound bound mech_template -> complete mech_template ->
  exists mech dtk p',
    (exists F, forall hits fuel, (2501 <= hits)%nat -> (F <= fuel)%nat ->
       soak_iteration rnd hits fuel profile mech_template auto_case p
       = Ret (mech, dtk, p'))
    /\ (is_dead mech = false -> MAX_DAMAGE <= dtk)
    /\ 0 <= dtk < MAX_DAMAGE + CONCENTRATED_MAX
    /\ (is_dead mech_template = true -> dtk = 0 /\ p' = p)
    /\ wear (_prep_mech mech_template auto_case) mech.
Proof.
  intros Hfair Hs Hc. unfold soak_iteration.
  destruct (soak_loop_total rnd bound profile Hfair 2500
              (_prep_mech mech_template auto_case) 0 p)
    as (m' & total' & p' & [F Hr] & Hend & Hb & Hdead & Hw).
  - apply prep_sound. exact Hs.
  - apply prep_complete. exact Hc.
  - lia.
  - exists m', total', p'. split; [exists F; exact Hr |].
    split.
    { intros Hal. destruct Hend as [Hd | Hcap]; [congruence | exact Hcap]. }
    split; [unfold MAX_DAMAGE, CONCENTRATED_MAX in *; lia |].
    split; [| exact Hw].
    intros Hd. rewrite <- (prep_is_dead mech_template auto_case) in Hd.
    destruct (Hdead Hd) as (_ & -> & ->). split; reflexivity.
Qed.

Lemma soak_iteration_returns_witness :
  exists mech dtk p',
    (exists F, forall hits fuel, (2501 <= hits)%nat -> (F <= fuel)%nat ->
       soak_iteration rnd_sweep hits fuel MIXED plodder true 0%nat
       = Ret (mech, dtk, p'))
    /\ (is_dead mech = false -> MAX_DAMAGE <= dtk)
    /\ 0 <= dtk < MAX_DAMAGE + CONCENTRATED_MAX
    /\ (is_dead plodder = true -> dtk = 0 /\ p' = 0%nat)
    /\ wear (_prep_mech plodder true) mech.
Proof.
  apply (soak_iteration_returns rnd_sweep 1 MIXED plodder true 0%nat).
  - exact rnd_sweep_fair.
  - apply sound_check_ok. vm_compute. reflexivity.
  - apply complete_check_ok. vm_compute. reflexivity.
Defined.

(** ** The fight without a round, and the judging *)

(** ** Hit-point fractions within the range of a float *)

Lemma digits2_pos_bounds (p : positive) :
  2 ^ Z.pos (digits2_pos p) <= 2 * Z.pos p
  /\ Z.pos p < 2 ^ Z.pos (digits2_pos p).
Proof.
  induction p as [p IH | p IH |]; cbn [digits2_pos].
  - rewrite Pos2Z.inj_succ, Z.pow_succ_r by lia. lia.
  - rewrite Pos2Z.inj_succ, Z.pow_succ_r by lia. lia.
  - cbn. lia.
Qed.

Lemma Zdigits2_le (m k : Z) : 0 <= m < 2 ^ k -> 0 <= k -> Zdigits2 m <= k.
Proof.
  intros [H0 Hm] Hk. destruct m as [| p | p]; cbn [Zdigits2]; [lia | | lia].
  destruct (digits2_pos_bounds p) as [Hlo _].
  destruct (Z.le_gt_cases (Z.pos (digits2_pos p)) k) as [H | H]; [exact H |].
  exfalso.
  assert (2 ^ (k + 1) <= 2 ^ Z.pos (digits2_pos p))
    by (apply Z.pow_le_mono_r; lia).
  rewrite Z.pow_add_r in H1 by lia. lia.
Qed.

Lemma Zdigits2_nonneg (m : Z) : 0 <= Zdigits2 m.
Proof. destruct m; cbn; lia. Qed.

Lemma shr_1_bounds (mrs : shr_record) :
  0 <= shr_m mrs -> 0 <= shr_m (shr_1 mrs) <= shr_m mrs.
Proof.
  destruct mrs as [m r s]. cbn [shr_m]. intros H.
  destruct m as [| [p | p |] | p]; cbn; lia.
Qed.

Lemma iter_shr_1_bounds (n : positive) :
  forall mrs : shr_record,
    0 <= shr_m mrs -> 0 <= shr_m (SpecFloat.iter_pos shr_1 n mrs) <= shr_m mrs.
Proof.
  induction n as [n IH | n IH |]; intros mrs H; cbn [SpecFloat.iter_pos].
  - pose proof (shr_1_bounds mrs H) as H1.
    pose proof (IH (shr_1 mrs) ltac:(lia)) as H2.
    pose proof (IH (SpecFloat.iter_pos shr_1 n (shr_1 mrs)) ltac:(lia)). lia.
  - pose proof (IH mrs H) as H1.
    pose proof (IH (SpecFloat.iter_pos shr_1 n mrs) ltac:(lia)). lia.
  - apply shr_1_bounds. exact H.
Qed.

Lemma shr_fexp_bounds (m e : Z) (l : SpecFloat.location) :
  0 <= m ->
  0 <= shr_m (fst (shr_fexp float_prec float_emax m e l)) <= m
  /\ snd (shr_fexp float_prec float_emax m e l)
     = Z.max e (fexp float_prec float_emax (Zdigits2 m + e)).
Proof.
  intros Hm. unfold shr_fexp, shr.
  assert (Hrec : shr_m (shr_record_of_loc m l) = m)
    by (destruct l as [| []]; reflexivity).
  destruct (fexp float_prec float_emax (Zdigits2 m + e) - e) as [| n | n]
    eqn:Hn; cbn [fst snd].
  - rewrite Hrec. lia.
  - pose proof (iter_shr_1_bounds n (shr_record_of_loc m l)) as H.
    rewrite Hrec in H. split; [apply H; exact Hm | lia].
  - rewrite Hrec. lia.
Qed.

Lemma round_nearest_even_bounds (m : Z) (l : SpecFloat.location) :
  m <= round_nearest_even m l <= m + 1.
Proof.
  unfold round_nearest_even. destruct l as [| []]; try lia.
  destruct (Z.even m); lia.
Qed.

(** Rounding a non-negative mantissa of at most [s + 1] digits at the
    exponent [- s], with [s] from 53 to 1074, does not overflow. *)
Lemma binary_round_aux_in_range (sx : bool) (q s : Z) (l : SpecFloat.location) :
  0 <= q <= 2 ^ s -> 53 <= s <= 1074 ->
  is_infinite (binary_round_aux float_prec float_emax sx q (- s) l) = false.
Proof.
  intros Hq Hs. unfold binary_round_aux.
  pose proof (shr_fexp_bounds q (- s) l ltac:(lia)) as [Hm1 He1].
  destruct (shr_fexp float_prec float_emax q (- s) l) as [mrs1 e1].
  cbn [fst snd] in Hm1, He1.
  pose proof (round_nearest_even_bounds (shr_m mrs1)
                (loc_of_shr_record mrs1)) as Hr.
  set (m2 := round_nearest_even (shr_m mrs1) (loc_of_shr_record mrs1)) in *.
  pose proof (shr_fexp_bounds m2 e1 loc_Exact ltac:(lia)) as [Hm3 He3].
  destruct (shr_fexp float_prec float_emax m2 e1 loc_Exact) as [mrs3 e3].
  cbn [fst snd] in Hm3, He3.
  destruct (shr_m mrs3) as [| p | p]; try reflexivity.
  assert (Hd1 : Zdigits2 q <= s + 1).
  { apply Zdigits2_le; [| lia]. rewrite Z.pow_add_r by lia.
    assert (0 < 2 ^ s) by (apply Z.pow_pos_nonneg; lia). lia. }
  assert (Hd2 : Zdigits2 m2 <= s + 2).
  { apply Zdigits2_le; [| lia].
    replace (s + 2) with (s + 1 + 1) by lia.
    rewrite !Z.pow_add_r by lia.
    assert (0 < 2 ^ s) by (apply Z.pow_pos_nonneg; lia). lia. }
  pose proof (Zdigits2_nonneg q). pose proof (Zdigits2_nonneg m2).
  unfold fexp, emin, float_prec, float_emax in *.
  assert (e3 <= 971) by lia.
  destruct (Z.leb_spec e3 (1024 - 53)); [reflexivity | lia].
Qed.

(** A mech that has no more hit points than it started with, and no
    fewer than none, has a fraction between 0 and 1: no overflow. *)
Lemma hp_fraction_in_range (hp start : Z) :
  0 <= hp <= start -> is_infinite (hp_fraction hp start) = false.
Proof.
  intros H. unfold hp_fraction.
  destruct (Z.eqb_spec start 0) as [| Hne]; [reflexivity |].
  destruct start as [| ps | ps]; [lia | | lia].
  destruct hp as [| ph | ph]; [reflexivity | | lia].
  cbn [exact_int SFdiv]. unfold SFdiv_core_binary.
  set (e' := Z.min _ _).
  assert (He : -1074 <= e' <= -53).
  { unfold e'.
    assert (Zdigits2 (Z.pos ph) <= Zdigits2 (Z.pos ps)).
    { destruct (digits2_pos_bounds ph) as [Hlo _].
      destruct (digits2_pos_bounds ps) as [_ Hhi].
      apply Zdigits2_le; [| apply Zdigits2_nonneg]. cbn [Zdigits2]. lia. }
    unfold fexp, emin, float_prec, float_emax. lia. }
  replace (0 - 0 - e') with (- e') by lia.
  destruct (- e') as [| s | s] eqn:Hs; [lia | | lia].
  rewrite Z.shiftl_mul_pow2 by lia.
  pose proof (Z_div_mod (Z.pos ph * 2 ^ Z.pos s) (Z.pos ps) ltac:(lia))
    as Hdiv.
  destruct (Z.div_eucl (Z.pos ph * 2 ^ Z.pos s) (Z.pos ps)) as [q r].
  destruct Hdiv as [Hq Hr].
  replace e' with (- Z.pos s) by lia.
  apply binary_round_aux_in_range; [| lia].
  assert (0 < 2 ^ Z.pos s) by (apply Z.pow_pos_nonneg; lia).
  split; [nia |].
  assert (Z.pos ps * q <= Z.pos ps * 2 ^ Z.pos s) by nia.
  nia.
Qed.

(** X20.  [fight] returns a result exactly when no round is played and the
    judging does not overflow: one side is inactive at the start, or the
    round cap is below 1 and the hit-point fractions of both mechs are
    within the range of a float.  With both sides active, a round cap below
    1 and a fraction beyond that range it raises [OverflowError].  A result
    reports 0 rounds and no damage dealt, the hit points of the mechs as
    given, and the winner determined on them; no die is thrown.  Mechs
    whose hit points are between 0 and their maximum have fractions within
    range, so between them [fight] returns exactly when no round is
    played. *)
Theorem fight_returns_without_round (rnd : nat -> nat)
    (resolve_attack : Mech -> nat -> Mech -> Z -> M (Mech * Mech * Z))
    (fuel : nat) (mech_a mech_b : Mech) (distance max_rounds : Z)
    (closing_rate : Z) (movement_ai : string) (p : nat) :
  ((exists res p',
      fight rnd resolve_attack fuel mech_a mech_b distance max_rounds
        closing_rate movement_ai p = Ret (res, p'))
   <-> active mech_a = false \/ active mech_b = false
       \/ (max_rounds <= 0
           /\ is_infinite (hp_fraction (total_hp mech_a)
                             (max_total_hp mech_a)) = false
           /\ is_infinite (hp_fraction (total_hp mech_b)
                             (max_total_hp mech_b)) = false))
  /\ (active mech_a = true -> active mech_b = true -> max_rounds <= 0 ->
      is_infinite (hp_fraction (total_hp mech_a) (max_total_hp mech_a))
      = true
      \/ is_infinite (hp_fraction (total_hp mech_b) (max_total_hp mech_b))
         = true ->
      fight rnd resolve_attack fuel mech_a mech_b distance max_rounds
        closing_rate movement_ai p = Raise OverflowError)
  /\ (forall res p',
       fight rnd resolve_attack fuel mech_a mech_b distance max_rounds
         closing_rate movement_ai p = Ret (res, p') ->
       p' = p /\ rounds res = 0
       /\ mech_a_remaining_hp res = total_hp mech_a
       /\ mech_b_remaining_hp res = total_hp mech_b
       /\ mech_a_damage_dealt res = 0 /\ mech_b_damage_dealt res = 0
       /\ winner res = determine_winner mech_a mech_b (max_total_hp mech_a)
                         (max_total_hp mech_b))
  /\ (0 <= total_hp mech_a <= max_total_hp mech_a ->
      0 <= total_hp mech_b <= max_total_hp mech_b ->
      ((exists res p',
          fight rnd resolve_attack fuel mech_a mech_b distance max_rounds
            closing_rate movement_ai p = Ret (res, p'))
       <-> active mech_a = false \/ active mech_b = false
           \/ max_rounds <= 0)).
Proof.
  assert (Hno : active mech_a = false \/ active mech_b = false
                \/ max_rounds <= 0 ->
                fight_rounds rnd resolve_attack fuel movement_ai closing_rate
                  (round_range max_rounds)
                  (mkFightState mech_a mech_b distance 0 0 0) p
                = Ret (mkFightState mech_a mech_b distance 0 0 0, p)).
  { intros H. unfold round_range.
    destruct (Z.to_nat max_rounds) as [| n] eqn:Hn; [reflexivity |].
    cbn [seq map fight_rounds fs_a fs_b].
    destruct H as [-> | [-> | Hm]]; [reflexivity | | lia].
    rewrite orb_true_r. reflexivity. }
  assert (Hyes : active mech_a = true -> active mech_b = true ->
                 1 <= max_rounds ->
                 fight rnd resolve_attack fuel mech_a mech_b distance
                   max_rounds closing_rate movement_ai p = Raise TypeError).
  { intros Ha Hb Hr. unfold fight, bind. cbv zeta. unfold round_range.
    destruct (Z.to_nat max_rounds) as [| n] eqn:Hn; [lia |].
    cbn [seq map fight_rounds fs_a fs_b].
    rewrite Ha, Hb. cbn [negb orb]. unfold bind.
    rewrite fight_round_raises; [reflexivity | exact Ha]. }
  assert (Hjudge : active mech_a = false \/ active mech_b = false
                   \/ max_rounds <= 0 ->
            fight rnd resolve_attack fuel mech_a mech_b distance max_rounds
              closing_rate movement_ai p
            = match fraction_check mech_a mech_b (max_total_hp mech_a)
                      (max_total_hp mech_b) p with
              | Ret (_, q) =>
                  let win := determine_winner mech_a mech_b
                               (max_total_hp mech_a) (max_total_hp mech_b) in
                  Ret (mkFightResult win
                         match win with
                         | Some SideA => Some (mech_name mech_a)
                         | Some SideB => Some (mech_name mech_b)
                         | None => None
                         end 0 (total_hp mech_a) (total_hp mech_b) 0 0, q)
              | Raise e => Raise e
              | OutOfFuel => OutOfFuel
              end).
  { intros H. unfold fight. cbv zeta.
    rewrite (bind_ret _ _ _ _ _ (Hno H)). cbn [fs_a fs_b]. unfold bind.
    destruct (fraction_check _ _ _ _ p) as [[[] q] | e |]; reflexivity. }
  assert (Hcheck : forall r,
            fraction_check mech_a mech_b (max_total_hp mech_a)
              (max_total_hp mech_b) p = r ->
            r = Ret (tt, p)
            /\ (active mech_a = false \/ active mech_b = false
                \/ is_infinite (hp_fraction (total_hp mech_a)
                                  (max_total_hp mech_a)) = false
                   /\ is_infinite (hp_fraction (total_hp mech_b)
                                     (max_total_hp mech_b)) = false)
            \/ r = Raise OverflowError
               /\ active mech_a = true /\ active mech_b = true
               /\ (is_infinite (hp_fraction (total_hp mech_a)
                                  (max_total_hp mech_a)) = true
                   \/ is_infinite (hp_fraction (total_hp mech_b)
                                     (max_total_hp mech_b)) = true)).
  { intros r <-. unfold fraction_check.
    destruct (active mech_a); [| left; split; [reflexivity | auto]].
    destruct (active mech_b);
      [| left; split; [reflexivity | auto]].
    cbn [andb].
    destruct (is_infinite (hp_fraction (total_hp mech_a) _));
      [right; repeat split; auto |].
    destruct (is_infinite (hp_fraction (total_hp mech_b) _));
      [right; repeat split; auto |].
    left. split; [reflexivity | auto]. }
  assert (Hcases : forall res p',
            fight rnd resolve_attack fuel mech_a mech_b distance
              max_rounds closing_rate movement_ai p = Ret (res, p') ->
            active mech_a = false \/ active mech_b = false
            \/ max_rounds <= 0).
  { intros res p' H.
    destruct (active mech_a) eqn:Ha; [| left; reflexivity].
    destruct (active mech_b) eqn:Hb; [| right; left; reflexivity].
    destruct (Z.le_gt_cases max_rounds 0) as [Hm | Hm];
      [right; right; exact Hm |].
    rewrite Hyes in H by (reflexivity || lia). discriminate. }
  assert (Hiff : (exists res p',
                    fight rnd resolve_attack fuel mech_a mech_b distance
                      max_rounds closing_rate movement_ai p = Ret (res, p'))
                 <-> active mech_a = false \/ active mech_b = false
                     \/ (max_rounds <= 0
                         /\ is_infinite (hp_fraction (total_hp mech_a)
                                           (max_total_hp mech_a)) = false
                         /\ is_infinite (hp_fraction (total_hp mech_b)
                                           (max_total_hp mech_b)) = false)).
  { split.
    + intros (res & p' & H). pose proof (Hcases res p' H) as Hc.
      rewrite (Hjudge Hc) in H.
      destruct (Hcheck _ eq_refl) as [[E Hfin] | [E _]];
        rewrite E in H; [| discriminate].
      destruct Hc as [Hc | [Hc | Hc]]; [auto | auto |].
      destruct Hfin as [Hf | [Hf | Hf]]; [auto | auto |].
      right. right. split; [exact Hc | exact Hf].
    + intros H.
      assert (Hc : active mech_a = false \/ active mech_b = false
                   \/ max_rounds <= 0) by (destruct H as [? | [? | [? _]]]; auto).
      rewrite (Hjudge Hc).
      destruct (Hcheck _ eq_refl) as [[E _] | (E & Ha & Hb & Hinf)].
      * rewrite E. eexists. eexists. reflexivity.
      * exfalso. destruct H as [H | [H | (_ & H1 & H2)]]; try congruence.
        destruct Hinf; congruence. }
  split; [exact Hiff |]. split; [| split].
  - intros Ha Hb Hm Hinf.
    rewrite (Hjudge (or_intror (or_intror Hm))).
    destruct (Hcheck _ eq_refl) as [[_ Hfin] | [E _]].
    + exfalso. destruct Hfin as [Hf | [Hf | [H1 H2]]]; try congruence.
      destruct Hinf; congruence.
    + rewrite E. reflexivity.
  - intros res p' H. pose proof (Hcases res p' H) as Hc.
    rewrite (Hjudge Hc) in H.
    destruct (Hcheck _ eq_refl) as [[E _] | [E _]];
      rewrite E in H; [| discriminate].
    cbv zeta in H. inversion H; subst. cbn. repeat split.
  - intros Ha Hb.
    pose proof (hp_fraction_in_range _ _ Ha) as Fa.
    pose proof (hp_fraction_in_range _ _ Hb) as Fb.
    rewrite Hiff. split.
    + intros [H | [H | (H & _)]]; auto.
    + intros [H | [H | H]]; auto.
Qed.

Lemma fight_returns_without_round_witness :
  exists res p',
    fight rnd_zero no_attack 0 duelist plodder 6 0 0 "closure" 0%nat
    = Ret (res, p').
Proof.
  apply (proj2 (proj1 (fight_returns_without_round rnd_zero no_attack 0
                         duelist plodder 6 0 0 "closure" 0%nat))).
  right. right. split; [lia |]. split; vm_compute; reflexivity.
Defined.

(** The order of floats is asymmetric. *)
Lemma SFcompare_antisym (x y : spec_float) :
  SFcompare y x = option_map CompOpp (SFcompare x y).
Proof.
  destruct x as [sx | sx | | sx mx ex], y as [sy | sy | | sy my ey];
    cbn; try reflexivity;
    try (destruct sx; reflexivity); try (destruct sy; reflexivity);
    try (destruct sx, sy; reflexivity).
  destruct sx, sy; cbn; try reflexivity.
  - rewrite (Z.compare_antisym ex ey).
    destruct (ex ?= ey); cbn; try reflexivity.
    rewrite (Pos.compare_cont_antisym mx my Eq). reflexivity.
  - rewrite (Z.compare_antisym ex ey).
    destruct (ex ?= ey); cbn; try reflexivity.
    rewrite (Pos.compare_cont_antisym mx my Eq). reflexivity.
Qed.

Lemma float_gt_asym (x y : spec_float) :
  float_gt x y = true -> float_gt y x = false.
Proof.
  unfold float_gt, SFltb. rewrite (SFcompare_antisym y x).
  destruct (SFcompare y x) as [[| |] |]; cbn; congruence.
Qed.

(** X21.  The judging does not favour a side: with the two mechs and their
    starting hit points exchanged, the winner is the other side or still
    nobody, and the judging raises for the one order exactly when it does
    for the other.  A winner is always active, and a side that is alone
    active wins whatever the hit points. *)
Theorem determine_winner_fair (mech_a mech_b : Mech) (sa sb : Z) :
  determine_winner mech_b mech_a sb sa
  = swap_side (determine_winner mech_a mech_b sa sb)
  /\ (forall p, fraction_check mech_b mech_a sb sa p
                = fraction_check mech_a mech_b sa sb p)
  /\ (determine_winner mech_a mech_b sa sb = Some SideA ->
      active mech_a = true)
  /\ (determine_winner mech_a mech_b sa sb = Some SideB ->
      active mech_b = true)
  /\ (active mech_a = true -> active mech_b = false ->
      determine_winner mech_a mech_b sa sb = Some SideA).
Proof.
  split; [| split].
  - unfold determine_winner.
    destruct (active mech_a), (active mech_b); cbn; try reflexivity.
    destruct (float_gt (hp_fraction (total_hp mech_a) sa)
                (hp_fraction (total_hp mech_b) sb)) eqn:Hab.
    + rewrite (float_gt_asym _ _ Hab). reflexivity.
    + destruct (float_gt (hp_fraction (total_hp mech_b) sb)
                  (hp_fraction (total_hp mech_a) sa)); reflexivity.
  - intros p. unfold fraction_check.
    destruct (active mech_a), (active mech_b); cbn; try reflexivity.
    destruct (is_infinite (hp_fraction (total_hp mech_a) sa)),
      (is_infinite (hp_fraction (total_hp mech_b) sb)); reflexivity.
  - unfold determine_winner.
    destruct (active mech_a), (active mech_b); cbn;
      repeat split; (reflexivity || discriminate).
Qed.

Lemma determine_winner_fair_witness :
  determine_winner (set_active false plodder) duelist 10 10 = Some SideB
  /\ determine_winner duelist (set_active false plodder) 10 10 = Some SideA
  /\ determine_winner plodder duelist 200 100 = Some SideB
  /\ determine_winner duelist plodder 100 200 = Some SideA.
Proof.
  destruct (determine_winner_fair duelist (set_active false plodder) 10 10)
    as (Hswap & _ & _ & _ & Hwin).
  destruct (determine_winner_fair duelist plodder 100 200)
    as (Hswap2 & _).
  rewrite Hswap, Hswap2, (Hwin eq_refl eq_refl).
  repeat split; vm_compute; reflexivity.
Defined.

(** ** Movement *)

(** X22.  Whenever [optimal_movement] returns, no die was thrown, each side
    walks or runs (never both run) by its non-negative effective movement
    points, and the new distance is at least 1.  From a distance of at
    least 1, if neither side's effective walking speed exceeds the other
    side's effective running speed, the distance does not grow. *)
Theorem optimal_movement_moves (mech_a mech_b : Mech) (d : Z) (p p' : nat)
    (a_mode b_mode : string) (a_hexes b_hexes d' : Z) :
  optimal_movement mech_a mech_b d p
    = Ret (a_mode, a_hexes, b_mode, b_hexes, d', p') ->
  p' = p /\ 1 <= d'
  /\ (a_mode = "walk" /\ a_hexes = effective_walk mech_a
      \/ a_mode = "run" /\ a_hexes = effective_run mech_a
         /\ b_mode = "walk")
  /\ (b_mode = "walk" /\ b_hexes = effective_walk mech_b
      \/ b_mode = "run" /\ b_hexes = effective_run mech_b
         /\ a_mode = "walk")
  /\ 0 <= a_hexes /\ 0 <= b_hexes
  /\ (1 <= d -> effective_walk mech_a <= effective_run mech_b ->
      effective_walk mech_b <= effective_run mech_a -> d' <= d).
Proof.
  intros H.
  apply optimal_movement_ret in H as (qa & qb & _ & _ & -> & Hr).
  assert (0 <= effective_walk mech_a) by (unfold effective_walk; lia).
  assert (0 <= effective_walk mech_b) by (unfold effective_walk; lia).
  assert (0 <= effective_run mech_a) by (unfold effective_run; lia).
  assert (0 <= effective_run mech_b) by (unfold effective_run; lia).
  destruct (Qgtb qa qb); [| destruct (Qgtb qb qa)];
    inversion Hr; subst; clear Hr;
    (split; [reflexivity |]); (split; [lia |]);
    (split; [tauto |]); (split; [tauto |]);
    (split; [assumption |]); (split; [assumption |]); lia.
Qed.

Lemma optimal_movement_moves_witness :
  match optimal_movement skirmisher plodder 3 0%nat with
  | Ret (a_mode, a_hexes, b_mode, b_hexes, d', p') =>
      p' = 0%nat /\ 1 <= d'
      /\ (a_mode = "walk" /\ a_hexes = effective_walk skirmisher
          \/ a_mode = "run" /\ a_hexes = effective_run skirmisher
             /\ b_mode = "walk")
      /\ (b_mode = "walk" /\ b_hexes = effective_walk plodder
          \/ b_mode = "run" /\ b_hexes = effective_run plodder
             /\ a_mode = "walk")
      /\ 0 <= a_hexes /\ 0 <= b_hexes
      /\ (1 <= 3 -> effective_walk skirmisher <= effective_run plodder ->
          effective_walk plodder <= effective_run skirmisher -> d' <= 3)
  | _ => False
  end.
Proof.
  destruct (optimal_movement skirmisher plodder 3 0%nat)
    as [[[[[[a_mode a_hexes] b_mode] b_hexes] d'] p'] | e |] eqn:E.
  - exact (optimal_movement_moves skirmisher plodder 3 0%nat p' a_mode b_mode
             a_hexes b_hexes d' E).
  - vm_compute in E. discriminate.
  - vm_compute in E. discriminate.
Defined.

(** X23.  [choose_movement] only ever stands or walks.  It stands, with 0
    hexes, exactly when the heat penalty uses up the walking points;
    otherwise it walks all the hexes left after the penalty, which is 0
    below heat 5, 1 from heat 5 and 4 from heat 9.  A hotter mech of the
    same walking speed never moves further. *)
Theorem choose_movement_walks (m m' : Mech) :
  (choose_movement m = ("stand", 0)
   /\ walk_mp m <= get_heat_mp_penalty (current_heat m)
   \/ choose_movement m
      = ("walk", walk_mp m - get_heat_mp_penalty (current_heat m))
      /\ get_heat_mp_penalty (current_heat m) < walk_mp m)
  /\ (get_heat_mp_penalty (current_heat m) = 0 <-> current_heat m < 5)
  /\ (get_heat_mp_penalty (current_heat m) = 4 <-> 9 <= current_heat m)
  /\ (walk_mp m' = walk_mp m -> current_heat m <= current_heat m' ->
      snd (choose_movement m') <= snd (choose_movement m)).
Proof.
  unfold choose_movement. rewrite !get_heat_mp_penalty_steps.
  split; [| split; [| split]].
  - destruct (Z.leb_spec (Z.max 0 (walk_mp m -
              (if 9 <=? current_heat m then 4
               else if 5 <=? current_heat m then 1 else 0))) 0).
    + left. split; [reflexivity | lia].
    + right. split; [f_equal; lia | lia].
  - range_cases; split; intros; lia.
  - range_cases; split; intros; lia.
  - intros Hw Hh. rewrite Hw.
    repeat match goal with
           | |- context [if Z.max 0 ?x <=? 0 then _ else _] =>
               destruct (Z.leb_spec (Z.max 0 x) 0)
           end; cbn [snd]; range_cases; lia.
Qed.

Lemma choose_movement_walks_witness :
  snd (choose_movement hot_mech) <= snd (choose_movement duelist).
Proof.
  destruct (choose_movement_walks duelist hot_mech) as (_ & _ & _ & H).
  apply H; [reflexivity | cbn; lia].
Defined.

(** ** Critical slots, for every oracle *)

Lemma redraw_slot_sound (rnd : nat -> nat) (slots : list string) :
  forall (fuel : nat) (idx : Z) (p : nat),
    0 <= idx < Z.of_nat (length slots) ->
    redraw_slot rnd fuel slots idx p = OutOfFuel
    \/ exists idx' p',
         redraw_slot rnd fuel slots idx p = Ret (idx', p')
         /\ live_at slots idx' /\ idx' < Z.of_nat (length slots)
         /\ (p <= p')%nat.
Proof.
  induction fuel as [| f IH]; intros idx p Hidx; [left; reflexivity |].
  cbn [redraw_slot].
  destruct (lookup_lt_is_Some_2 slots (Z.to_nat idx) ltac:(lia)) as [s Hs].
  assert (Hat : slot_at slots idx p = Ret (s, p))
    by (unfold slot_at; rewrite Hs; reflexivity).
  rewrite (bind_ret _ _ _ _ _ Hat).
  destruct (is_DESTROYED s) eqn:Hd.
  - rewrite (bind_ret _ _ _ _ _ (randint_index rnd (length slots) p)).
    assert (Hlen : length slots <> 0%nat) by lia.
    pose proof (Nat.mod_upper_bound (rnd p) (length slots) Hlen) as Hm.
    destruct (IH (Z.of_nat (rnd p mod length slots)) (S p) ltac:(lia))
      as [-> | (idx' & p' & -> & Hlive & Hlt & Hp)]; [left; reflexivity |].
    right. exists idx', p'. split; [reflexivity |].
    split; [exact Hlive |]. split; [exact Hlt | lia].
  - right. exists idx, p. split; [reflexivity |].
    split; [| split; [lia | lia]].
    split; [lia |]. exists s. split; [exact Hs | exact Hd].
Qed.

Lemma pick_slot_cases (rnd : nat -> nat) (fuel : nat) (slots : list string)
    (p : nat) :
  slots <> [] ->
  pick_slot rnd fuel slots p = OutOfFuel
  \/ exists idx p',
       pick_slot rnd fuel slots p = Ret (idx, p')
       /\ live_at slots idx /\ idx < Z.of_nat (length slots)
       /\ (p < p')%nat.
Proof.
  intros Hne. unfold pick_slot.
  rewrite (bind_ret _ _ _ _ _ (randint_index rnd (length slots) p)).
  assert (Hlen : length slots <> 0%nat) by (destruct slots; cbn; congruence).
  pose proof (Nat.mod_upper_bound (rnd p) (length slots) Hlen) as Hm.
  destruct (redraw_slot_sound rnd slots fuel
              (Z.of_nat (rnd p mod length slots)) (S p) ltac:(lia))
    as [-> | (idx' & p' & -> & Hlive & Hlt & Hp)]; [left; reflexivity |].
  right. exists idx', p'. split; [reflexivity |].
  split; [exact Hlive |]. split; [exact Hlt | lia].
Qed.

(** X24.  Whatever the random draws, the slot selection of [_apply_crits]
    (first draw and retry loop) on a non-empty slot list never raises and
    never returns a destroyed slot: it either keeps redrawing until the
    fuel is used up, or returns the index of a slot that is in range and
    not destroyed, after at least one draw. *)
Theorem pick_slot_sound (rnd : nat -> nat) (fuel : nat) (slots : list string)
    (p : nat) :
  slots <> [] ->
  pick_slot rnd fuel slots p = OutOfFuel
  \/ exists idx p' s,
       pick_slot rnd fuel slots p = Ret (idx, p')
       /\ 0 <= idx < Z.of_nat (length slots)
       /\ slots !! Z.to_nat idx = Some s /\ s <> "DESTROYED"
       /\ (p < p')%nat.
Proof.
  intros Hne.
  destruct (pick_slot_cases rnd fuel slots p Hne)
    as [H | (idx & p' & H & (H0 & s & Hs & Hd) & Hlt & Hp)];
    [left; exact H |].
  right. exists idx, p', s. split; [exact H |]. split; [lia |].
  split; [exact Hs |]. split; [| exact Hp].
  intros ->. discriminate.
Qed.

Lemma pick_slot_sound_witness :
  pick_slot rnd_zero 5 ["DESTROYED"; "Engine"] 0%nat = OutOfFuel
  \/ exists idx p' s,
       pick_slot rnd_zero 5 ["DESTROYED"; "Engine"] 0%nat = Ret (idx, p')
       /\ 0 <= idx < Z.of_nat (length ["DESTROYED"; "Engine"])
       /\ ["DESTROYED"; "Engine"] !! Z.to_nat idx = Some s
       /\ s <> "DESTROYED"
       /\ (0 < p')%nat.
Proof.
  apply (pick_slot_sound rnd_zero 5 ["DESTROYED"; "Engine"] 0%nat).
  discriminate.
Defined.

Lemma pick_slot_ret_live (rnd : nat -> nat) (fuel : nat)
    (slots : list string) (p : nat) (idx : Z) (p' : nat) :
  slots <> [] -> pick_slot rnd fuel slots p = Ret (idx, p') ->
  live_at slots idx.
Proof.
  intros Hne H.
  destruct (pick_slot_cases rnd fuel slots p Hne)
    as [E | (idx' & q & E & Hlive & _)]; rewrite E in H; [discriminate |].
  inversion H; subst. exact Hlive.
Qed.

Lemma crit_loop_counts (rnd : nat -> nat)
    (explode : Mech -> string -> string -> M Mech) (fuel : nat)
    (id : string) :
  (forall m0 id0 s q m1 q1,
      explode m0 id0 s q = Ret (m1, q1) -> wear m0 m1) ->
  forall (n : nat) (m : Mech) (p : nat) (m' : Mech) (p' : nat),
    crit_loop rnd explode fuel n m id p = Ret (m', p') ->
    (live_in m' id + n <= live_in m id \/ live_in m' id = 0)%nat.
Proof.
  intros Hex. induction n as [| n IH]; intros m p m' p' H.
  { inversion H; subst. left. lia. }
  cbn [crit_loop] in H. inv_bind H.
  apply get_loc_ret_inv in Hstep as [Hl ->].
  destruct (available_slots a) as [| s0 rest] eqn:Hav.
  { inversion H; subst. right. eapply live_in_none; eassumption. }
  inv_bind H. inv_bind H.
  apply slot_at_ret_inv in Hstep0 as [Hsl ->].
  assert (Hne : crittable_slots a <> []).
  { intros E. unfold available_slots in Hav. rewrite E in Hav.
    discriminate. }
  destruct (pick_slot_ret_live _ _ _ _ _ _ Hne Hstep) as (_ & s & Hs & Hd).
  assert (s = a1) by congruence. subst s.
  cbv zeta in H.
  set (loc' := set_crittable_slots
                 (<[Z.to_nat a0 := "DESTROYED"]> (crittable_slots a)) a) in H.
  set (m1 := put_loc id loc' m) in H.
  set (m2 := crit_weapon id a1 loc' m1) in H.
  assert (W2 : wear m1 m2)
    by (apply crit_weapon_wear; apply lookup_put_loc).
  assert (Hless : (live_slots loc' + 1 = live_slots a)%nat)
    by (apply (count_live_mark _ _ a1); assumption).
  assert (I1 : (live_in m1 id + 1 = live_in m id)%nat).
  { unfold live_in, m1. rewrite lookup_put_loc, Hl. exact Hless. }
  pose proof (wear_live_in _ _ id W2) as I2.
  inv_bind H.
  assert (W3 : wear m2 a2).
  { destruct (String.prefix "Ammo" a1).
    - eapply Hex. exact Hstep0.
    - inversion Hstep0. apply wear_refl. }
  pose proof (wear_live_in _ _ id W3) as I3.
  apply IH in H. lia.
Qed.

Lemma ammo_explosion_wear (rnd : nat -> nat) (fuel : nat) (m : Mech)
    (id slot : string) (p : nat) (m' : Mech) (p' : nat) :
  _ammo_explosion rnd fuel m id slot p = Ret (m', p') -> wear m m'.
Proof.
  unfold _ammo_explosion. apply ammo_explosion_body_wear.
  intros. eapply apply_damage_wear; eassumption.
Qed.

(** X25.  Whatever the random draws, when [_apply_crits] returns: the mech
    is only worn, and the location has lost at least [num_crits] live
    slots, or has none left.  With [num_crits] at most 0, or no live slot
    in the location, the mech is returned as it is and no die is thrown. *)
Theorem apply_crits_counts (rnd : nat -> nat) (fuel : nat) (m : Mech)
    (id : string) (num_crits : Z) (p : nat) (m' : Mech) (p' : nat) :
  _apply_crits rnd fuel m id num_crits p = Ret (m', p') ->
  wear m m'
  /\ (live_in m' id + Z.to_nat num_crits <= live_in m id
      \/ live_in m' id = 0)%nat
  /\ (num_crits <= 0 \/ live_in m id = 0%nat -> m' = m /\ p' = p).
Proof.
  intros H.
  assert (Hex : forall m0 id0 s q m1 q1,
            _ammo_explosion rnd fuel m0 id0 s q = Ret (m1, q1) ->
            wear m0 m1).
  { intros. eapply ammo_explosion_wear. eassumption. }
  split; [eapply apply_crits_body_wear; [exact Hex | exact H] |].
  unfold _apply_crits, apply_crits_body in H. inv_bind H.
  apply get_loc_ret_inv in Hstep as [Hl ->].
  destruct (available_slots a) as [| s0 rest] eqn:Hav.
  { inversion H; subst. pose proof (live_in_none _ _ _ Hl Hav) as H0.
    split; [right; exact H0 | auto]. }
  split; [eapply crit_loop_counts; [exact Hex | exact H] |].
  intros [Hn | H0].
  - replace (Z.to_nat num_crits) with 0%nat in H by lia.
    inversion H. split; reflexivity.
  - unfold live_in in H0. rewrite Hl in H0.
    unfold live_slots, count_live in H0. unfold available_slots in Hav.
    rewrite Hav in H0. discriminate.
Qed.

Lemma apply_crits_counts_witness :
  match _apply_crits rnd_count 5 worn_mech "LT" 1 0%nat with
  | Ret (m', p') =>
      wear worn_mech m'
      /\ (live_in m' "LT" + Z.to_nat 1 <= live_in worn_mech "LT"
          \/ live_in m' "LT" = 0)%nat
      /\ (1 <= 0 \/ live_in worn_mech "LT" = 0%nat ->
          m' = worn_mech /\ p' = 0%nat)
  | _ => False
  end.
Proof.
  destruct (_apply_crits rnd_count 5 worn_mech "LT" 1 0%nat)
    as [[m' p'] | e |] eqn:E.
  - exact (apply_crits_counts rnd_count 5 worn_mech "LT" 1 0%nat m' p' E).
  - vm_compute in E. discriminate.
  - vm_compute in E. discriminate.
Defined.

(** ** Heat generated *)

Lemma calculate_heat_generated_from (m : Mech) (ws : list MountedWeapon) :
  forall acc,
    fold_left
      (fun acc mw =>
         if negb (mw_destroyed mw) then
           let acc := acc + heat (weapon mw) in
           if is_ultra (weapon mw) then acc + heat (weapon mw) else acc
         else acc) ws acc
    = acc + fold_right Z.add 0 (map fired_heat ws).
Proof.
  induction ws as [| w ws IH]; intros acc; cbn [fold_left map fold_right];
    [lia |].
  rewrite IH. unfold fired_heat.
  destruct (negb (mw_destroyed w)); [| lia].
  cbv zeta. destruct (is_ultra (weapon w)); lia.
Qed.

Lemma calculate_heat_generated_sum (m : Mech) (ws : list MountedWeapon) :
  calculate_heat_generated m ws
  = movement_heat m + fold_right Z.add 0 (map fired_heat ws).
Proof. unfold calculate_heat_generated. apply calculate_heat_generated_from; exact m. Qed.

Lemma movement_heat_nonneg (m : Mech) : 0 <= movement_heat m.
Proof.
  unfold movement_heat.
  repeat match goal with
         | |- context [String.eqb ?a ?b] => destruct (String.eqb a b)
         end; lia.
Qed.

(** X26.  The heat generated in a round is the movement heat (never
    negative) plus, for each weapon fired, nothing if it is destroyed,
    twice its heat if it is an Ultra autocannon and its heat otherwise.  So
    it adds up over a split of the weapons fired, does not depend on the
    order of firing, is the movement heat alone when every weapon fired is
    destroyed, and is at least the movement heat when no weapon has
    negative heat. *)
Theorem calculate_heat_generated_adds (m : Mech)
    (ws ws' : list MountedWeapon) :
  calculate_heat_generated m (ws ++ ws')
  = calculate_heat_generated m ws + calculate_heat_generated m ws'
    - movement_heat m
  /\ 0 <= movement_heat m
  /\ (ws ≡ₚ ws' ->
      calculate_heat_generated m ws = calculate_heat_generated m ws')
  /\ (Forall (fun mw => mw_destroyed mw = true) ws ->
      calculate_heat_generated m ws = movement_heat m)
  /\ (Forall (fun mw => 0 <= heat (weapon mw)) ws ->
      movement_heat m <= calculate_heat_generated m ws).
Proof.
  rewrite !calculate_heat_generated_sum.
  split.
  { rewrite map_app.
    assert (forall a b : list Z,
              fold_right Z.add 0 (a ++ b)
              = fold_right Z.add 0 a + fold_right Z.add 0 b) as Happ.
    { induction a as [| x a IH]; intros b; cbn; [lia | rewrite IH; lia]. }
    rewrite Happ. lia. }
  split; [apply movement_heat_nonneg |].
  split.
  { intros Hp. f_equal.
    induction Hp as [| x l l' _ IH | x y l | l l' l'' _ IH1 _ IH2]; cbn;
      lia. }
  split.
  { intros Hall. induction Hall as [| w l Hw _ IH]; cbn; [lia |].
    unfold fired_heat at 1. rewrite Hw. cbn. lia. }
  intros Hall. induction Hall as [| w l Hw _ IH]; cbn; [lia |].
  unfold fired_heat at 1.
  destruct (negb (mw_destroyed w)); [| lia].
  destruct (is_ultra (weapon w)); lia.
Qed.

Lemma calculate_heat_generated_adds_witness :
  calculate_heat_generated duelist [ultra_gun; lrm_rack]
  = calculate_heat_generated duelist [lrm_rack; ultra_gun]
  /\ calculate_heat_generated duelist [set_mw_destroyed true ultra_gun]
     = movement_heat duelist
  /\ movement_heat duelist
     <= calculate_heat_generated duelist [ultra_gun; lrm_rack].
Proof.
  destruct (calculate_heat_generated_adds duelist [ultra_gun; lrm_rack]
              [lrm_rack; ultra_gun]) as (_ & _ & Hperm & _ & Hle).
  destruct (calculate_heat_generated_adds duelist
              [set_mw_destroyed true ultra_gun] []) as (_ & _ & _ & Hd & _).
  split; [apply Hperm; apply Permutation_swap |].
  split; [apply Hd; repeat constructor |].
  apply Hle. repeat constructor; cbn; lia.
Defined.

(** ** Successive hits *)

(** X27.  On a well-formed mech under a fair oracle [apply_damage] returns
    for any location of the mech, any damage and front or rear, and it goes
    on returning: the mech returned is well-formed again, has the same
    locations and no more live slots, so a second hit, on any of its
    locations, returns as well, and the two hits together only wear the
    mech.  From some amount of fuel on both calls give always the same
    results. *)
Theorem apply_damage_twice_returns (rnd : nat -> nat) (bound : nat)
    (m : Mech) (id1 id2 : string) (dmg1 dmg2 : Z) (rear1 rear2 : bool)
    (p : nat) :
  fair rnd -> sound bound m ->
  is_Some (locations m !! id1) -> is_Some (locations m !! id2) ->
  exists m1 p1 m2 p2,
    (exists F, forall fuel, (F <= fuel)%nat ->
       apply_damage rnd fuel m id1 dmg1 rear1 p = Ret (m1, p1)
       /\ apply_damage rnd fuel m1 id2 dmg2 rear2 p1 = Ret (m2, p2))
    /\ sound bound m1 /\ (live_total m1 <= live_total m)%nat
    /\ sound bound m2 /\ (live_total m2 <= live_total m1)%nat
    /\ wear m m2.
Proof.
  intros Hfair Hs H1 H2.
  destruct (apply_damage_terminates rnd bound m id1 dmg1 rear1 p Hfair Hs H1)
    as (m1 & p1 & [F1 E1] & W1).
  pose proof (wear_live _ _ W1) as L1.
  pose proof (sound_wear bound m m1 W1 Hs) as S1.
  pose proof (wear_is_Some m m1 id2 W1 H2) as H2'.
  destruct (apply_damage_terminates rnd bound m1 id2 dmg2 rear2 p1 Hfair S1
              H2') as (m2 & p2 & [F2 E2] & W2).
  exists m1, p1, m2, p2.
  split.
  { exists (Nat.max F1 F2). intros fuel Hf.
    split; [apply E1 | apply E2]; lia. }
  split; [exact S1 |]. split; [exact L1 |].
  split; [apply (sound_wear bound m1 m2 W2 S1) |].
  split; [apply (wear_live _ _ W2) | apply (wear_trans _ _ _ W1 W2)].
Qed.

Lemma apply_damage_twice_returns_witness :
  exists m1 p1 m2 p2,
    (exists F, forall fuel, (F <= fuel)%nat ->
       apply_damage rnd_sweep fuel worn_mech "LT" 5 false 13%nat
       = Ret (m1, p1)
       /\ apply_damage rnd_sweep fuel m1 "LA" 7 true p1 = Ret (m2, p2))
    /\ sound 2 m1 /\ (live_total m1 <= live_total worn_mech)%nat
    /\ sound 2 m2 /\ (live_total m2 <= live_total m1)%nat
    /\ wear worn_mech m2.
Proof.
  apply (apply_damage_twice_returns rnd_sweep 2 worn_mech "LT" "LA" 5 7
           false true 13%nat).
  - exact rnd_sweep_fair.
  - apply sound_check_ok. vm_compute. reflexivity.
  - vm_compute. eexists. reflexivity.
  - vm_compute. eexists. reflexivity.
Defined.

(** ** A critical hit on a weapon of several slots *)

Lemma destroy_first_named_split (id item : string)
    (pre : list MountedWeapon) (w : MountedWeapon)
    (post : list MountedWeapon) :
  Forall (fun mw => location mw <> id \/ wname (weapon mw) <> item
                    \/ mw_destroyed mw = true) pre ->
  location w = id -> wname (weapon w) = item -> mw_destroyed w = false ->
  destroy_first_named id item (pre ++ w :: post)
  = (Some w, pre ++ set_mw_destroyed true w :: post).
Proof.
  intros Hpre Hl Hn Hd. induction Hpre as [| x pre Hx _ IH].
  - cbn [app destroy_first_named].
    rewrite Hl, Hn, Hd, !String.eqb_refl. reflexivity.
  - cbn [app destroy_first_named]. rewrite IH.
    assert (String.eqb (location x) id
            && String.eqb (wname (weapon x)) item
            && negb (mw_destroyed x) = false) as ->; [| reflexivity].
    destruct Hx as [Hx | [Hx | Hx]].
    + apply String.eqb_neq in Hx. rewrite Hx. reflexivity.
    + apply String.eqb_neq in Hx. rewrite Hx. apply andb_false_iff.
      left. apply andb_false_r.
    + rewrite Hx. apply andb_false_r.
Qed.

Lemma blank_slots_insert (item : string) (slots : list string) :
  forall i, slots !! i = Some item ->
    blank_slots item (<[i := "DESTROYED"]> slots) = blank_slots item slots.
Proof.
  induction slots as [| x slots IH]; intros i Hi; [discriminate |].
  destruct i as [| i]; cbn in Hi.
  - inversion Hi; subst.
    change (<[0%nat := "DESTROYED"]> (item :: slots))
      with ("DESTROYED" :: slots).
    unfold blank_slots. cbn [map]. rewrite String.eqb_refl.
    destruct (String.eqb "DESTROYED" item); reflexivity.
  - change (<[S i := "DESTROYED"]> (x :: slots))
      with (x :: <[i := "DESTROYED"]> slots).
    unfold blank_slots. cbn [map]. f_equal. apply IH. exact Hi.
Qed.

Lemma blank_slots_none (item : string) (slots : list string) (s : string) :
  item <> "DESTROYED" -> In s (blank_slots item slots) -> s <> item.
Proof.
  intros Hne. unfold blank_slots. rewrite in_map_iff.
  intros (x & Hx & _). destruct (String.eqb_spec x item); congruence.
Qed.

(** X28.  A critical hit that lands on a slot of a weapon with more than
    one slot (and no ammo explosion follows): the first weapon of that name
    mounted in the location that is not yet destroyed is destroyed, and
    every slot of the location that bears the name is marked destroyed.
    All other weapons are left as they were, so a second weapon of the same
    name in the location loses its slots and stays in working order. *)
Theorem crit_on_multi_slot_weapon (rnd : nat -> nat) (fuel : nat) (m : Mech)
    (id : string) (loc : Location) (idx : Z) (item : string) (p p1 : nat)
    (pre : list MountedWeapon) (w : MountedWeapon)
    (post : list MountedWeapon) :
  locations m !! id = Some loc ->
  pick_slot rnd fuel (crittable_slots loc) p = Ret (idx, p1) ->
  crittable_slots loc !! Z.to_nat idx = Some item ->
  String.prefix "Ammo" item = false ->
  weapons m = pre ++ w :: post ->
  Forall (fun mw => location mw <> id \/ wname (weapon mw) <> item
                    \/ mw_destroyed mw = true) pre ->
  location w = id -> wname (weapon w) = item -> mw_destroyed w = false ->
  1 < crit_slots (weapon w) ->
  exists m' l',
    _apply_crits rnd fuel m id 1 p = Ret (m', p1)
    /\ locations m' !! id = Some l'
    /\ crittable_slots l' = blank_slots item (crittable_slots loc)
    /\ (forall s, In s (crittable_slots l') -> s <> item)
    /\ weapons m' = pre ++ set_mw_destroyed true w :: post.
Proof.
  intros Hl Hpick Hitem Hammo Hws Hpre Hwl Hwn Hwd Hslots.
  assert (Hne : crittable_slots loc <> []).
  { intros E. rewrite E in Hitem. discriminate. }
  destruct (pick_slot_ret_live _ _ _ _ _ _ Hne Hpick) as (_ & s & Hs & Hd).
  assert (s = item) by congruence. subst s.
  assert (Hnd : item <> "DESTROYED").
  { intros ->. discriminate. }
  assert (Hav : available_slots loc <> []).
  { unfold available_slots. intros E.
    assert (In item (List.filter (fun s => negb (is_DESTROYED s))
                       (crittable_slots loc))) as Hin.
    { apply filter_In. split; [| rewrite Hd; reflexivity].
      apply list_elem_of_In. eapply list_elem_of_lookup_2. exact Hitem. }
    rewrite E in Hin. destruct Hin. }
  unfold _apply_crits, apply_crits_body.
  rewrite (bind_ret _ _ _ _ _ (get_loc_ret m id loc p Hl)).
  destruct (available_slots loc) as [| s0 rest] eqn:Hav'; [congruence |].
  change (Z.to_nat 1) with 1%nat. cbn [crit_loop].
  rewrite (bind_ret _ _ _ _ _ (get_loc_ret m id loc p Hl)).
  rewrite Hav'.
  rewrite (bind_ret _ _ _ _ _ Hpick).
  assert (Hat : slot_at (crittable_slots loc) idx p1 = Ret (item, p1))
    by (unfold slot_at; rewrite Hitem; reflexivity).
  rewrite (bind_ret _ _ _ _ _ Hat). cbv zeta. rewrite Hammo.
  unfold bind, ret.
  set (loc' := set_crittable_slots
                 (<[Z.to_nat idx := "DESTROYED"]> (crittable_slots loc)) loc).
  unfold crit_weapon.
  change (weapons (put_loc id loc' m)) with (weapons m).
  rewrite Hws, (destroy_first_named_split id item pre w post Hpre Hwl Hwn Hwd).
  assert ((1 <? crit_slots (weapon w)) = true) as ->
    by (apply Z.ltb_lt; exact Hslots).
  eexists. eexists. split; [reflexivity |].
  split; [apply lookup_put_loc |].
  assert (Hb : crittable_slots
                 (set_crittable_slots
                    (blank_slots item (crittable_slots loc')) loc')
               = blank_slots item (crittable_slots loc)).
  { unfold loc'. cbn. apply blank_slots_insert. exact Hitem. }
  split; [exact Hb |].
  split; [| reflexivity].
  intros s Hin. rewrite Hb in Hin.
  eapply blank_slots_none; eassumption.
Qed.

Lemma crit_on_multi_slot_weapon_witness :
  exists m' l',
    _apply_crits rnd_count 5 twin_laser_mech "LA" 1 0%nat = Ret (m', 1%nat)
    /\ locations m' !! "LA" = Some l'
    /\ crittable_slots l'
       = blank_slots "Large Laser"
           ["Large Laser"; "Large Laser"; "Large Laser"; "Large Laser"]
    /\ (forall s, In s (crittable_slots l') -> s <> "Large Laser")
    /\ weapons m'
       = [] ++ set_mw_destroyed true (MountedWeapon_init LARGE_LASER "LA" None)
            :: [MountedWeapon_init LARGE_LASER "LA" None].
Proof.
  apply (crit_on_multi_slot_weapon rnd_count 5 twin_laser_mech "LA"
           (mk_loc "LA" 6 0 8
              ["Large Laser"; "Large Laser"; "Large Laser"; "Large Laser"]
              false)
           0 "Large Laser" 0%nat 1%nat []
           (MountedWeapon_init LARGE_LASER "LA" None)
           [MountedWeapon_init LARGE_LASER "LA" None]);
    reflexivity || constructor.
Defined.

(** ** The weapon database as a dictionary *)

(** The names of [WEAPON_DB] are pairwise distinct, so the dictionary built
    from the list has one entry per weapon and [lookup_weapon] finds it. *)
Lemma WEAPON_DB_names_distinct : NoDup (map wname WEAPON_DB).
Proof. apply (bool_decide_unpack _). vm_compute. reflexivity. Qed.

Lemma lookup_weapon_iff (name : string) (w : Weapon) :
  lookup_weapon name = Some w <-> In w WEAPON_DB /\ wname w = name.
Proof.
  split; [apply lookup_weapon_some |].
  intros [Hin <-]. apply lookup_weapon_total. exact Hin.
Qed.

(** ** The preferred range *)

Lemma heat_neutral_dpr_ret (m : Mech) (d : Z) (p : nat) (q : Q) (p' : nat) :
  heat_neutral_dpr m d p = Ret (q, p') -> p' = p /\ dpr_at m d = q.
Proof.
  unfold dpr_at, heat_neutral_dpr. cbv zeta.
  destruct (_ <=? 0); [| discriminate].
  intros H. inversion H; subst. split; reflexivity.
Qed.

Lemma Qgtb_true (x y : Q) : Qgtb x y = true -> (y < x)%Q.
Proof.
  unfold Qgtb. intros H. apply negb_true_iff in H.
  apply Qnot_le_lt. intros Hle. apply Qle_bool_iff in Hle. congruence.
Qed.

Lemma Qgtb_false (x y : Q) : Qgtb x y = false -> (x <= y)%Q.
Proof.
  unfold Qgtb. intros H. apply negb_false_iff in H.
  apply Qle_bool_iff. exact H.
Qed.

Lemma preferred_range_loop_best (mech opponent : Mech) :
  forall (count : nat) (r best_r : Z) (best_a : Q) (p : nat) (res : Z)
         (p' : nat),
    preferred_range_loop mech opponent count r best_r best_a p
      = Ret (res, p') ->
    p' = p
    /\ (res = best_r
        /\ (forall k, r <= k < r + Z.of_nat count ->
                      (advantage_at mech opponent k <= best_a)%Q)
        \/ r <= res < r + Z.of_nat count
           /\ (best_a < advantage_at mech opponent res)%Q
           /\ (forall k, r <= k < res ->
                 (advantage_at mech opponent k
                  < advantage_at mech opponent res)%Q)
           /\ (forall k, res < k < r + Z.of_nat count ->
                 (advantage_at mech opponent k
                  <= advantage_at mech opponent res)%Q)).
Proof.
  induction count as [| c IH]; intros r best_r best_a p res p' H.
  { inversion H; subst. split; [reflexivity |]. left.
    split; [reflexivity |]. intros k Hk. lia. }
  cbn [preferred_range_loop] in H. inv_bind H. inv_bind H.
  apply heat_neutral_dpr_ret in Hstep as [-> Ha].
  apply heat_neutral_dpr_ret in Hstep0 as [-> Hb].
  assert (Hadv : (a - a0)%Q = advantage_at mech opponent r)
    by (unfold advantage_at; rewrite Ha, Hb; reflexivity).
  rewrite Hadv in H.
  destruct (Qgtb (advantage_at mech opponent r) best_a) eqn:Hg.
  - apply Qgtb_true in Hg.
    apply IH in H as [-> [[-> Hall] | (Hr & Hbest & Hpre & Hpost)]];
      (split; [reflexivity |]); right.
    + split; [lia |]. split; [exact Hg |].
      split; [intros k Hk; lia |].
      intros k Hk. apply Hall. lia.
    + split; [lia |].
      split; [eapply Qlt_trans; eassumption |].
      split.
      * intros k Hk. destruct (Z.eq_dec k r) as [-> | Hne];
          [exact Hbest | apply Hpre; lia].
      * intros k Hk. apply Hpost. lia.
  - apply Qgtb_false in Hg.
    apply IH in H as [-> [[-> Hall] | (Hr & Hbest & Hpre & Hpost)]];
      (split; [reflexivity |]).
    + left. split; [reflexivity |].
      intros k Hk. destruct (Z.eq_dec k r) as [-> | Hne];
        [exact Hg | apply Hall; lia].
    + right. split; [lia |]. split; [exact Hbest |].
      split.
      * intros k Hk. destruct (Z.eq_dec k r) as [-> | Hne];
          [eapply Qle_lt_trans; eassumption | apply Hpre; lia].
      * intros k Hk. apply Hpost. lia.
Qed.

(** X29.  Whenever [find_preferred_range] returns, no die was thrown and
    the result is the smallest range from 1 to [max_range] at which the
    advantage in heat-neutral damage per round is greatest: strictly
    greater than at every smaller range and at least as great as at every
    larger one.  The search starts from the advantage -999 at range 1, so
    when no range offers more than that (in particular when [max_range] is
    below 1) the answer is range 1. *)
Theorem find_preferred_range_best (mech opponent : Mech) (max_range : Z)
    (p : nat) (res : Z) (p' : nat) :
  find_preferred_range mech opponent max_range p = Ret (res, p') ->
  p' = p
  /\ (res = 1
      /\ (forall k, 1 <= k <= max_range ->
            (advantage_at mech opponent k <= -999 # 1)%Q)
      \/ 1 <= res <= max_range
         /\ (-999 # 1 < advantage_at mech opponent res)%Q
         /\ (forall k, 1 <= k < res ->
               (advantage_at mech opponent k
                < advantage_at mech opponent res)%Q)
         /\ (forall k, res < k <= max_range ->
               (advantage_at mech opponent k
                <= advantage_at mech opponent res)%Q)).
Proof.
  unfold find_preferred_range. intros H.
  apply preferred_range_loop_best in H
    as [-> [[-> Hall] | (Hr & Hbest & Hpre & Hpost)]];
    (split; [reflexivity |]).
  - left. split; [reflexivity |]. intros k Hk. apply Hall. lia.
  - right. split; [lia |]. split; [exact Hbest |].
    split; [exact Hpre |]. intros k Hk. apply Hpost. lia.
Qed.

Lemma find_preferred_range_best_witness :
  match find_preferred_range skirmisher plodder 30 0%nat with
  | Ret (res, p') =>
      p' = 0%nat
      /\ (res = 1
          /\ (forall k, 1 <= k <= 30 ->
                (advantage_at skirmisher plodder k <= -999 # 1)%Q)
          \/ 1 <= res <= 30
             /\ (-999 # 1 < advantage_at skirmisher plodder res)%Q
             /\ (forall k, 1 <= k < res ->
                   (advantage_at skirmisher plodder k
                    < advantage_at skirmisher plodder res)%Q)
             /\ (forall k, res < k <= 30 ->
                   (advantage_at skirmisher plodder k
                    <= advantage_at skirmisher plodder res)%Q))
  | _ => False
  end.
Proof.
  destruct (find_preferred_range skirmisher plodder 30 0%nat)
    as [[res p'] | e |] eqn:E.
  - exact (find_preferred_range_best skirmisher plodder 30 0%nat res p' E).
  - vm_compute in E. discriminate.
  - vm_compute in E. discriminate.
Defined.
